(** * script.js: the page's interactive modules, embedded and verified

    The script is one IIFE whose modules share nothing but a few constants
    ([reduceMotion], [lowPerf]) and the registry of animation-frame handles.
    Each JavaScript module becomes a Rocq module below: its closure variables
    are the fields of a state record, its handlers are functions on that
    record, and the browser facilities it talks to (the animation-frame
    callback list, timers, the fetch promise) are explicit parts of the
    state.  Numbers are rationals; [Math.random] is an oracle. *)

From Stdlib Require Import List Bool Arith PArith ZArith QArith Qabs Qround.
From Stdlib Require Import String Ascii Lia Lqa.
Import ListNotations.

Close Scope Q_scope.

(* ===================================================================== *)
(** * The animation-frame loops (lines 13-58, 328-335, 365-435, 588-708,
      841-936) *)
(* ===================================================================== *)

Module Page.

(** The functions handed to [requestAnimationFrame]. *)
Inductive Callback : Type :=
| DrawSparkles            (* drawSparkles, line 416 *)
| ParticlesLoop           (* loop, line 687 *)
| AnimateWheels           (* animateWheels, line 900 *)
| RestoreCarTransition.   (* the arrow function of initCarPosition, line 332 *)

Definition Callback_eqb (a b : Callback) : bool :=
  match a, b with
  | DrawSparkles, DrawSparkles
  | ParticlesLoop, ParticlesLoop
  | AnimateWheels, AnimateWheels
  | RestoreCarTransition, RestoreCarTransition => true
  | _, _ => false
  end.

(** Closure variables of initSkillsModule that the sparkle loop uses.  The
    bitmap is abstracted to the number of shapes painted since the last
    clear ([0] is an empty surface); [sparkleBodies] counts the executions
    of the drawing body (lines 399-417). *)
Record Sparkle : Type := mkSparkle {
  sparkleActive : bool;
  sparkleRafId : option positive;
  sparkleCanvas : nat;
  sparkleBodies : nat
}.

(** Closure variables of initParticlesModule. *)
Record Particles : Type := mkParticles {
  running : bool;
  rafId : option positive;
  particlesCanvas : nat;
  particleBodies : nat
}.

(** Closure variables of initProjectsLayer. *)
Record Wheels : Type := mkWheels {
  wheelsRafId : option positive;
  wheelEls : nat;            (* .floating-wheel elements in the layer *)
  wheelBodies : nat
}.

(** The page: the browser's list of animation frame callbacks with the next
    handle it will hand out (handles are positive, so every handle is truthy
    in JavaScript), the script's registry [_rafIds], and the three loops. *)
Record State : Type := mkState {
  nextHandle : positive;
  frameQueue : list (positive * Callback);
  _rafIds : list positive;
  sparkle : Sparkle;
  particles : Particles;
  projects : Wheels
}.

Definition set_sparkle (x : Sparkle) (st : State) : State :=
  mkState (nextHandle st) (frameQueue st) (_rafIds st) x (particles st) (projects st).
Definition set_particles (x : Particles) (st : State) : State :=
  mkState (nextHandle st) (frameQueue st) (_rafIds st) (sparkle st) x (projects st).
Definition set_projects (x : Wheels) (st : State) : State :=
  mkState (nextHandle st) (frameQueue st) (_rafIds st) (sparkle st) (particles st) x.

(** window.requestAnimationFrame: a fresh handle, the callback appended. *)
Definition raf (cb : Callback) (st : State) : positive * State :=
  (nextHandle st,
   mkState (Pos.succ (nextHandle st)) (frameQueue st ++ [(nextHandle st, cb)])
           (_rafIds st) (sparkle st) (particles st) (projects st)).

Definition dequeue (id : positive) (q : list (positive * Callback))
  : list (positive * Callback) :=
  filter (fun r => negb (Pos.eqb (fst r) id)) q.

(** window.cancelAnimationFrame. *)
Definition cancelRaf (id : positive) (st : State) : State :=
  mkState (nextHandle st) (dequeue id (frameQueue st))
          (_rafIds st) (sparkle st) (particles st) (projects st).

(** pushRaf (lines 53-55); [if (id)] holds for every handle. *)
Definition pushRaf (id : positive) (st : State) : State :=
  mkState (nextHandle st) (frameQueue st) (_rafIds st ++ [id])
          (sparkle st) (particles st) (projects st).

(** stopRafs (lines 56-58): [pop] takes from the end of the array, so the
    loop walks the registry in reverse. *)
Fixpoint stopRafs_loop (stack : list positive) (q : list (positive * Callback))
  : list (positive * Callback) :=
  match stack with
  | [] => q
  | id :: rest => stopRafs_loop rest (dequeue id q)
  end.

Definition stopRafs (st : State) : State :=
  mkState (nextHandle st) (stopRafs_loop (rev (_rafIds st)) (frameQueue st))
          [] (sparkle st) (particles st) (projects st).

(** JavaScript truthiness of a variable holding [null] or a handle. *)
Definition truthy (h : option positive) : bool :=
  match h with Some _ => true | None => false end.

Section Env.

Variables (reduceMotion lowPerf : bool).

Definition sparkleCount : nat := if lowPerf then 40 else 120.
Definition numDust : nat := if lowPerf then 30 else 60.
Definition numCars : nat := if lowPerf then 2 else 5.
Definition wheelCount : nat := if lowPerf then 3 else 6.

(** ** Sparkle canvas *)

(** drawSparkles (lines 393-418). *)
Definition drawSparkles (st : State) : State :=
  let s := sparkle st in
  if negb (sparkleActive s) || reduceMotion then
    set_sparkle (mkSparkle (sparkleActive s) None 0 (sparkleBodies s)) st
  else
    let '(id, st1) := raf DrawSparkles st in
    pushRaf id
      (set_sparkle (mkSparkle (sparkleActive s) (Some id) sparkleCount
                              (S (sparkleBodies s))) st1).

(** One entry of the sparkle observer's callback (lines 423-431). *)
Definition sparkleEntry (st : State) (isIntersecting : bool) : State :=
  let s := sparkle st in
  let st1 := set_sparkle (mkSparkle isIntersecting (sparkleRafId s)
                                    (sparkleCanvas s) (sparkleBodies s)) st in
  let st2 :=
    if isIntersecting && negb reduceMotion && negb (truthy (sparkleRafId s))
    then drawSparkles st1 else st1 in
  let s2 := sparkle st2 in
  match sparkleRafId s2 with
  | Some id =>
      if negb (sparkleActive s2) then
        set_sparkle (mkSparkle (sparkleActive s2) None 0 (sparkleBodies s2))
                    (cancelRaf id st2)
      else st2
  | None => st2
  end.

(** resizeCanvas (lines 368-371): assigning [canvas.width] resets the bitmap. *)
Definition resizeCanvas (st : State) : State :=
  let s := sparkle st in
  set_sparkle (mkSparkle (sparkleActive s) (sparkleRafId s) 0 (sparkleBodies s)) st.

(** ** Contact particles *)

(** loop (lines 676-689). *)
Definition loop (st : State) : State :=
  let p := particles st in
  if negb (running p) || reduceMotion then st
  else
    let '(id, st1) := raf ParticlesLoop st in
    pushRaf id
      (set_particles (mkParticles (running p) (Some id) (numDust + numCars)
                                  (S (particleBodies p))) st1).

(** One entry of the visibility observer's callback (lines 697-700). *)
Definition particlesEntry (st : State) (isIntersecting : bool) : State :=
  let p := particles st in
  let st1 := set_particles (mkParticles isIntersecting (rafId p)
                                        (particlesCanvas p) (particleBodies p)) st in
  if isIntersecting && negb reduceMotion then loop st1 else st1.

(** setSize, alone or followed by init (lines 594-604, 706): the bitmap is
    reset; init rebuilds the arrays and schedules nothing. *)
Definition setSize (st : State) : State :=
  let p := particles st in
  set_particles (mkParticles (running p) (rafId p) 0 (particleBodies p)) st.

(** The module's pagehide listener (line 707). *)
Definition particlesPageHide (st : State) : State :=
  let p := particles st in
  set_particles (mkParticles false (rafId p) (particlesCanvas p) (particleBodies p)) st.

(** ** Floating wheels *)

(** initWheels (lines 846-879): the old elements go, [wheelCount] come. *)
Definition initWheels (st : State) : State :=
  let w := projects st in
  set_projects (mkWheels (wheelsRafId w) wheelCount (wheelBodies w)) st.

(** animateWheels (lines 882-902). *)
Definition animateWheels (st : State) : State :=
  let w := projects st in
  let '(id, st1) := raf AnimateWheels st in
  pushRaf id (set_projects (mkWheels (Some id) (wheelEls w) (S (wheelBodies w))) st1).

(** cancel-and-null, as written at lines 912-915 and 927-930. *)
Definition cancelWheels (st : State) : State :=
  let w := projects st in
  match wheelsRafId w with
  | Some id => set_projects (mkWheels None (wheelEls w) (wheelBodies w)) (cancelRaf id st)
  | None => st
  end.

(** One entry of the wheels observer's callback (lines 907-917). *)
Definition wheelsEntry (st : State) (isIntersecting : bool) : State :=
  if isIntersecting && negb reduceMotion then animateWheels (initWheels st)
  else cancelWheels st.

(** The debounced resize listener (lines 926-933). *)
Definition wheelsResize (st : State) : State :=
  animateWheels (initWheels (cancelWheels st)).

(** ** Roadmap: initCarPosition's frame request (line 332), which bypasses
    pushRaf. *)
Definition initCarPosition (st : State) : State := snd (raf RestoreCarTransition st).

(** ** Events *)

Inductive Event : Type :=
| SparkleIntersect (entries : list bool)
| SparkleResize
| ParticlesIntersect (entries : list bool)
| ParticlesResize
| WheelsIntersect (entries : list bool)
| WheelsResize
| RoadmapResize
| Frame (id : positive)
| PageHide
| BeforeUnload.

(** The browser runs the pending callback registered under [id]. *)
Definition runCallback (cb : Callback) (st : State) : State :=
  match cb with
  | DrawSparkles => drawSparkles st
  | ParticlesLoop => loop st
  | AnimateWheels => animateWheels st
  | RestoreCarTransition => st
  end.

Definition pendingCallback (id : positive) (st : State) : option Callback :=
  match find (fun r => Pos.eqb (fst r) id) (frameQueue st) with
  | Some r => Some (snd r)
  | None => None
  end.

Definition frame (id : positive) (st : State) : State :=
  match pendingCallback id st with
  | Some cb => runCallback cb (cancelRaf id st)
  | None => st
  end.

Definition step (st : State) (e : Event) : State :=
  match e with
  | SparkleIntersect entries => fold_left sparkleEntry entries st
  | SparkleResize => resizeCanvas st
  | ParticlesIntersect entries => fold_left particlesEntry entries st
  | ParticlesResize => setSize st
  | WheelsIntersect entries => fold_left wheelsEntry entries st
  | WheelsResize => wheelsResize st
  | RoadmapResize => initCarPosition st
  | Frame id => frame id st
  | PageHide => particlesPageHide (stopRafs st)
  | BeforeUnload => stopRafs st
  end.

Definition run (evs : list Event) (st : State) : State := fold_left step evs st.

(** The state the DOMContentLoaded bootstrap leaves (lines 61-73): the
    roadmap has placed the car (line 337), the sparkle canvas has been sized
    (line 378), the particles module has sized its canvas and called
    [loop()] once (lines 604, 692) with [running = true]; the sparkle and
    wheel loops wait for their observers. *)
Definition blank : State :=
  mkState 1%positive [] []
          (mkSparkle false None 0 0)
          (mkParticles true None 0 0)
          (mkWheels None 0 0).

Definition boot : State := loop (setSize (resizeCanvas (initCarPosition blank))).

End Env.

(** Pending requests of one callback. *)
Definition pendingQ (cb : Callback) (q : list (positive * Callback)) : list positive :=
  map fst (filter (fun r => Callback_eqb (snd r) cb) q).

Definition pending (cb : Callback) (st : State) : list positive :=
  pendingQ cb (frameQueue st).

(** ** Invariants *)

(** The request list of a loop is empty, or holds exactly the handle the
    loop's variable remembers. *)
Definition single (l : list positive) (h : option positive) : Prop :=
  l = [] \/ exists id, h = Some id /\ l = [id].

Definition SparkleInv (rm : bool) (st : State) : Prop :=
  single (pending DrawSparkles st) (sparkleRafId (sparkle st)) /\
  (sparkleRafId (sparkle st) = None -> sparkleCanvas (sparkle st) = 0) /\
  (sparkleActive (sparkle st) = false -> sparkleRafId (sparkle st) = None) /\
  (rm = true -> sparkleRafId (sparkle st) = None).

(** What the other modules may do to the sparkle loop: leave its variables
    alone and, at most, drop requests from its list. *)
Definition sparkle_untouched (st st' : State) : Prop :=
  sparkle st' = sparkle st /\
  exists g, pending DrawSparkles st' = filter g (pending DrawSparkles st).

(** How a handler can change the browser's callback list and the registry:
    every handler of the page is a sequence of these moves. *)
Inductive effect : State -> State -> Prop :=
| eff_same st st' :
    nextHandle st' = nextHandle st -> frameQueue st' = frameQueue st ->
    _rafIds st' = _rafIds st -> effect st st'
| eff_cancel id st st' :
    nextHandle st' = nextHandle st -> frameQueue st' = dequeue id (frameQueue st) ->
    _rafIds st' = _rafIds st -> effect st st'
| eff_request cb st st' :
    nextHandle st' = Pos.succ (nextHandle st) ->
    frameQueue st' = frameQueue st ++ [(nextHandle st, cb)] ->
    _rafIds st' = _rafIds st ++ [nextHandle st] -> effect st st'
| eff_bare st st' :
    nextHandle st' = Pos.succ (nextHandle st) ->
    frameQueue st' = frameQueue st ++ [(nextHandle st, RestoreCarTransition)] ->
    _rafIds st' = _rafIds st -> effect st st'
| eff_stop st st' :
    nextHandle st' = nextHandle st ->
    frameQueue st' = stopRafs_loop (rev (_rafIds st)) (frameQueue st) ->
    _rafIds st' = [] -> effect st st'
| eff_trans a b c : effect a b -> effect b c -> effect a c.

(** Every request of a loop is in the registry, and handles are fresh. *)
Definition Registered (st : State) : Prop :=
  (forall id cb, In (id, cb) (frameQueue st) ->
                 cb <> RestoreCarTransition -> In id (_rafIds st)) /\
  (forall id, In id (_rafIds st) -> (id < nextHandle st)%positive).

(** A handle that has been handed out and is not pending. *)
Definition Dead (h : positive) (st : State) : Prop :=
  (h < nextHandle st)%positive /\ ~ In h (map fst (frameQueue st)).

End Page.

(* ===================================================================== *)
(** * Hero module: the text sequencer (lines 39-49, 77-148) *)
(* ===================================================================== *)

Module Hero.

(** [a < b] on numbers, as a boolean. *)
Definition Qltb (a b : Q) : bool := negb (Qle_bool b a).

(** settings (lines 85-88), in seconds. *)
Record Timing : Type := mkTiming { fadeIn : Q; visible : Q; fadeOut : Q }.

Definition settings_gotStuck : Timing := mkTiming (1#2) 1 (1#2).
Definition settings_fixIt : Timing := mkTiming (1#2) 1 (1#2).

Definition CAR_ARRIVAL : Q := 2.
Definition CAR_LEAVE : Q := 6.

(** The two caption elements and the part of their inline style the module
    writes.  An animation value [name Ns forwards] is kept as its name and
    its duration. *)
Inductive El : Type := gotStuckEl | fixItEl.

Inductive Animation : Type :=
| AnimUnset
| AnimNone
| Anim (name : string) (seconds : Q).

Record Style : Type := mkStyle { opacity : string; animation : Animation }.

(** A pending [setTimeout] of animateText: after [delay] milliseconds the
    element's animation is set. *)
Record Timeout : Type := mkTimeout { delay : Q; target : El; effect : Animation }.

(** Calls worth counting. *)
Inductive Call : Type := CallPlaySequence | CallResetTexts.

Definition Call_eqb (a b : Call) : bool :=
  match a, b with
  | CallPlaySequence, CallPlaySequence | CallResetTexts, CallResetTexts => true
  | _, _ => false
  end.

Record State : Type := mkState {
  playing : bool;
  lastTimeChecked : Q;
  last : Q;                      (* the throttle's closure variable *)
  gotStuck : Style;
  fixIt : Style;
  timeouts : list Timeout;
  calls : list Call
}.

Definition initial : State :=
  mkState false (-1) 0 (mkStyle "" AnimUnset) (mkStyle "" AnimUnset) [] [].

Definition hidden : Style := mkStyle "0" AnimNone.

(** resetTexts (lines 95-100). *)
Definition resetTexts (st : State) : State :=
  mkState (playing st) (lastTimeChecked st) (last st) hidden hidden
          (timeouts st) (calls st ++ [CallResetTexts]).

(** animateText (lines 103-115): two timeouts, and the total duration. *)
Definition animateText (el : El) (cfg : Timing) (delay : Q)
           (customFade : option string) (st : State) : Q * State :=
  let fadeName := match customFade with Some n => n | None => "fadeOutText"%string end in
  (fadeIn cfg + visible cfg + fadeOut cfg,
   mkState (playing st) (lastTimeChecked st) (last st) (gotStuck st) (fixIt st)
           (timeouts st ++
              [mkTimeout (delay * 1000) el (Anim "fadeInText" (fadeIn cfg));
               mkTimeout ((delay + fadeIn cfg + visible cfg) * 1000) el
                         (Anim fadeName (fadeOut cfg))])
           (calls st))%Q.

(** playSequence (lines 118-122). *)
Definition playSequence (st : State) : State :=
  let st0 := mkState (playing st) (lastTimeChecked st) (last st) (gotStuck st)
                     (fixIt st) (timeouts st) (calls st ++ [CallPlaySequence]) in
  let st1 := resetTexts st0 in
  let '(gotStuckTime, st2) := animateText gotStuckEl settings_gotStuck 0 None st1 in
  snd (animateText fixItEl settings_fixIt gotStuckTime (Some "fadeOutRight"%string) st2).

Definition set_playing (b : bool) (st : State) : State :=
  mkState b (lastTimeChecked st) (last st) (gotStuck st) (fixIt st)
          (timeouts st) (calls st).

Definition set_lastTimeChecked (c : Q) (st : State) : State :=
  mkState (playing st) c (last st) (gotStuck st) (fixIt st)
          (timeouts st) (calls st).

Definition set_last (t : Q) (st : State) : State :=
  mkState (playing st) (lastTimeChecked st) t (gotStuck st) (fixIt st)
          (timeouts st) (calls st).

(** [Math.abs(current - lastTimeChecked) < 0.1] (line 129). *)
Definition tooClose (current : Q) (st : State) : bool :=
  Qltb (Qabs (current - lastTimeChecked st)) (1#10).

(** [current >= CAR_ARRIVAL && current < CAR_LEAVE] (line 132). *)
Definition inWindow (current : Q) : bool :=
  Qle_bool CAR_ARRIVAL current && Qltb current CAR_LEAVE.

(** The function handed to throttle (lines 126-139); [video.currentTime] is
    a number or NaN ([None]). *)
Definition checkTime (currentTime : option Q) (st : State) : State :=
  match currentTime with
  | None => st
  | Some current =>
      if tooClose current st then st
      else
        let st1 := set_lastTimeChecked current st in
        if inWindow current && negb (playing st1) then
          playSequence (set_playing true st1)
        else if Qle_bool CAR_LEAVE current || Qltb current CAR_ARRIVAL then
          resetTexts (set_playing false st1)
        else st1
  end.

(** throttle(fn, 100) (lines 40-49) around it: [now] is [performance.now()]
    at the timeupdate event. *)
Definition onTimeUpdate (now : Q) (currentTime : option Q) (st : State) : State :=
  if Qle_bool 100 (now - last st) then checkTime currentTime (set_last now st)
  else st.

(** A run of samples that passed the throttle. *)
Definition sample (st : State) (current : Q) : State := checkTime (Some current) st.

Definition runSamples (samples : list Q) (st : State) : State :=
  fold_left sample samples st.


Definition starts (st : State) : nat :=
  List.length (filter (Call_eqb CallPlaySequence) (calls st)).


(** Both captions as resetTexts leaves them. *)
Definition textsHidden (st : State) : Prop :=
  gotStuck st = hidden /\ fixIt st = hidden.

End Hero.

(* ===================================================================== *)
(** * JavaScript strings *)
(* ===================================================================== *)

(** A JavaScript string is kept as the UTF-8 text of the source file.  Its
    characters (one UTF-16 unit each for everything the page displays) are
    the lead bytes with their continuation bytes; [length], [substring] and
    [charAt] count those.  [trim] and [toLowerCase] treat the ASCII range. *)
Module Js.

Definition isContinuation (a : ascii) : bool :=
  let n := nat_of_ascii a in (128 <=? n) && (n <? 192).

Fixpoint chars (s : string) : list string :=
  match s with
  | EmptyString => []
  | String a rest =>
      match rest with
      | String b _ =>
          if isContinuation b then
            match chars rest with
            | c :: cs => String a c :: cs
            | [] => [String a EmptyString]
            end
          else String a EmptyString :: chars rest
      | EmptyString => [String a EmptyString]
      end
  end.

Definition join (l : list string) : string := String.concat "" l.

Definition length (s : string) : nat := List.length (chars s).

(** [s.substring(0, k)]. *)
Definition substring0 (k : nat) (s : string) : string := join (firstn k (chars s)).

(** [s.charAt(i)]: the empty string past the end. *)
Definition charAt (i : nat) (s : string) : string := nth i (chars s) ""%string.

Definition isSpace (a : ascii) : bool :=
  let n := nat_of_ascii a in
  (n =? 32) || ((9 <=? n) && (n <=? 13)).

Fixpoint trimStart (s : string) : string :=
  match s with
  | String a rest => if isSpace a then trimStart rest else s
  | EmptyString => EmptyString
  end.

Fixpoint trimEnd (s : string) : string :=
  match s with
  | EmptyString => EmptyString
  | String a rest =>
      match trimEnd rest with
      | EmptyString => if isSpace a then EmptyString else String a EmptyString
      | kept => String a kept
      end
  end.

Definition trim (s : string) : string := trimEnd (trimStart s).

Definition lowerAscii (a : ascii) : ascii :=
  let n := nat_of_ascii a in
  if (65 <=? n) && (n <=? 90) then ascii_of_nat (n + 32) else a.

Fixpoint toLowerCase (s : string) : string :=
  match s with
  | EmptyString => EmptyString
  | String a rest => String (lowerAscii a) (toLowerCase rest)
  end.

(** [prefix p s]: [p] is [s.substring(0, k)] for some [k]. *)
Definition prefix (p s : string) : Prop := exists k, p = substring0 k s.

End Js.

(* ===================================================================== *)
(** * Roadmap module (lines 186-345) *)
(* ===================================================================== *)

Module Roadmap.

(** ** The description table (lines 203-225) *)

Record Link : Type := mkLink { linkText : string; url : string }.
Record Description : Type := mkDescription { text : string; link : Link }.

Definition DESCRIPTIONS : list (string * Description) :=
  [ ("about"%string,
     mkDescription "As a Frontend Developer and Web Designer, I love turning ideas into interactive, visually engaging websites. I craft experiences that connect creativity with technology."
                   (mkLink "Read more â†’" "about"));
    ("skills"%string,
     mkDescription "Explore the core web technologies and frameworks I work with."
                   (mkLink "Explore skills â†’" "skills"));
    ("projects"%string,
     mkDescription "Discover some of my featured web projects and creative work."
                   (mkLink "See projects â†’" "projects"));
    ("tools"%string,
     mkDescription "Take a look at the tools that power my design and development workflow."
                   (mkLink "View tools â†’" "tools"));
    ("contact"%string,
     mkDescription "Letâ€™s connect and collaborate on something amazing together."
                   (mkLink "Contact me â†’" "contact")) ].

(** What [DESCRIPTIONS[labelText]] evaluates to.  The table is an object
    literal, so besides its own five keys the lookup reaches the properties
    every object inherits from Object.prototype; of those only [constructor]
    and [__proto__] are spelled in lower case and can equal a lowercased
    label.  Both are objects (truthy) without a [text] property. *)
Inductive Entry : Type :=
| Own (d : Description)
| Inherited.

Fixpoint assoc (key : string) (table : list (string * Description))
  : option Description :=
  match table with
  | [] => None
  | (k, d) :: rest => if String.eqb k key then Some d else assoc key rest
  end.

Definition DESCRIPTIONS_get (labelText : string) : option Entry :=
  match assoc labelText DESCRIPTIONS with
  | Some d => Some (Own d)
  | None =>
      if String.eqb labelText "constructor" || String.eqb labelText "__proto__"
      then Some Inherited else None
  end.

(** [data.text]: undefined for the inherited objects. *)
Definition entryText (e : Entry) : option string :=
  match e with Own d => Some (text d) | Inherited => None end.

(** ** The page around the module *)

(** A waypoint: the text of its [.label] child ([None] when it has none)
    and its box. *)
Record Pin : Type := mkPin { label : option string; pinLeft : Q; pinWidth : Q }.

(** What the module reads from the document: the pins and the boxes of the
    road and of the car. *)
Record Dom : Type := mkDom {
  pinEls : list Pin;
  roadLeft : Q;
  roadClientWidth : Q;
  carWidth : Q
}.

(** ** State *)

(** The closure of one typing interval (lines 279-301). *)
Record Session : Type := mkSession { data : Entry; i : nat }.

(** [isMoving], the car's inline style and its transitionend listeners. *)
Record Car : Type := mkCar {
  isMoving : bool;
  transition : string;
  translateX : option Z;
  onEndListeners : nat;
  pendingFrames : nat           (* the request of initCarPosition, line 332 *)
}.

(** The description box: the text node of [#descText], the anchor appended
    after it, the wrapper's [show] class, the left-to-right style. *)
Record Box : Type := mkBox {
  descText : string;
  descLink : option Link;
  descShow : bool;
  descLtr : bool
}.

Record State : Type := mkState {
  activePin : nat;                       (* index into pinEls *)
  activeClass : list bool;               (* which pins carry class active *)
  car : Car;
  typingInterval : option positive;
  box : Box;
  intervals : list (positive * Session); (* the browser's live intervals *)
  timeouts : list positive;              (* pending add-show timeouts, 10 ms *)
  nextTimer : positive
}.

Definition set_car (c : Car) (st : State) : State :=
  mkState (activePin st) (activeClass st) c (typingInterval st) (box st)
          (intervals st) (timeouts st) (nextTimer st).

Definition set_box (b : Box) (st : State) : State :=
  mkState (activePin st) (activeClass st) (car st) (typingInterval st) b
          (intervals st) (timeouts st) (nextTimer st).

(** [descTextEl.textContent]. *)
Definition textContent (b : Box) : string :=
  match descLink b with
  | Some l => (descText b ++ " " ++ linkText l)%string
  | None => descText b
  end.

(** ** Car movement *)

(** Math.max, Math.min, Math.round on rationals. *)
Definition Qmax (a b : Q) : Q := if Qle_bool a b then b else a.
Definition Qmin (a b : Q) : Q := if Qle_bool a b then a else b.
Definition round (x : Q) : Z := Qfloor (x + (1#2)).

(** centerOfPin (lines 228-232). *)
Definition centerOfPin (dom : Dom) (pin : Pin) : Q :=
  (pinLeft pin - roadLeft dom + pinWidth pin / 2)%Q.

Definition eased : string := "transform 1s cubic-bezier(.22,.8,.33,1)".

(** moveCarTo (lines 235-251). *)
Definition moveCarTo (dom : Dom) (p : nat) (st : State) : State :=
  match nth_error (pinEls dom) p with
  | None => st
  | Some pin =>
      if isMoving (car st) then st
      else
        let maxX := Qmax 0 (roadClientWidth dom - carWidth dom) in
        let target := Qmax 0 (Qmin (centerOfPin dom pin - carWidth dom / 2) maxX) in
        set_car (mkCar true eased (Some (round target))
                       (S (onEndListeners (car st))) (pendingFrames (car st))) st
  end.

(** The transitionend event on the car: every onEnd listener runs and goes
    (lines 246-250). *)
Definition transitionEnd (st : State) : State :=
  let c := car st in
  match onEndListeners c with
  | O => st
  | S _ => set_car (mkCar false (transition c) (translateX c) 0 (pendingFrames c)) st
  end.

(** initCarPosition (lines 328-335), unclamped, and the frame it asks for. *)
Definition initCarPosition (dom : Dom) (st : State) : State :=
  let c := car st in
  let x := match nth_error (pinEls dom) (activePin st) with
           | Some pin => Some (round (centerOfPin dom pin - carWidth dom / 2))
           | None => translateX c
           end in
  set_car (mkCar (isMoving c) "none" x (onEndListeners c) (S (pendingFrames c))) st.

Definition animationFrame (st : State) : State :=
  let c := car st in
  match pendingFrames c with
  | O => st
  | S _ => set_car (mkCar (isMoving c) eased (translateX c) (onEndListeners c) 0) st
  end.

(** ** Typewriter *)

(** clearTyping (lines 254-259). *)
Definition clearTyping (st : State) : State :=
  match typingInterval st with
  | Some id =>
      mkState (activePin st) (activeClass st) (car st) None (box st)
              (filter (fun r => negb (Pos.eqb (fst r) id)) (intervals st))
              (timeouts st) (nextTimer st)
  | None => st
  end.

(** The label as line 263 reads it. *)
Definition labelText (pin : Pin) : string :=
  Js.toLowerCase (Js.trim (match label pin with Some s => s | None => ""%string end)).

(** showDescriptionForPin (lines 262-302), up to the first tick. *)
Definition showDescriptionForPin (dom : Dom) (p : nat) (st : State) : State :=
  match nth_error (pinEls dom) p with
  | None => st
  | Some pin =>
      match DESCRIPTIONS_get (labelText pin) with
      | None => st
      | Some entry =>
          let st1 := clearTyping st in
          let t := nextTimer st1 in
          let id := Pos.succ t in
          mkState (activePin st1) (activeClass st1) (car st1) (Some id)
                  (mkBox "" None false true)
                  (intervals st1 ++ [(id, mkSession entry 0)])
                  (timeouts st1 ++ [t])
                  (Pos.succ id)
      end
  end.

(** The 10 ms timeout of line 277. *)
Definition showTimeout (id : positive) (st : State) : State :=
  if existsb (Pos.eqb id) (timeouts st) then
    let b := box st in
    mkState (activePin st) (activeClass st) (car st) (typingInterval st)
            (mkBox (descText b) (descLink b) true (descLtr b))
            (intervals st)
            (filter (fun t => negb (Pos.eqb t id)) (timeouts st))
            (nextTimer st)
  else st.

Definition set_session (id : positive) (s : Session) (st : State) : State :=
  mkState (activePin st) (activeClass st) (car st) (typingInterval st) (box st)
          (map (fun r => if Pos.eqb (fst r) id then (id, s) else r) (intervals st))
          (timeouts st) (nextTimer st).

(** One run of the interval callback (lines 282-301).  With an inherited
    object as [data], [full] is undefined and line 283 throws: the callback
    ends there and the interval stays. *)
Definition tick (id : positive) (st : State) : State :=
  match find (fun r => Pos.eqb (fst r) id) (intervals st) with
  | None => st
  | Some (_, s) =>
      match data s with
      | Inherited => st
      | Own d =>
          let full := text d in
          let b := box st in
          let st1 := set_box (mkBox (Js.substring0 (i s + 1) full) None
                                    (descShow b) (descLtr b))
                             (set_session id (mkSession (data s) (S (i s))) st) in
          if Js.length full <=? S (i s) then
            let st2 := clearTyping st1 in
            let b2 := box st2 in
            set_box (mkBox (descText b2) (Some (link d)) (descShow b2) (descLtr b2)) st2
          else st1
      end
  end.

(** ** Selecting a waypoint *)

Fixpoint setNth (n : nat) (v : bool) (l : list bool) : list bool :=
  match l, n with
  | [], _ => []
  | _ :: rest, O => v :: rest
  | x :: rest, S m => x :: setNth m v rest
  end.

(** The click listener of pin [p] (lines 309-317); Enter and Space on the
    pin call it (lines 319-324).  Pins outside [pinEls] have no listener. *)
Definition click (dom : Dom) (p : nat) (st : State) : State :=
  match nth_error (pinEls dom) p with
  | None => st
  | Some _ =>
      if Nat.eqb (activePin st) p then st
      else
        let st1 :=
          mkState p (setNth p true (setNth (activePin st) false (activeClass st)))
                  (car st) (typingInterval st) (box st)
                  (intervals st) (timeouts st) (nextTimer st) in
        showDescriptionForPin dom p (moveCarTo dom p st1)
  end.

(** ** Events and the initial state *)

Inductive Event : Type :=
| Click (p : nat)
| TransitionEnd
| Tick (id : positive)
| ShowTimeout (id : positive)
| Resize
| AnimationFrame
| PageHide.

Definition step (dom : Dom) (st : State) (e : Event) : State :=
  match e with
  | Click p => click dom p st
  | TransitionEnd => transitionEnd st
  | Tick id => tick id st
  | ShowTimeout id => showTimeout id st
  | Resize => initCarPosition dom st
  | AnimationFrame => animationFrame st
  | PageHide => clearTyping st
  end.

Definition run (dom : Dom) (evs : list Event) (st : State) : State :=
  fold_left (step dom) evs st.

(** The state initRoadmapModule leaves (lines 198-200, 337-338);
    [classes] is which pins the markup marks active. *)
Definition blank (classes : list bool) : State :=
  mkState 0 classes (mkCar false "" None 0 0) None (mkBox "" None false false)
          [] [] 1%positive.

Definition boot (dom : Dom) (classes : list bool) : State :=
  showDescriptionForPin dom 0 (initCarPosition dom (blank classes)).

(** [n] runs of the interval callback of the current session. *)
Fixpoint ticks (n : nat) (st : State) : State :=
  match n with
  | O => st
  | S m =>
      match typingInterval st with
      | Some id => ticks m (tick id st)
      | None => st
      end
  end.

(** ** Invariants *)

Definition inTable (d : Description) : Prop := exists key, In (key, d) DESCRIPTIONS.

(** What the box shows: the first [k] characters of one description of the
    table, with that description's link after the complete text or with no
    link at all. *)
Definition Shown (b : Box) : Prop :=
  exists d k, inTable d /\ descText b = Js.substring0 k (text d) /\
    (descLink b = None \/
     (descLink b = Some (link d) /\ Js.length (text d) <= k)).

(** The box agrees with the counter of the running session. *)
Definition SessionOk (s : Session) (b : Box) : Prop :=
  descLink b = None /\
  match data s with
  | Own d => inTable d /\ descText b = Js.substring0 (i s) (text d)
  | Inherited => descText b = ""%string
  end.

(** No interval is live, or exactly the one [typingInterval] names. *)
Definition OneSession (st : State) : Prop :=
  Shown (box st) /\
  ((intervals st = [] /\ typingInterval st = None) \/
   exists id s, intervals st = [(id, s)] /\ typingInterval st = Some id /\
                SessionOk s (box st)).

(** ** A page to run the module on: five waypoints on a road of 1000 px,
    a car of 60 px, the first waypoint marked active. *)
Definition demoPins : list Pin :=
  [ mkPin (Some "About"%string) 80 40;
    mkPin (Some "Skills"%string) 280 40;
    mkPin (Some "Projects"%string) 480 40;
    mkPin (Some "Tools"%string) 680 40;
    mkPin (Some "Contact"%string) 880 40 ].

Definition demoDom : Dom := mkDom demoPins 0 1000 60.

Definition demoClasses : list bool := [true; false; false; false; false].

(** The same road with a sixth waypoint whose label is no key of the
    table, and one whose label is a name every object inherits. *)
Definition blogDom : Dom :=
  mkDom (demoPins ++ [mkPin (Some " Blog "%string) 940 40]) 0 1000 60.

Definition constructorDom : Dom :=
  mkDom (demoPins ++ [mkPin (Some "Constructor"%string) 940 40]) 0 1000 60.

End Roadmap.

(* ===================================================================== *)
(** * Skills module: staged reveal and detail typing (lines 349-515) *)
(* ===================================================================== *)

(** The section, both brackets, the canvas and [#skillDescription] are taken
    to exist; the sparkle loop of this module is part of [Page]. *)
Module Skills.

(** The classes the module toggles on one [.skill] element. *)
Record Item : Type := mkItem { show : bool; center : bool; fade : bool }.

(** The callbacks handed to [setTimeout]; [TypeChar desc i] is the closure
    [typeChar] of one click with its counter. *)
Inductive Timer : Type :=
| OpenLeft
| OpenRight
| Stagger
| ShowItem (k : nat)
| TypeChar (desc : string) (i : nat).

Record State : Type := mkState {
  items : list Item;
  leftOpen : bool;
  rightOpen : bool;
  boxText : string;                          (* skillDescBox.textContent *)
  typingTimeout : option positive;
  timers : list (positive * (nat * Timer));  (* handle, delay in ms, callback *)
  nextTimer : positive;
  reveals : nat                              (* runs of animateSkills *)
}.

Definition setTimeout (cb : Timer) (ms : nat) (st : State) : positive * State :=
  (nextTimer st,
   mkState (items st) (leftOpen st) (rightOpen st) (boxText st) (typingTimeout st)
           (timers st ++ [(nextTimer st, (ms, cb))]) (Pos.succ (nextTimer st))
           (reveals st)).

(** [clearTimeout(typingTimeout)]; the variable keeps its value. *)
Definition clearTypingTimeout (st : State) : State :=
  match typingTimeout st with
  | Some id =>
      mkState (items st) (leftOpen st) (rightOpen st) (boxText st) (typingTimeout st)
              (filter (fun r => negb (Pos.eqb (fst r) id)) (timers st))
              (nextTimer st) (reveals st)
  | None => st
  end.

Definition set_items (l : list Item) (st : State) : State :=
  mkState l (leftOpen st) (rightOpen st) (boxText st) (typingTimeout st)
          (timers st) (nextTimer st) (reveals st).

Definition set_boxText (s : string) (st : State) : State :=
  mkState (items st) (leftOpen st) (rightOpen st) s (typingTimeout st)
          (timers st) (nextTimer st) (reveals st).

Definition set_brackets (l r : bool) (st : State) : State :=
  mkState (items st) l r (boxText st) (typingTimeout st)
          (timers st) (nextTimer st) (reveals st).

(** animateSkills (lines 438-452). *)
Definition animateSkills (st : State) : State :=
  let st1 := set_items (map (fun _ => mkItem false false false) (items st)) st in
  let st2 := set_brackets false false (set_boxText "" st1) in
  let st3 := snd (setTimeout OpenLeft 100 st2) in
  let st4 := snd (setTimeout OpenRight 400 st3) in
  let st5 := snd (setTimeout Stagger 1000 st4) in
  mkState (items st5) (leftOpen st5) (rightOpen st5) (boxText st5)
          (typingTimeout st5) (timers st5) (nextTimer st5) (S (reveals st5)).

(** The reduced-motion branch (lines 462-464). *)
Definition showAll (st : State) : State :=
  set_brackets true true
    (set_items (map (fun it => mkItem true (center it) (fade it)) (items st)) st).

Section Env.

Variable reduceMotion : bool.

(** One entry of revealObserver's callback (lines 457-467). *)
Definition revealEntry (st : State) (isIntersecting : bool) : State :=
  if isIntersecting then
    if negb reduceMotion then animateSkills st else showAll st
  else st.

End Env.

(** typeChar (lines 493-498). *)
Definition typeChar (desc : string) (i : nat) (st : State) : State :=
  if i <? Js.length desc then
    let st1 := set_boxText (boxText st ++ Js.charAt i desc) st in
    let '(id, st2) := setTimeout (TypeChar desc (S i)) 40 st1 in
    mkState (items st2) (leftOpen st2) (rightOpen st2) (boxText st2) (Some id)
            (timers st2) (nextTimer st2) (reveals st2)
  else st.

(** The staggered reveal of line 447-451: one timeout per item. *)
Fixpoint stagger (k n : nat) (st : State) : State :=
  match n with
  | O => st
  | S m => stagger (S k) m (snd (setTimeout (ShowItem k) (k * 200) st))
  end.

Fixpoint showNth (k : nat) (l : list Item) : list Item :=
  match l, k with
  | [], _ => []
  | it :: rest, O => mkItem true (center it) (fade it) :: rest
  | it :: rest, S m => it :: showNth m rest
  end.

Definition runTimer (cb : Timer) (st : State) : State :=
  match cb with
  | OpenLeft => set_brackets true (rightOpen st) st
  | OpenRight => set_brackets (leftOpen st) true st
  | Stagger => stagger 0 (List.length (items st)) st
  | ShowItem k => set_items (showNth k (items st)) st
  | TypeChar desc i => typeChar desc i st
  end.

(** A pending timeout fires. *)
Definition fire (id : positive) (st : State) : State :=
  match find (fun r => Pos.eqb (fst r) id) (timers st) with
  | None => st
  | Some (_, (_, cb)) =>
      runTimer cb
        (mkState (items st) (leftOpen st) (rightOpen st) (boxText st)
                 (typingTimeout st)
                 (filter (fun r => negb (Pos.eqb (fst r) id)) (timers st))
                 (nextTimer st) (reveals st))
  end.

(** [centered k l]: item [k] gets class center, every other gets fade. *)
Fixpoint centered (k : nat) (l : list Item) : list Item :=
  match l with
  | [] => []
  | it :: rest =>
      match k with
      | O => mkItem (show it) true (fade it)
             :: map (fun o => mkItem (show o) (center o) true) rest
      | S m => mkItem (show it) (center it) true :: centered m rest
      end
  end.

(** The click listener of skill [k] (lines 479-501); [descs] are the
    [data-desc] attributes ([None] when absent). *)
Definition click (descs : list (option string)) (k : nat) (st : State) : State :=
  match nth_error (items st) k with
  | None => st
  | Some it =>
      let isActive := center it in
      let st1 := set_items (map (fun o => mkItem (show o) false false) (items st)) st in
      let st2 := set_boxText "" (clearTypingTimeout st1) in
      if negb isActive then
        let st3 := set_items (centered k (items st2)) st2 in
        let desc := match nth k descs None with Some d => d | None => ""%string end in
        typeChar desc 0 st3
      else st2
  end.

Inductive Event : Type :=
| Reveal (entries : list bool)
| Click (k : nat)
| Fire (id : positive)
| PageHide.

Definition step (reduceMotion : bool) (descs : list (option string))
           (st : State) (e : Event) : State :=
  match e with
  | Reveal entries => fold_left (revealEntry reduceMotion) entries st
  | Click k => click descs k st
  | Fire id => fire id st
  | PageHide => clearTypingTimeout st
  end.

Definition run (reduceMotion : bool) (descs : list (option string))
           (evs : list Event) (st : State) : State :=
  fold_left (step reduceMotion descs) evs st.

(** The module after initSkillsModule: [n] items as the markup has them
    (no class set), nothing scheduled. *)
Definition boot (n : nat) : State :=
  mkState (repeat (mkItem false false false) n) false false "" None [] 1%positive 0.

(** ** Invariants *)

Definition isTyping (r : positive * (nat * Timer)) : bool :=
  match snd (snd r) with TypeChar _ _ => true | _ => false end.

(** The pending timeouts that belong to a typing session. *)
Definition typing (st : State) : list (positive * (nat * Timer)) :=
  filter isTyping (timers st).

(** No typing timeout is pending, or exactly the one [typingTimeout]
    names. *)
Definition OneTyping (st : State) : Prop :=
  typing st = [] \/
  exists id ms desc i,
    typing st = [(id, (ms, TypeChar desc i))] /\ typingTimeout st = Some id.

(** What a click can type: a [data-desc] of the page, or nothing. *)
Definition known (descs : list (option string)) (d : string) : Prop :=
  d = ""%string \/ In (Some d) descs.

(** The box shows the first characters of one description, as many as the
    pending typing timeout has counted. *)
Definition TypedPrefix (descs : list (option string)) (st : State) : Prop :=
  (typing st = [] /\
   exists d k, known descs d /\ boxText st = Js.substring0 k d) \/
  (exists id ms d i,
     typing st = [(id, (ms, TypeChar d i))] /\ typingTimeout st = Some id /\
     known descs d /\ boxText st = Js.substring0 i d).

(** Events that do not run animateSkills. *)
Definition quiet (reduceMotion : bool) (e : Event) : bool :=
  match e with
  | Reveal entries => reduceMotion || forallb negb entries
  | _ => true
  end.

(** Three skills to run the module on; the third has no [data-desc]. *)
Definition demoDescs : list (option string) :=
  [Some "HTML"%string; Some "CSS"%string; None].

End Skills.

(* ===================================================================== *)
(** * Contact form submit (lines 731-759) *)
(* ===================================================================== *)

Module Contact.

(** The form element: where it posts and how. *)
Record Form : Type := mkForm { action : string; method : string }.

(** One call of [fetch]: URL, method, the FormData body, the Accept header. *)
Record Request : Type := mkRequest {
  reqUrl : string;
  reqMethod : string;
  reqBody : list (string * string);
  reqAccept : string
}.

(** How the promise of a fetch settles: a response with its [ok] flag, or a
    rejection. *)
Inductive Outcome : Type :=
| Responded (ok : bool)
| Rejected.

Record State : Type := mkState {
  status : string;                       (* status.textContent *)
  fields : list (string * string);       (* current values of the controls *)
  defaults : list (string * string);     (* what form.reset() restores *)
  prevented : nat;                       (* submit events whose default was prevented *)
  sent : list Request;                   (* every fetch the page has made *)
  awaiting : list positive;              (* handlers suspended at the await *)
  clearTimers : list positive;           (* pending 3000 ms timeouts of line 751 *)
  nextId : positive
}.

Definition SENDING : string := "Sending...".
Definition SUCCESS : string := "âœ… Message sent successfully!".
Definition FAILURE : string := "âŒ Something went wrong. Try again.".
Definition NETWORK_ERROR : string := "âš ï¸ Network error. Please try again.".

(** The handler up to its [await] (lines 736-746). *)
Definition submit (form : Form) (st : State) : State :=
  let data := fields st in
  mkState SENDING (fields st) (defaults st) (S (prevented st))
          (sent st ++ [mkRequest (action form) (method form) data "application/json"])
          (awaiting st ++ [nextId st]) (clearTimers st) (Pos.succ (nextId st)).

(** The rest of the handler, once the fetch it awaits has settled
    (lines 748-757). *)
Definition settle (id : positive) (o : Outcome) (st : State) : State :=
  if existsb (Pos.eqb id) (awaiting st) then
    let waiting := filter (fun h => negb (Pos.eqb h id)) (awaiting st) in
    match o with
    | Responded true =>
        mkState SUCCESS (defaults st) (defaults st) (prevented st) (sent st)
                waiting (clearTimers st ++ [nextId st]) (Pos.succ (nextId st))
    | Responded false =>
        mkState FAILURE (fields st) (defaults st) (prevented st) (sent st)
                waiting (clearTimers st) (nextId st)
    | Rejected =>
        mkState NETWORK_ERROR (fields st) (defaults st) (prevented st) (sent st)
                waiting (clearTimers st) (nextId st)
    end
  else st.

(** The timeout of line 751 fires. *)
Definition clearStatus (id : positive) (st : State) : State :=
  if existsb (Pos.eqb id) (clearTimers st) then
    mkState "" (fields st) (defaults st) (prevented st) (sent st) (awaiting st)
            (filter (fun h => negb (Pos.eqb h id)) (clearTimers st)) (nextId st)
  else st.

(** The user edits the controls. *)
Definition input (values : list (string * string)) (st : State) : State :=
  mkState (status st) values (defaults st) (prevented st) (sent st) (awaiting st)
          (clearTimers st) (nextId st).

End Contact.

(* ===================================================================== *)
(** * Particle and wheel layers: (re)initialisation (lines 594-672, 841-902) *)
(* ===================================================================== *)

Module Layers.

(** ** Math.random *)

(** A computation that draws from [Math.random]: the oracle gives the value
    of the n-th call, the counter says how many were made. *)
Definition Rand (A : Type) : Type := (nat -> Q) -> nat -> A * nat.

Definition ret {A : Type} (a : A) : Rand A := fun _ n => (a, n).

Definition bind {A B : Type} (m : Rand A) (f : A -> Rand B) : Rand B :=
  fun rnd n => let '(a, n') := m rnd n in f a rnd n'.

Definition random : Rand Q := fun rnd n => (rnd n, S n).

Notation "x <- m ;; k" := (bind m (fun x => k))
  (at level 61, m at next level, right associativity).

(** [for (let i = 0; i < n; i++) arr.push(make())]. *)
Fixpoint times {A : Type} (n : nat) (make : Rand A) : Rand (list A) :=
  match n with
  | O => ret []
  | S k => a <- make ;; rest <- times k make ;; ret (a :: rest)
  end.

(** What Math.random promises: a value in [0, 1). *)
Definition unit_interval (rnd : nat -> Q) : Prop :=
  forall n, (0 <= rnd n /\ rnd n < 1)%Q.

Definition Qltb (a b : Q) : bool := negb (Qle_bool b a).
Definition Qmax (a b : Q) : Q := if Qle_bool a b then b else a.

(** ** Contact particles *)

Record Canvas : Type := mkCanvas { width : Q; height : Q }.

Record Dust : Type := mkDust {
  dust_x : Q; dust_y : Q; dust_size : Q; dust_speedY : Q
}.

Record CarParticle : Type := mkCarParticle {
  car_x : Q; car_y : Q; car_size : Q; car_speedY : Q;
  car_floatX : Q; car_floatSpeed : Q
}.

(** Dust.reset (lines 618-623). *)
Definition Dust_reset (canvas : Canvas) : Rand Dust :=
  r1 <- random ;; r2 <- random ;; r3 <- random ;; r4 <- random ;;
  ret (mkDust (r1 * width canvas) (r2 * height canvas)
              (r3 * 2 + 1) (r4 * (1#2) + (15#100)))%Q.


(** CarParticle.reset (lines 641-649); its update uses Math.sin and is left
    out. *)
Definition CarParticle_reset (canvas : Canvas) : Rand CarParticle :=
  r1 <- random ;; r2 <- random ;; r3 <- random ;; r4 <- random ;;
  r5 <- random ;; r6 <- random ;;
  ret (mkCarParticle (r1 * width canvas) (r2 * height canvas)
                     (18 + r3 * 8) (r4 * (35#100) + (12#100))
                     (r5 * 50) (r6 * (2#100) + (1#100)))%Q.

Record Particles : Type := mkParticles {
  canvas : Canvas;
  dust : list Dust;
  cars : list CarParticle
}.

(** [a || b] on numbers: [b] when [a] is zero. *)
Definition orElse (a b : Q) : Q := if Qeq_bool a 0 then b else a.

(** What setSize reads (lines 594-597). *)
Record Viewport : Type := mkViewport {
  offsetWidth : Q; offsetHeight : Q; innerWidth : Q; innerHeight : Q
}.

Definition setSize (v : Viewport) : Canvas :=
  mkCanvas (orElse (offsetWidth v) (innerWidth v))
           (orElse (offsetHeight v) (innerHeight v)).

Section Env.

Variable lowPerf : bool.

Definition numDust : nat := if lowPerf then 30 else 60.
Definition numCars : nat := if lowPerf then 2 else 5.
Definition wheelCount : nat := if lowPerf then 3 else 6.

(** init (lines 667-672), on the current canvas. *)
Definition init (c : Canvas) : Rand Particles :=
  d <- times numDust (Dust_reset c) ;;
  k <- times numCars (CarParticle_reset c) ;;
  ret (mkParticles c d k).

(** The debounced resize listener of line 706: [setSize(); init();]. *)
Definition onResize (v : Viewport) : Rand Particles := init (setSize v).

(** ** Floating wheels *)

Record Wheel : Type := mkWheel {
  wheel_x : Q; wheel_y : Q; wheel_speedX : Q; wheel_speedY : Q;
  wheel_angle : Q; wheel_rotateSpeed : Q; wheel_scale : Q
}.

Definition sign (r : Q) : Q := if Qltb r (1#2) then 1 else (-1).

(** One turn of the loop of initWheels (lines 852-878); [w], [h] are the
    section's [rect.width] and [rect.height]. *)
Definition newWheel (w h : Q) : Rand Wheel :=
  r1 <- random ;; r2 <- random ;;
  r3 <- random ;; r4 <- random ;;
  r5 <- random ;; r6 <- random ;;
  r7 <- random ;; r8 <- random ;; r9 <- random ;;
  ret (mkWheel (r1 * Qmax 100 (w - 100)) (r2 * Qmax 100 (h - 100))
               ((r3 * (6#10) + (25#100)) * sign r4)
               ((r5 * (4#10) + (15#100)) * sign r6)
               (r7 * 360) ((15#100) + r8 * (35#100)) ((6#10) + r9 * (8#10)))%Q.

(** initWheels (lines 846-879): the array is emptied and refilled. *)
Definition initWheels (w h : Q) : Rand (list Wheel) :=
  times wheelCount (newWheel w h).

End Env.

(** One wheel in one frame of animateWheels (lines 886-894). *)
Definition moveWheel (w h : Q) (o : Wheel) : Wheel :=
  let x := (wheel_x o + wheel_speedX o)%Q in
  let y := (wheel_y o + wheel_speedY o)%Q in
  let sx1 := if Qle_bool x (-80) then (wheel_speedX o * -1)%Q else wheel_speedX o in
  let sx2 := if Qle_bool (w - 20) x then (sx1 * -1)%Q else sx1 in
  let sy1 := if Qle_bool y (-80) then (wheel_speedY o * -1)%Q else wheel_speedY o in
  let sy2 := if Qle_bool (h - 20) y then (sy1 * -1)%Q else sy1 in
  mkWheel x y sx2 sy2 (wheel_angle o + wheel_rotateSpeed o)%Q
          (wheel_rotateSpeed o) (wheel_scale o).

(** A position inside a box of the given size. *)
Definition inside (x y w h : Q) : Prop :=
  (0 <= x /\ x < w /\ 0 <= y /\ y < h)%Q.

End Layers.

(* ===================================================================== *)
(** * Timing helpers on their own (lines 30-49) *)
(* ===================================================================== *)

Module Timing.

Section Wrapped.

(** The arguments a wrapped function is called with. *)
Variable A : Type.

(** ** debounce (lines 31-37) *)

(** The closure of one debounced function: the timeout [t] when it is
    pending (when it is due and the arguments it will pass on), and the
    calls of [fn] made so far (when, with what). *)
Record Debounced : Type := mkDebounced {
  pendingCall : option (Q * A);
  invoked : list (Q * A)
}.

Definition idle : Debounced := mkDebounced None [].

(** Time reaches [now]: a pending timeout that is due runs [fn]. *)
Definition elapse (now : Q) (d : Debounced) : Debounced :=
  match pendingCall d with
  | Some (due, args) =>
      if Qle_bool due now then mkDebounced None (invoked d ++ [(due, args)])
      else d
  | None => d
  end.

(** The returned function is called at [now]: [clearTimeout(t)], then a new
    timeout for [wait] milliseconds later. *)
Definition debounced (wait now : Q) (args : A) (d : Debounced) : Debounced :=
  let d' := elapse now d in
  mkDebounced (Some ((now + wait)%Q, args)) (invoked d').

(** A run of calls, each with its time. *)
Definition calls (wait : Q) (cs : list (Q * A)) (d : Debounced) : Debounced :=
  fold_left (fun acc c => debounced wait (fst c) (snd c) acc) cs d.

(** Each call comes no earlier than the one before and less than [wait]
    after it. *)
Fixpoint burst (wait : Q) (t : Q) (cs : list (Q * A)) : Prop :=
  match cs with
  | [] => True
  | c :: rest => (t <= fst c /\ fst c < t + wait)%Q /\ burst wait (fst c) rest
  end.

(** ** throttle (lines 40-49) *)

(** The closure of one throttled function: [last], and the calls it let
    through. *)
Record Throttled : Type := mkThrottled {
  lastPass : Q;
  passed : list (Q * A)
}.

Definition fresh : Throttled := mkThrottled 0 [].

(** The returned function is called at [now] ([now()] of line 43). *)
Definition throttled (limit now : Q) (args : A) (th : Throttled) : Throttled :=
  if Qle_bool limit (now - lastPass th) then
    mkThrottled now (passed th ++ [(now, args)])
  else th.

Definition throttledCalls (limit : Q) (cs : list (Q * A)) (th : Throttled)
  : Throttled :=
  fold_left (fun acc c => throttled limit (fst c) (snd c) acc) cs th.

(** When the last call of a list was made, [t] for the empty list. *)
Definition lastTime (t : Q) (l : list (Q * A)) : Q :=
  fold_left (fun _ c => fst c) l t.

(** Neighbours in a list of passed calls are at least [limit] apart, the
    first at least [limit] after [t]. *)
Fixpoint spaced (limit : Q) (t : Q) (l : list (Q * A)) : Prop :=
  match l with
  | [] => True
  | c :: rest => (limit <= fst c - t)%Q /\ spaced limit (fst c) rest
  end.

End Wrapped.

Arguments mkDebounced {A}.
Arguments pendingCall {A}.
Arguments invoked {A}.
Arguments idle {A}.
Arguments elapse {A}.
Arguments debounced {A}.
Arguments calls {A}.
Arguments burst {A}.
Arguments mkThrottled {A}.
Arguments lastPass {A}.
Arguments passed {A}.
Arguments fresh {A}.
Arguments throttled {A}.
Arguments throttledCalls {A}.
Arguments lastTime {A}.
Arguments spaced {A}.

End Timing.

(* ===================================================================== *)
(** * Hero module: the caption timeouts and the arrow (lines 103-115,
      150-181) *)
(* ===================================================================== *)

Module HeroTimers.
Import Hero.

(** The [k]-th pending timeout of animateText fires (lines 105-112): the
    element's animation is set, the timeout is gone. *)
Definition fire (k : nat) (st : State) : State :=
  match nth_error (timeouts st) k with
  | None => st
  | Some t =>
      let rest := firstn k (timeouts st) ++ skipn (S k) (timeouts st) in
      match target t with
      | gotStuckEl =>
          mkState (playing st) (lastTimeChecked st) (last st)
                  (mkStyle (opacity (gotStuck st)) (effect t)) (fixIt st)
                  rest (calls st)
      | fixItEl =>
          mkState (playing st) (lastTimeChecked st) (last st)
                  (gotStuck st) (mkStyle (opacity (fixIt st)) (effect t))
                  rest (calls st)
      end
  end.

Definition styleOf (el : El) (st : State) : Style :=
  match el with gotStuckEl => gotStuck st | fixItEl => fixIt st end.

End HeroTimers.

Module HeroArrow.

(** Where the click scrolls to (lines 164-171). *)
Inductive Scroll : Type :=
| ToRoadmap            (* #workRoadmap *)
| ToNextSection        (* .hero + section, section *)
| ByViewport.          (* window.scrollBy *)

(** The inline overflow of [html] and [body], the timeouts that will
    restore it (each with the values it saved, oldest first: all wait
    800 ms), and the scrolls made. *)
Record State : Type := mkState {
  htmlOverflow : string;
  bodyOverflow : string;
  restores : list (string * string);
  scrolls : list Scroll
}.

(** The document: is there a [#workRoadmap], is there a section. *)
Record Dom : Type := mkDom { hasRoadmap : bool; hasSection : bool }.

(** The click listener (lines 154-178). *)
Definition click (dom : Dom) (st : State) : State :=
  let prevHtmlOverflow := htmlOverflow st in
  let prevBodyOverflow := bodyOverflow st in
  let target := if hasRoadmap dom then ToRoadmap
                else if hasSection dom then ToNextSection else ByViewport in
  mkState "" "" (restores st ++ [(prevHtmlOverflow, prevBodyOverflow)])
          (scrolls st ++ [target]).

(** The oldest pending timeout fires (lines 174-177). *)
Definition restore (st : State) : State :=
  match restores st with
  | [] => st
  | (h, b) :: rest => mkState h b rest (scrolls st)
  end.

(** [n] clicks one after the other, no timeout firing in between, and
    [n] timeouts firing. *)
Definition clicks (n : nat) (dom : Dom) (st : State) : State :=
  Nat.iter n (click dom) st.

Definition restoreAll (n : nat) (st : State) : State := Nat.iter n restore st.

End HeroArrow.

(* ===================================================================== *)
(** * Up arrows (lines 519-584) *)
(* ===================================================================== *)

Module UpArrows.

(** An injected arrow: its inline position. *)
Record Arrow : Type := mkArrow { top : string; right : string }.

(** A section: whether it carries class work-roadmap, its inline
    [position], how many [.goto-arrow] elements the markup put in it, and
    the arrows the script appended. *)
Record Section : Type := mkSection {
  isRoadmap : bool;
  position : string;
  ownArrows : nat;
  injected : list Arrow
}.

Record Page : Type := mkPage {
  sections : list Section;
  hasHero : bool;           (* document.querySelector('.hero') *)
  hasRoadmap : bool;        (* document.querySelector('.work-roadmap') *)
  innerWidth : Q
}.

Definition hasArrow (s : Section) : bool :=
  negb (Nat.eqb (ownArrows s) 0) || negb (Nat.eqb (List.length (injected s)) 0).

(** [a || b] on strings: [b] when [a] is empty. *)
Definition orElse (a b : string) : string :=
  if String.eqb a "" then b else a.

(** One turn of the forEach (lines 526-583). *)
Definition addArrow (innerWidth : Q) (s : Section) : Section :=
  if hasArrow s then s
  else
    let narrow := negb (Qle_bool 600 innerWidth) in
    let arrow := if narrow then mkArrow "10px" "10px" else mkArrow "20px" "20px" in
    mkSection (isRoadmap s) (orElse (position s) "relative") (ownArrows s)
              (injected s ++ [arrow]).

(** initUpArrows (lines 519-584). *)
Definition initUpArrows (p : Page) : Page :=
  if Nat.eqb (List.length (sections p)) 0 || negb (hasHero p) || negb (hasRoadmap p)
  then p
  else mkPage (map (addArrow (innerWidth p)) (sections p))
              (hasHero p) (hasRoadmap p) (innerWidth p).

(** Where an arrow's click scrolls to (lines 562-566). *)
Inductive Target : Type := Hero | Roadmap.

Definition arrowTarget (s : Section) : Target :=
  if isRoadmap s then Hero else Roadmap.

End UpArrows.

(* ===================================================================== *)
(** * Project sliders (lines 712-727) *)
(* ===================================================================== *)

Module Sliders.

(** One slider: which of its images carry class active, the counter [i],
    and whether its interval is (still) running. *)
Record Slider : Type := mkSlider {
  imgs : list bool;
  i : nat;
  live : bool
}.

Fixpoint setAt (k : nat) (v : bool) (l : list bool) : list bool :=
  match l, k with
  | [], _ => []
  | _ :: rest, O => v :: rest
  | x :: rest, S m => x :: setAt m v rest
  end.

(** The slider as initProjectSliders leaves it (lines 717-720): no
    interval for a slider of one image or none. *)
Definition init (classes : list bool) : Slider :=
  mkSlider classes 0 (1 <? List.length classes).

(** The interval callback (lines 720-724). *)
Definition tick (s : Slider) : Slider :=
  if live s then
    let off := setAt (i s) false (imgs s) in
    let next := (i s + 1) mod List.length (imgs s) in
    mkSlider (setAt next true off) next true
  else s.

(** The pagehide listener (line 725). *)
Definition pageHide (s : Slider) : Slider := mkSlider (imgs s) (i s) false.

(** [k] turns of the interval. *)
Definition ticks (k : nat) (s : Slider) : Slider := Nat.iter k tick s.

(** Only image [k] of [n] is active. *)
Definition onlyAt (k n : nat) : list bool := map (Nat.eqb k) (seq 0 n).

End Sliders.

(* ===================================================================== *)
(** * Projects layer: the glow (lines 799-812) *)
(* ===================================================================== *)

Module Glow.

(** The argument of [translate(...)] the throttled mousemove listener sets
    (lines 806-809): [rectLeft], [rectTop] are the section's box, [w], [h]
    the glow's offsetWidth and offsetHeight. *)
Definition follow (clientX clientY rectLeft rectTop w h : Q) : Z * Z :=
  let x := (clientX - rectLeft - w / 2)%Q in
  let y := (clientY - rectTop - h / 2)%Q in
  (Roadmap.round x, Roadmap.round y).

End Glow.

(* ===================================================================== *)
(** * Sparkles (lines 381-387, 404-414) and particles in motion *)
(* ===================================================================== *)

Module Sparkles.
Import Layers.

Record Sparkle : Type := mkSparkle { sx : Q; sy : Q; sr : Q; sd : Q }.


Definition sparkleCount (lowPerf : bool) : nat := if lowPerf then 40 else 120.








(** The loop of animateWheels (lines 884-899), [n] frames of it, in a
    section that keeps its size. *)
Definition wheelFrames (n : nat) (w h : Q) (l : list Wheel) : list Wheel :=
  Nat.iter n (map (moveWheel w h)) l.



(** One coordinate of a bouncing wheel: between the two turning lines, or
    past one of them by less than one step and heading back. *)
Definition bouncing (lim x s : Q) : Prop :=
  (-(17#20) < s /\ s < (17#20) /\
   ((-80 < x /\ x < lim) \/
    (x <= -80 /\ -80 - s < x /\ 0 < s) \/
    (lim <= x /\ x < lim - s /\ s < 0)))%Q.

End Sparkles.

(* ===================================================================== *)
(** * Contact form: runs of events *)
(* ===================================================================== *)

Module ContactRun.
Import Contact.

Inductive Event : Type :=
| Submit
| Settle (id : positive) (o : Outcome)
| ClearStatus (id : positive)
| Input (values : list (string * string)).

Definition step (form : Form) (st : State) (e : Event) : State :=
  match e with
  | Submit => submit form st
  | Settle id o => settle id o st
  | ClearStatus id => clearStatus id st
  | Input values => input values st
  end.

Definition run (form : Form) (evs : list Event) (st : State) : State :=
  fold_left (step form) evs st.

Definition isSubmit (e : Event) : bool :=
  match e with Submit => true | _ => false end.

End ContactRun.

(* ===================================================================== *)
(** * Skills: a typing session run to its end *)
(* ===================================================================== *)

Module SkillsRun.
Import Skills.

(** The timeout [typingTimeout] names fires, [n] times over. *)
Fixpoint typeOut (n : nat) (st : State) : State :=
  match n with
  | O => st
  | S m =>
      match typingTimeout st with
      | Some id => typeOut m (fire id st)
      | None => st
      end
  end.

(** Every pending timeout has a handle the browser has handed out. *)
Definition Fresh (st : State) : Prop :=
  forall r, In r (timers st) -> (fst r < nextTimer st)%positive.

(** What a handler may do to the timeouts: drop some, add new ones. *)
Definition Extends (st st' : State) : Prop :=
  (nextTimer st <= nextTimer st')%positive /\
  forall r, In r (timers st') ->
    In r (timers st) \/ (nextTimer st <= fst r < nextTimer st')%positive.

End SkillsRun.

(* ===================================================================== *)
(** * Animation-frame loops: further invariants *)
(* ===================================================================== *)

Module PageInv.
Import Page.

(** Neither canvas has been drawn on and neither canvas loop has a request
    pending. *)
Definition Unpainted (st : State) : Prop :=
  pending DrawSparkles st = [] /\ pending ParticlesLoop st = [] /\
  sparkleBodies (sparkle st) = 0 /\ particleBodies (particles st) = 0 /\
  sparkleCanvas (sparkle st) = 0 /\ particlesCanvas (particles st) = 0.

Definition isTeardown (e : Event) : bool :=
  match e with PageHide | BeforeUnload => true | _ => false end.

(** Frames drawn so far, all loops together. *)
Definition bodies (st : State) : nat :=
  sparkleBodies (sparkle st) + particleBodies (particles st)
  + wheelBodies (projects st).

(** The registry holds one handle for each frame drawn. *)
Definition Counted (st : State) : Prop := List.length (_rafIds st) = bodies st.

(** The registry holds distinct handles, all handed out already. *)
Definition Distinct (st : State) : Prop :=
  NoDup (_rafIds st) /\
  forall id, In id (_rafIds st) -> (id < nextHandle st)%positive.

(** Events that do not report the skills section out of view. *)
Definition inView (e : Event) : bool :=
  match e with
  | SparkleIntersect entries => forallb (fun isIntersecting => isIntersecting) entries
  | _ => true
  end.

(** The sparkle loop has no request pending while [sparkleRafId] still
    holds handle [r]; [b] frames have been drawn. *)
Definition Stalled (r : positive) (b : nat) (st : State) : Prop :=
  pending DrawSparkles st = [] /\
  sparkleRafId (sparkle st) = Some r /\
  sparkleBodies (sparkle st) = b.

End PageInv.

(* ===================================================================== *)
(** * Roadmap: kinds of events *)
(* ===================================================================== *)

Module RoadmapInv.
Import Roadmap.

Definition isTransitionEnd (e : Event) : bool :=
  match e with TransitionEnd => true | _ => false end.

(** The events that write the car's style or its guard without a click. *)
Definition touchesCar (e : Event) : bool :=
  match e with TransitionEnd | Resize | AnimationFrame => true | _ => false end.

(** The guard is held exactly while one transitionend listener waits. *)
Definition Guarded (st : State) : Prop :=
  onEndListeners (car st) = if isMoving (car st) then 1 else 0.

(** Class active sits on the active pin and on no other of the [n] pins. *)
Definition OneActive (n : nat) (st : State) : Prop :=
  activePin st < n /\ List.length (activeClass st) = n /\
  forall j, j < n -> nth j (activeClass st) false = Nat.eqb j (activePin st).

End RoadmapInv.

(* ===================================================================== *)
(** * Theorems *)
(* ===================================================================== *)

(* --------------------------------------------------------------------- *)
(** ** JavaScript strings *)
(* --------------------------------------------------------------------- *)

Section JsFacts.

Lemma append_assoc (a b c : string) : ((a ++ b) ++ c = a ++ (b ++ c))%string.
Proof. induction a as [|x a IH]; simpl; [reflexivity | now rewrite IH]. Qed.

Lemma join_cons x l : Js.join (x :: l) = (x ++ Js.join l)%string.
Proof.
  unfold Js.join. destruct l as [|y l]; simpl; [|reflexivity].
  induction x as [|c x IH]; simpl; [reflexivity | now rewrite <- IH].
Qed.

Lemma join_firstn_S (l : list string) i :
  i < List.length l ->
  (Js.join (firstn i l) ++ nth i l "" = Js.join (firstn (S i) l))%string.
Proof.
  revert i. induction l as [|x l IH]; intros i Hi; simpl in Hi; [lia|].
  destruct i as [|i].
  - change (firstn 1 (x :: l)) with (x :: firstn 0 l).
    rewrite join_cons. simpl. clear.
    induction x as [|c x IH]; simpl; [reflexivity | now rewrite <- IH].
  - change (firstn (S (S i)) (x :: l)) with (x :: firstn (S i) l).
    change (firstn (S i) (x :: l)) with (x :: firstn i l).
    rewrite !join_cons, append_assoc. simpl nth. rewrite IH; [reflexivity | lia].
Qed.

(** [s.substring(0, i) + s.charAt(i)] is [s.substring(0, i + 1)]. *)
Lemma substring0_S d i :
  i < Js.length d ->
  (Js.substring0 i d ++ Js.charAt i d)%string = Js.substring0 (S i) d.
Proof. intros H. unfold Js.substring0, Js.charAt. now apply join_firstn_S. Qed.

Lemma chars_nonempty a s : Js.chars (String a s) <> [].
Proof.
  simpl. destruct s as [|b r]; [discriminate|].
  destruct (Js.isContinuation b); [|discriminate].
  destruct (Js.chars (String b r)); discriminate.
Qed.

(** Cutting a string into characters loses nothing. *)
Lemma join_chars s : Js.join (Js.chars s) = s.
Proof.
  induction s as [|a rest IH]; [reflexivity|].
  destruct rest as [|b r]; [reflexivity|].
  change (Js.chars (String a (String b r)))
    with (if Js.isContinuation b
          then match Js.chars (String b r) with
               | c :: cs => String a c :: cs
               | [] => [String a EmptyString]
               end
          else String a EmptyString :: Js.chars (String b r)).
  destruct (Js.isContinuation b).
  - destruct (Js.chars (String b r)) as [|c cs] eqn:E.
    + exfalso. exact (chars_nonempty b r E).
    + rewrite join_cons in *. simpl. now rewrite IH.
  - rewrite join_cons, IH. reflexivity.
Qed.

(** [s.substring(0, k)] is [s] itself once [k] reaches [s.length]. *)
Lemma substring0_all s k : Js.length s <= k -> Js.substring0 k s = s.
Proof.
  intros H. unfold Js.substring0, Js.length in *.
  rewrite firstn_all2 by exact H. apply join_chars.
Qed.

End JsFacts.

(* --------------------------------------------------------------------- *)
(** ** Animation-frame loops *)
(* --------------------------------------------------------------------- *)

Section PageFacts.
Import Page.

Local Arguments pendingQ : simpl never.

(** *** The callback list *)

Lemma pendingQ_app cb q q' : pendingQ cb (q ++ q') = pendingQ cb q ++ pendingQ cb q'.
Proof. unfold pendingQ. now rewrite filter_app, map_app. Qed.

Lemma pendingQ_ids (g : positive -> bool) cb q :
  pendingQ cb (filter (fun r => g (fst r)) q) = filter g (pendingQ cb q).
Proof.
  unfold pendingQ. induction q as [|[id c] q IH]; simpl; [reflexivity|].
  destruct (g id) eqn:Hg; simpl; destruct (Callback_eqb c cb); simpl;
    rewrite ?Hg, IH; reflexivity.
Qed.

Lemma stopRafs_loop_filter stack q :
  stopRafs_loop stack q =
  filter (fun r => negb (existsb (Pos.eqb (fst r)) stack)) q.
Proof.
  revert q. induction stack as [|id rest IH]; intros q; simpl.
  - induction q as [|r q IHq]; simpl; [reflexivity | now rewrite <- IHq].
  - rewrite IH. unfold dequeue.
    induction q as [|r q IHq]; simpl; [reflexivity|].
    destruct (Pos.eqb (fst r) id); simpl; [exact IHq|].
    destruct (existsb (Pos.eqb (fst r)) rest); simpl; now rewrite IHq.
Qed.

Lemma pendingCallback_In id st cb :
  pendingCallback id st = Some cb -> In id (pending cb st).
Proof.
  unfold pendingCallback, pending, pendingQ.
  destruct (find _ (frameQueue st)) as [r|] eqn:F; [|discriminate].
  intros [= <-]. apply find_some in F. destruct F as [Hin Heq].
  apply Pos.eqb_eq in Heq. subst id.
  apply in_map, filter_In. split; [exact Hin|]. now destruct (snd r).
Qed.

(** *** Single-request discipline of the sparkle loop *)

Lemma single_filter g l h : single l h -> single (filter g l) h.
Proof.
  intros [->|(id & Hh & ->)]; [now left|].
  simpl. destruct (g id); [right; eauto | now left].
Qed.

Lemma single_None l : single l None -> l = [].
Proof. now intros [->|(id & Hh & _)]. Qed.

Lemma single_cancel l id :
  single l (Some id) -> filter (fun h => negb (Pos.eqb h id)) l = [].
Proof.
  intros [->|(id' & [= <-] & ->)]; [reflexivity|].
  simpl. now rewrite Pos.eqb_refl.
Qed.

Lemma sparkle_untouched_refl st : sparkle_untouched st st.
Proof.
  split; [reflexivity|]. exists (fun _ => true).
  induction (pending DrawSparkles st) as [|a l IH]; simpl; congruence.
Qed.

Lemma sparkle_untouched_trans a b c :
  sparkle_untouched a b -> sparkle_untouched b c -> sparkle_untouched a c.
Proof.
  intros [E1 [g1 P1]] [E2 [g2 P2]]. split; [congruence|].
  exists (fun h => g1 h && g2 h). rewrite P2, P1. clear.
  generalize (pending DrawSparkles a). intros l.
  induction l as [|x l IH]; simpl; [reflexivity|].
  destruct (g1 x); simpl; [destruct (g2 x); simpl; now rewrite IH | exact IH].
Qed.

Lemma SparkleInv_untouched rm st st' :
  sparkle_untouched st st' -> SparkleInv rm st -> SparkleInv rm st'.
Proof.
  intros [E [g P]] (I1 & I2 & I3 & I4). unfold SparkleInv. rewrite E, P.
  repeat split; auto using single_filter.
Qed.

Lemma untouched_cancelRaf id st : sparkle_untouched st (cancelRaf id st).
Proof.
  split; [reflexivity|]. exists (fun h => negb (Pos.eqb h id)).
  unfold pending, cancelRaf, dequeue; simpl.
  apply (pendingQ_ids (fun h => negb (Pos.eqb h id))).
Qed.

Lemma untouched_stopRafs st : sparkle_untouched st (stopRafs st).
Proof.
  split; [reflexivity|].
  exists (fun h => negb (existsb (Pos.eqb h) (rev (_rafIds st)))).
  unfold pending, stopRafs; simpl. rewrite stopRafs_loop_filter.
  apply (pendingQ_ids (fun h => negb (existsb (Pos.eqb h) (rev (_rafIds st))))).
Qed.

Lemma untouched_same st st' :
  sparkle st' = sparkle st ->
  pending DrawSparkles st' = pending DrawSparkles st ->
  sparkle_untouched st st'.
Proof.
  intros E P. split; [exact E|]. rewrite P.
  destruct (sparkle_untouched_refl st) as [_ G]. exact G.
Qed.

Lemma pending_other cb q id :
  cb <> DrawSparkles ->
  pendingQ DrawSparkles (q ++ [(id, cb)]) = pendingQ DrawSparkles q.
Proof.
  intros N. rewrite pendingQ_app. unfold pendingQ at 2; simpl.
  destruct cb; simpl; try congruence; apply app_nil_r.
Qed.

Lemma untouched_loop rm lp st : sparkle_untouched st (loop rm lp st).
Proof.
  unfold loop. destruct (negb _ || rm); [apply sparkle_untouched_refl|].
  apply untouched_same; [reflexivity|].
  unfold pending; simpl. apply pending_other. discriminate.
Qed.

Lemma untouched_animateWheels st : sparkle_untouched st (animateWheels st).
Proof.
  apply untouched_same; [reflexivity|].
  unfold pending; simpl. apply pending_other. discriminate.
Qed.

Lemma untouched_initCarPosition st : sparkle_untouched st (initCarPosition st).
Proof.
  apply untouched_same; [reflexivity|].
  unfold pending; simpl. apply pending_other. discriminate.
Qed.

Lemma untouched_cancelWheels st : sparkle_untouched st (cancelWheels st).
Proof.
  unfold cancelWheels. destruct (wheelsRafId (projects st)) as [id|].
  - apply (sparkle_untouched_trans _ (cancelRaf id st)); [apply untouched_cancelRaf|].
    now apply untouched_same.
  - apply sparkle_untouched_refl.
Qed.

Lemma untouched_particlesEntry rm lp st e :
  sparkle_untouched st (particlesEntry rm lp st e).
Proof.
  unfold particlesEntry. destruct (e && negb rm).
  - eapply sparkle_untouched_trans; [|apply untouched_loop]. now apply untouched_same.
  - now apply untouched_same.
Qed.

Lemma untouched_wheelsEntry rm lp st e :
  sparkle_untouched st (wheelsEntry rm lp st e).
Proof.
  unfold wheelsEntry. destruct (e && negb rm).
  - eapply sparkle_untouched_trans; [|apply untouched_animateWheels].
    now apply untouched_same.
  - apply untouched_cancelWheels.
Qed.

Lemma untouched_fold (f : State -> bool -> State) :
  (forall st e, sparkle_untouched st (f st e)) ->
  forall entries st, sparkle_untouched st (fold_left f entries st).
Proof.
  intros Hf entries. induction entries as [|e es IH]; intros st; simpl.
  - apply sparkle_untouched_refl.
  - eapply sparkle_untouched_trans; [apply Hf | apply IH].
Qed.

Lemma SparkleInv_draw rm lp st :
  pending DrawSparkles st = [] ->
  SparkleInv rm (drawSparkles rm lp st).
Proof.
  intros P. unfold drawSparkles.
  destruct (negb (sparkleActive (sparkle st)) || rm) eqn:C.
  - unfold SparkleInv, pending in *; simpl. rewrite P.
    repeat split; auto. now left.
  - apply orb_false_elim in C. destruct C as [Ca ->].
    apply negb_false_iff in Ca.
    unfold SparkleInv; simpl. repeat split; try congruence.
    right. exists (nextHandle st). split; [reflexivity|].
    unfold pending in *; simpl.
    rewrite pendingQ_app, P. reflexivity.
Qed.

Lemma SparkleInv_entry rm lp st e :
  SparkleInv rm st -> SparkleInv rm (sparkleEntry rm lp st e).
Proof.
  intros (I1 & I2 & I3 & I4). unfold sparkleEntry.
  destruct (sparkleRafId (sparkle st)) as [id|] eqn:R.
  - (* a request is remembered *)
    destruct e, rm; cbn -[cancelRaf]; rewrite ?R; cbn -[cancelRaf];
      try (specialize (I4 eq_refl); discriminate).
    + unfold SparkleInv, pending; cbn. repeat split; auto; congruence.
    + unfold SparkleInv, pending; cbn. repeat split; auto.
      left. unfold dequeue. rewrite (pendingQ_ids (fun h => negb (Pos.eqb h id))).
      apply single_cancel. exact I1.
  - (* nothing is remembered, so nothing is pending *)
    apply single_None in I1. specialize (I2 eq_refl).
    destruct e, rm; cbn; rewrite ?R; cbn.
    + unfold SparkleInv, pending; cbn. fold (pending DrawSparkles st).
      rewrite I1. repeat split; auto. now left.
    + unfold SparkleInv, pending; cbn. rewrite pendingQ_app.
      fold (pending DrawSparkles st). rewrite I1. cbn.
      repeat split; try congruence. right. eauto.
    + unfold SparkleInv, pending; cbn. fold (pending DrawSparkles st).
      rewrite I1. repeat split; auto. now left.
    + unfold SparkleInv, pending; cbn. fold (pending DrawSparkles st).
      rewrite I1. repeat split; auto. now left.
Qed.

Lemma SparkleInv_step rm lp st e :
  SparkleInv rm st -> SparkleInv rm (step rm lp st e).
Proof.
  intros I. destruct e as [es| |es| |es| | |id| |]; simpl.
  - revert st I. induction es as [|e es IH]; intros st I; simpl; [exact I|].
    apply IH, SparkleInv_entry, I.
  - destruct I as (I1 & I2 & I3 & I4). unfold SparkleInv; simpl. auto.
  - eapply SparkleInv_untouched; [|exact I].
    apply untouched_fold. intros. apply untouched_particlesEntry.
  - eapply SparkleInv_untouched; [|exact I]. now apply untouched_same.
  - eapply SparkleInv_untouched; [|exact I].
    apply untouched_fold. intros. apply untouched_wheelsEntry.
  - eapply SparkleInv_untouched; [|exact I]. unfold wheelsResize.
    eapply sparkle_untouched_trans; [apply untouched_cancelWheels|].
    eapply sparkle_untouched_trans; [|apply untouched_animateWheels].
    now apply untouched_same.
  - eapply SparkleInv_untouched; [|exact I]. apply untouched_initCarPosition.
  - unfold frame. destruct (pendingCallback id st) as [cb|] eqn:F; [|exact I].
    destruct cb; simpl.
    + apply SparkleInv_draw. apply pendingCallback_In in F.
      destruct I as (I1 & _).
      unfold pending, cancelRaf, dequeue; simpl.
      rewrite (pendingQ_ids (fun h => negb (Pos.eqb h id))).
      unfold pending in F, I1.
      destruct I1 as [E|(id' & Hh & E)]; rewrite E in *; [reflexivity|].
      destruct F as [<-|[]]. simpl. now rewrite Pos.eqb_refl.
    + eapply SparkleInv_untouched; [|exact I].
      eapply sparkle_untouched_trans; [apply untouched_cancelRaf | apply untouched_loop].
    + eapply SparkleInv_untouched; [|exact I].
      eapply sparkle_untouched_trans; [apply untouched_cancelRaf | apply untouched_animateWheels].
    + eapply SparkleInv_untouched; [|exact I]. apply untouched_cancelRaf.
  - eapply SparkleInv_untouched; [|exact I].
    eapply sparkle_untouched_trans; [apply untouched_stopRafs|].
    now apply untouched_same.
  - eapply SparkleInv_untouched; [|exact I]. apply untouched_stopRafs.
Qed.

Lemma SparkleInv_boot rm lp : SparkleInv rm (boot rm lp).
Proof.
  unfold boot. eapply SparkleInv_untouched; [apply untouched_loop|].
  unfold SparkleInv; simpl. repeat split; auto. now left.
Qed.

Lemma SparkleInv_run rm lp evs st :
  SparkleInv rm st -> SparkleInv rm (run rm lp evs st).
Proof.
  revert st. induction evs as [|e evs IH]; intros st I; simpl; [exact I|].
  apply IH, SparkleInv_step, I.
Qed.

(** The sparkle loop does keep the discipline: whatever the observers, the
    resize listeners, the frames and the teardown hooks do, it never has two
    requests pending. *)
Lemma sparkle_single_request rm lp evs :
  List.length (pending DrawSparkles (run rm lp evs (boot rm lp))) <= 1.
Proof.
  destruct (SparkleInv_run rm lp evs _ (SparkleInv_boot rm lp)) as ([E|(id & _ & E)] & _);
    rewrite E; simpl; lia.
Qed.

(** *** The registry *)

Lemma eff_refl st : effect st st.
Proof. now apply eff_same. Qed.

Lemma effect_drawSparkles rm lp st : effect st (drawSparkles rm lp st).
Proof.
  unfold drawSparkles. destruct (negb _ || rm).
  - now apply eff_same.
  - now apply (eff_request DrawSparkles).
Qed.

Lemma effect_loop rm lp st : effect st (loop rm lp st).
Proof.
  unfold loop. destruct (negb _ || rm).
  - apply eff_refl.
  - now apply (eff_request ParticlesLoop).
Qed.

Lemma effect_animateWheels st : effect st (animateWheels st).
Proof. now apply (eff_request AnimateWheels). Qed.

Lemma effect_cancelWheels st : effect st (cancelWheels st).
Proof.
  unfold cancelWheels. destruct (wheelsRafId (projects st)) as [id|].
  - now apply (eff_cancel id).
  - apply eff_refl.
Qed.

Lemma effect_sparkleEntry rm lp st e : effect st (sparkleEntry rm lp st e).
Proof.
  unfold sparkleEntry.
  match goal with
  | |- effect st (match sparkleRafId (sparkle ?s2) with _ => _ end) =>
      assert (E2 : effect st s2); [|generalize dependent s2]
  end.
  { destruct (_ && _).
    - eapply eff_trans; [|apply effect_drawSparkles]. now apply eff_same.
    - now apply eff_same. }
  intros st2 E2.
  destruct (sparkleRafId (sparkle st2)) as [id|]; [|exact E2].
  destruct (negb (sparkleActive (sparkle st2))); [|exact E2].
  eapply eff_trans; [exact E2|]. now apply (eff_cancel id).
Qed.

Lemma effect_particlesEntry rm lp st e : effect st (particlesEntry rm lp st e).
Proof.
  unfold particlesEntry. destruct (e && negb rm).
  - eapply eff_trans; [|apply effect_loop]. now apply eff_same.
  - now apply eff_same.
Qed.

Lemma effect_wheelsEntry rm lp st e : effect st (wheelsEntry rm lp st e).
Proof.
  unfold wheelsEntry. destruct (e && negb rm).
  - eapply eff_trans; [|apply effect_animateWheels]. now apply eff_same.
  - apply effect_cancelWheels.
Qed.

Lemma effect_fold (f : State -> bool -> State) :
  (forall st e, effect st (f st e)) ->
  forall entries st, effect st (fold_left f entries st).
Proof.
  intros Hf entries. induction entries as [|e es IH]; intros st; simpl.
  - apply eff_refl.
  - eapply eff_trans; [apply Hf | apply IH].
Qed.

Lemma effect_frame rm lp id st : effect st (frame rm lp id st).
Proof.
  unfold frame. destruct (pendingCallback id st) as [cb|]; [|apply eff_refl].
  eapply eff_trans; [now apply (eff_cancel id st (cancelRaf id st))|].
  destruct cb; simpl.
  - apply effect_drawSparkles.
  - apply effect_loop.
  - apply effect_animateWheels.
  - apply eff_refl.
Qed.

Lemma effect_step rm lp st e : effect st (step rm lp st e).
Proof.
  destruct e; simpl.
  - apply effect_fold. intros. apply effect_sparkleEntry.
  - now apply eff_same.
  - apply effect_fold. intros. apply effect_particlesEntry.
  - now apply eff_same.
  - apply effect_fold. intros. apply effect_wheelsEntry.
  - unfold wheelsResize. eapply eff_trans; [apply effect_cancelWheels|].
    eapply eff_trans; [|apply effect_animateWheels]. now apply eff_same.
  - now apply eff_bare.
  - apply effect_frame.
  - eapply eff_trans; [now apply (eff_stop st (stopRafs st))|]. now apply eff_same.
  - now apply eff_stop.
Qed.

Lemma effect_run rm lp evs st : effect st (run rm lp evs st).
Proof.
  revert st. induction evs as [|e evs IH]; intros st; simpl.
  - apply eff_refl.
  - eapply eff_trans; [apply effect_step | apply IH].
Qed.

Lemma In_dequeue r id q : In r (dequeue id q) <-> In r q /\ fst r <> id.
Proof.
  unfold dequeue. rewrite filter_In, negb_true_iff, Pos.eqb_neq. tauto.
Qed.

Lemma In_stopped r stack q :
  In r (stopRafs_loop stack q) <-> In r q /\ ~ In (fst r) stack.
Proof.
  rewrite stopRafs_loop_filter, filter_In, negb_true_iff.
  split; intros [H1 H2]; split; auto.
  - intros Hin. assert (existsb (Pos.eqb (fst r)) stack = true); [|congruence].
    apply existsb_exists. exists (fst r). split; [exact Hin | apply Pos.eqb_refl].
  - destruct (existsb _ stack) eqn:E; [|reflexivity].
    apply existsb_exists in E. destruct E as (x & Hx & Heq).
    apply Pos.eqb_eq in Heq. subst x. contradiction.
Qed.

Lemma Registered_effect st st' : effect st st' -> Registered st -> Registered st'.
Proof.
  induction 1 as [st st' N Q R|id st st' N Q R|cb st st' N Q R|st st' N Q R
                 |st st' N Q R|a b c _ IH1 _ IH2];
    intros HR; [.. | now apply IH2, IH1]; destruct HR as [R1 R2];
    unfold Registered; rewrite N, Q, R; split.
  - exact R1.
  - exact R2.
  - intros i c Hin. apply In_dequeue in Hin. apply R1, Hin.
  - exact R2.
  - intros i c Hin Hc. apply in_app_iff. apply in_app_iff in Hin.
    destruct Hin as [Hin|[[= <- <-]|[]]]; [left; eauto | right; now left].
  - intros i Hin. apply in_app_iff in Hin.
    destruct Hin as [Hin|[<-|[]]]; [specialize (R2 _ Hin)|]; lia.
  - intros i c Hin Hc. apply in_app_iff in Hin.
    destruct Hin as [Hin|[[= <- <-]|[]]]; [eauto | congruence].
  - intros i Hin. specialize (R2 _ Hin). lia.
  - intros i c Hin Hc. apply In_stopped in Hin. destruct Hin as [Hin Hn].
    exfalso. apply Hn. apply -> in_rev. exact (R1 _ _ Hin Hc).
  - intros i [].
Qed.

Lemma Dead_effect h st st' : effect st st' -> Dead h st -> Dead h st'.
Proof.
  induction 1 as [st st' N Q R|id st st' N Q R|cb st st' N Q R|st st' N Q R
                 |st st' N Q R|a b c _ IH1 _ IH2];
    intros HD; [.. | now apply IH2, IH1]; destruct HD as [D1 D2];
    unfold Dead; rewrite N, Q; split; try lia; try exact D2.
  - intros Hin. apply D2. apply in_map_iff in Hin. destruct Hin as (r & <- & Hr).
    apply In_dequeue in Hr. apply in_map, Hr.
  - rewrite map_app, in_app_iff. simpl. intros [Hin|[E|[]]]; [auto | lia].
  - rewrite map_app, in_app_iff. simpl. intros [Hin|[E|[]]]; [auto | lia].
  - intros Hin. apply D2. apply in_map_iff in Hin. destruct Hin as (r & <- & Hr).
    apply In_stopped in Hr. apply in_map, Hr.
Qed.

Lemma Registered_boot rm lp : Registered (boot rm lp).
Proof.
  unfold boot. eapply Registered_effect; [apply effect_loop|].
  split; simpl.
  - intros id cb [[= <- <-]|[]]. congruence.
  - intros id [].
Qed.

Lemma Registered_run rm lp evs : Registered (run rm lp evs (boot rm lp)).
Proof.
  eapply Registered_effect; [apply effect_run | apply Registered_boot].
Qed.

Lemma Dead_not_pending h st : Dead h st -> pendingCallback h st = None.
Proof.
  intros [_ D]. unfold pendingCallback.
  destruct (find _ (frameQueue st)) as [r|] eqn:F; [|reflexivity].
  apply find_some in F. destruct F as [Hin Heq]. apply Pos.eqb_eq in Heq.
  exfalso. apply D. subst h. now apply in_map.
Qed.

Lemma run_app rm lp evs evs' st :
  run rm lp (evs ++ evs') st = run rm lp evs' (run rm lp evs st).
Proof. unfold run. apply fold_left_app. Qed.

End PageFacts.

(* --------------------------------------------------------------------- *)
(** ** Animation-frame loops: the claims *)
(* --------------------------------------------------------------------- *)

Section LoopClaims.
Import Page.

Local Arguments pendingQ : simpl never.

Lemma In_pendingQ_dequeue h cb id q :
  In h (pendingQ cb (dequeue id q)) -> In h (pendingQ cb q).
Proof.
  unfold dequeue. rewrite (pendingQ_ids (fun x => negb (Pos.eqb x id))).
  intros Hin. apply filter_In in Hin. apply Hin.
Qed.

Lemma In_pendingQ_snoc h cb cb' id q :
  cb' <> cb -> In h (pendingQ cb (q ++ [(id, cb')])) -> In h (pendingQ cb q).
Proof.
  intros N. rewrite pendingQ_app. unfold pendingQ at 2. simpl.
  destruct cb, cb'; simpl; try congruence; now rewrite app_nil_r.
Qed.

(** A frame callback of a paused particles loop returns at line 677. *)
Lemma paused_loop_frame rm lp id st :
  running (particles st) = false \/ rm = true ->
  particles (frame rm lp id st) = particles st /\
  forall h, In h (pending ParticlesLoop (frame rm lp id st)) ->
            In h (pending ParticlesLoop st).
Proof.
  intros Hp. unfold frame.
  destruct (pendingCallback id st) as [cb|]; [|split; auto].
  destruct cb; simpl.
  - unfold drawSparkles. destruct (negb _ || rm); simpl; (split; [reflexivity|]);
      unfold pending; simpl; intros h Hin.
    + eapply In_pendingQ_dequeue; eauto.
    + apply In_pendingQ_snoc in Hin; [|discriminate].
      eapply In_pendingQ_dequeue; eauto.
  - unfold loop. simpl.
    assert (C : negb (running (particles st)) || rm = true).
    { destruct Hp as [-> | ->]; [reflexivity | apply orb_true_r]. }
    rewrite C. split; [reflexivity|].
    unfold pending; simpl. intros h Hin. eapply In_pendingQ_dequeue; eauto.
  - split; [reflexivity|]. unfold pending; simpl. intros h Hin.
    apply In_pendingQ_snoc in Hin; [|discriminate].
    eapply In_pendingQ_dequeue; eauto.
  - split; [reflexivity|]. unfold pending; simpl. intros h Hin.
    eapply In_pendingQ_dequeue; eauto.
Qed.

(** With no sparkle request pending, no frame runs the sparkle body. *)
Lemma idle_sparkle_frame rm lp id st :
  pending DrawSparkles st = [] ->
  sparkle (frame rm lp id st) = sparkle st.
Proof.
  intros P. unfold frame.
  destruct (pendingCallback id st) as [cb|] eqn:F; [|reflexivity].
  destruct cb; simpl.
  - apply pendingCallback_In in F. rewrite P in F. destruct F.
  - destruct (untouched_loop rm lp (cancelRaf id st)) as [E _]. exact E.
  - reflexivity.
  - reflexivity.
Qed.

(** C1 (code defect).  The claim wants at most one frame request pending
    per loop.  The sparkle loop keeps that discipline on every event
    sequence (lemma [sparkle_single_request]); the particles observer and the
    wheels observer call their loop function without looking at the stored
    handle.  Motion allowed, page just booted: one intersecting report to
    the particles observer leaves requests 2 and 3 pending for [loop], and
    both reschedule themselves on the next frame (4 and 5); a resize
    followed by an intersecting report leaves requests 3 and 4 pending for
    [animateWheels]. *)
Theorem loops_request_twice :
  pending ParticlesLoop
    (run false false [ParticlesIntersect [true]] (boot false false))
    = [2; 3]%positive /\
  pending ParticlesLoop
    (run false false [ParticlesIntersect [true]; Frame 2; Frame 3] (boot false false))
    = [4; 5]%positive /\
  pending AnimateWheels
    (run false false [WheelsResize; WheelsIntersect [true]] (boot false false))
    = [3; 4]%positive.
Proof. repeat split; vm_compute; reflexivity. Qed.

(** C2, the claim as stated fails for the contact-particles canvas: after
    its observer reports the canvas out of view, request 2 is still pending
    (not cancelled) and the 65 shapes of the last frame are still on the
    bitmap (not cleared). *)
Lemma particles_pause_keeps_request_and_bitmap :
  let s := run false false [ParticlesIntersect [false]] (boot false false) in
  running (particles s) = false /\
  pending ParticlesLoop s = [2%positive] /\
  particlesCanvas (particles s) = 65.
Proof. repeat split; vm_compute; reflexivity. Qed.

(** C2 as amended.  On every state the page can reach:
    - sparkle canvas: while its section is reported out of view, or reduced
      motion is on, no sparkle request is pending, the bitmap is empty and
      no frame runs the drawing body; a report ending in "not intersecting"
      leads to such a state (request cancelled, bitmap cleared);
    - contact particles: while [running] is false or reduced motion is on,
      a frame runs no drawing body, leaves the bitmap as it is and requests
      nothing; a "not intersecting" report only lowers [running]: the
      callback list and the bitmap stay as they were. *)
Theorem hidden_loops_draw_nothing (rm lp : bool) (evs : list Event) :
  let s := run rm lp evs (boot rm lp) in
  (sparkleActive (sparkle s) = false \/ rm = true ->
     pending DrawSparkles s = [] /\
     sparkleCanvas (sparkle s) = 0 /\
     forall id, sparkle (step rm lp s (Frame id)) = sparkle s) /\
  (forall es,
     let s' := step rm lp s (SparkleIntersect (es ++ [false])) in
     sparkleActive (sparkle s') = false /\
     pending DrawSparkles s' = [] /\ sparkleCanvas (sparkle s') = 0) /\
  (running (particles s) = false \/ rm = true ->
     forall id,
       let s' := step rm lp s (Frame id) in
       particleBodies (particles s') = particleBodies (particles s) /\
       particlesCanvas (particles s') = particlesCanvas (particles s) /\
       forall h, In h (pending ParticlesLoop s') -> In h (pending ParticlesLoop s)) /\
  (let s' := step rm lp s (ParticlesIntersect [false]) in
   running (particles s') = false /\
   frameQueue s' = frameQueue s /\
   particlesCanvas (particles s') = particlesCanvas (particles s)).
Proof.
  intros s.
  assert (Quiet : forall st, SparkleInv rm st ->
            sparkleActive (sparkle st) = false \/ rm = true ->
            pending DrawSparkles st = [] /\ sparkleCanvas (sparkle st) = 0).
  { intros st (I1 & I2 & I3 & I4) H.
    assert (R : sparkleRafId (sparkle st) = None) by (destruct H; auto).
    rewrite R in I1. split; [apply single_None, I1 | auto]. }
  assert (I : SparkleInv rm s) by apply SparkleInv_run, SparkleInv_boot.
  split; [|split; [|split]].
  - intros H. destruct (Quiet s I H) as [P C]. repeat split; auto.
    intros id. simpl. now apply idle_sparkle_frame.
  - intros es s'.
    assert (A : sparkleActive (sparkle s') = false).
    { subst s'. simpl. rewrite fold_left_app. simpl.
      generalize (fold_left (sparkleEntry rm lp) es s). intros st.
      unfold sparkleEntry. simpl.
      destruct (sparkleRafId (sparkle st)); reflexivity. }
    split; [exact A|]. apply Quiet; [|now left].
    apply SparkleInv_step, I.
  - intros H id s'. subst s'. simpl.
    destruct (paused_loop_frame rm lp id s H) as [E P].
    rewrite E. auto.
  - simpl. unfold particlesEntry. simpl. auto.
Qed.

Lemma hidden_loops_draw_nothing_witness :
  let s := run false false [ParticlesIntersect [false]] (boot false false) in
  running (particles s) = false /\
  pendingCallback 2%positive s = Some ParticlesLoop /\
  particleBodies (particles (step false false s (Frame 2))) = 1.
Proof.
  split; [reflexivity|]. split; [reflexivity|].
  destruct (hidden_loops_draw_nothing false false [ParticlesIntersect [false]])
    as (_ & _ & H & _).
  destruct (H (or_introl eq_refl) 2%positive) as (B & _).
  exact B.
Defined.

(** C3.  Teardown, whatever the page did before and however visible each
    loop is: pagehide and beforeunload leave the registry empty and no loop
    callback pending (what is left in the browser's list is the one request
    the roadmap made without registering it); and a handle that was in the
    registry is never pending again, so its callback never fires. *)
Theorem teardown_cancels_registered_frames
  (rm lp : bool) (evs : list Event) (e : Event) :
  e = PageHide \/ e = BeforeUnload ->
  let s := run rm lp evs (boot rm lp) in
  let s' := step rm lp s e in
  _rafIds s' = [] /\
  (forall id cb, In (id, cb) (frameQueue s) -> cb <> RestoreCarTransition ->
                 In id (_rafIds s)) /\
  (forall id cb, In (id, cb) (frameQueue s') -> cb = RestoreCarTransition) /\
  (forall h, In h (_rafIds s) ->
     forall evs', pendingCallback h (run rm lp evs' s') = None).
Proof.
  intros He s s'.
  destruct (Registered_run rm lp evs) as [R1 R2]. fold s in R1, R2.
  assert (Q : frameQueue s' = stopRafs_loop (rev (_rafIds s)) (frameQueue s))
    by (destruct He; subst e; reflexivity).
  assert (N : nextHandle s' = nextHandle s) by (destruct He; subst e; reflexivity).
  split; [destruct He; subst e; reflexivity|].
  split; [exact R1|]. split.
  - intros id cb Hin. rewrite Q in Hin. apply In_stopped in Hin.
    destruct Hin as [Hin Hn]. simpl in Hn.
    destruct cb; try reflexivity; exfalso; apply Hn; apply -> in_rev;
      apply (R1 _ _ Hin); discriminate.
  - intros h Hh evs'. apply Dead_not_pending.
    apply (Dead_effect h s'); [apply effect_run|].
    split; [rewrite N; auto|].
    rewrite Q. intros Hin. apply in_map_iff in Hin.
    destruct Hin as (r & <- & Hr). apply In_stopped in Hr.
    destruct Hr as [_ Hn]. apply Hn. apply -> in_rev. exact Hh.
Qed.

Lemma teardown_cancels_registered_frames_witness :
  let s := run false false [SparkleIntersect [true]; WheelsIntersect [true]]
               (boot false false) in
  In 3%positive (_rafIds s) /\
  pendingCallback 3%positive
    (run false false [SparkleIntersect [false; true]; Frame 3]
         (step false false s PageHide)) = None.
Proof.
  split; [vm_compute; auto|].
  destruct (teardown_cancels_registered_frames false false
              [SparkleIntersect [true]; WheelsIntersect [true]] PageHide
              (or_introl eq_refl)) as (_ & _ & _ & H).
  apply H. vm_compute. auto.
Defined.

End LoopClaims.

(* --------------------------------------------------------------------- *)
(** ** Hero text sequencer *)
(* --------------------------------------------------------------------- *)

Section HeroClaims.
Import Hero.









(** The throttle in front of it (100 ms): of three timeupdate events at
    250 ms, 300 ms and 500 ms carrying the times 1, 2 and 3, the second is
    dropped, so the sequence starts at the third. *)
Example throttle_drops_early_event :
  let s1 := onTimeUpdate 250 (Some 1%Q) initial in
  let s2 := onTimeUpdate 300 (Some 2%Q) s1 in
  let s3 := onTimeUpdate 500 (Some 3%Q) s2 in
  s2 = s1 /\ playing s2 = false /\ playing s3 = true /\ starts s3 = 1.
Proof. repeat split; vm_compute; reflexivity. Qed.

End HeroClaims.

(* --------------------------------------------------------------------- *)
(** ** Roadmap *)
(* --------------------------------------------------------------------- *)

Section RoadmapClaims.
Import Roadmap.

(** *** Selecting a waypoint *)


Lemma car_showDescriptionForPin dom p st :
  car (showDescriptionForPin dom p st) = car st /\
  activePin (showDescriptionForPin dom p st) = activePin st /\
  activeClass (showDescriptionForPin dom p st) = activeClass st.
Proof.
  unfold showDescriptionForPin.
  destruct (nth_error (pinEls dom) p) as [pin|]; [|auto].
  destruct (DESCRIPTIONS_get (labelText pin)); [|auto].
  unfold clearTyping. destruct (typingInterval st); simpl; auto.
Qed.




(** *** A label without an entry *)

Local Arguments Js.substring0 : simpl never.
Local Arguments Js.length : simpl never.

(** A session in flight, left alone, types its text to the end: after the
    remaining ticks the box holds the whole description followed by its
    link, and the interval is gone. *)
Lemma session_completes n : forall st id d i,
  intervals st = [(id, mkSession (Own d) i)] -> typingInterval st = Some id ->
  i + S n = Js.length (text d) ->
  let fin := ticks (S n) st in
  box fin = mkBox (text d) (Some (link d)) (descShow (box st)) (descLtr (box st)) /\
  intervals fin = [] /\ typingInterval fin = None.
Proof.
  induction n as [|n IH]; intros st id d i I T L;
    destruct st as [ap ac c ti b ivs tos nt]; simpl in I, T; subst ivs ti.
  - simpl. unfold tick. simpl. rewrite Pos.eqb_refl. simpl.
    assert (C : (Js.length (text d) <=? S i) = true) by (apply Nat.leb_le; lia).
    rewrite C. unfold set_box, set_session, clearTyping. simpl.
    rewrite substring0_all by lia. rewrite !Pos.eqb_refl. simpl.
    rewrite ?Pos.eqb_refl. auto.
  - change (ticks (S (S n)) ?s) with
      (match typingInterval s with Some k => ticks (S n) (tick k s) | None => s end).
    cbn [typingInterval]. unfold tick. simpl find. rewrite Pos.eqb_refl. cbn [data Roadmap.i].
    assert (C : (Js.length (text d) <=? S i) = false) by (apply Nat.leb_gt; lia).
    rewrite C. unfold set_box, set_session. simpl map. rewrite Pos.eqb_refl.
    cbn [activePin activeClass car typingInterval box intervals timeouts nextTimer
         descShow descLtr fst].
    assert (L' : S i + S n = Js.length (text d)) by lia.
    match goal with
    | |- box (ticks _ ?s) = _ /\ _ => exact (IH s id d (S i) eq_refl eq_refl L')
    end.
Qed.

(** When [DESCRIPTIONS[labelText]] is undefined, showDescriptionForPin
    returns at line 265: the state, and with it the box and the timers, is
    what it was, and a session in flight still types its text to the end. *)
Lemma unknown_label_changes_nothing dom p pin st :
  nth_error (pinEls dom) p = Some pin ->
  DESCRIPTIONS_get (labelText pin) = None ->
  let st' := showDescriptionForPin dom p st in
  st' = st /\
  forall id d i n,
    intervals st = [(id, mkSession (Own d) i)] -> typingInterval st = Some id ->
    i + S n = Js.length (text d) ->
    box (ticks (S n) st')
    = mkBox (text d) (Some (link d)) (descShow (box st)) (descLtr (box st)) /\
    intervals (ticks (S n) st') = [].
Proof.
  intros N G st'. subst st'. unfold showDescriptionForPin. rewrite N, G.
  split; [reflexivity|]. intros id d i n I T L.
  destruct (session_completes n st id d i I T L) as (B & V & _). auto.
Qed.

(** A sixth waypoint labelled Blog, selected while the first text is being
    typed: the text typed so far stays and the session in flight still
    completes (169 characters, then the link). *)
Example blog_waypoint_leaves_box :
  let s := run blogDom [Tick 2; Tick 2; Tick 2] (boot blogDom demoClasses) in
  let s' := showDescriptionForPin blogDom 5 s in
  DESCRIPTIONS_get (labelText (mkPin (Some " Blog "%string) 940 40)) = None /\
  s' = s /\
  descText (box s') = "As "%string /\
  typingInterval (ticks 166 s') = None /\
  intervals (ticks 166 s') = [] /\
  Js.length (descText (box (ticks 166 s'))) = 169 /\
  descLink (box (ticks 166 s')) = Some (mkLink "Read more â†’" "about").
Proof. repeat split; vm_compute; reflexivity. Qed.

(** C10 (code defect).  The claim holds for every label whose lookup is
    undefined (lemmas [unknown_label_changes_nothing], [session_completes]),
    but a label can miss the table's keys and still find something: the
    lookup on an object literal also reaches the inherited [constructor].
    For a waypoint labelled Constructor, whose lowercased label is none of
    the five keys, the reveal passes line 265: the text typed so far (As,
    with its space) is wiped, the session in flight (interval 2) is
    cancelled, and interval 4 starts, whose callback throws at line 283 on
    every run and so leaves the box empty for good. *)
Theorem inherited_label_wipes_box :
  let pin := mkPin (Some "Constructor"%string) 940 40 in
  let s := run constructorDom [Tick 2; Tick 2; Tick 2] (boot constructorDom demoClasses) in
  let s' := showDescriptionForPin constructorDom 5 s in
  assoc (labelText pin) DESCRIPTIONS = None /\
  descText (box s) = "As "%string /\
  map fst (intervals s) = [2%positive] /\
  descText (box s') = ""%string /\
  intervals s' = [(4%positive, mkSession Inherited 0)] /\
  tick 4 s' = s' /\
  s' <> s.
Proof. repeat split; try (vm_compute; reflexivity). intros H. discriminate H. Qed.

(** *** One typing session at a time *)

Lemma assoc_In key table d : assoc key table = Some d -> In (key, d) table.
Proof.
  induction table as [|[k d0] rest IH]; simpl; [discriminate|].
  destruct (String.eqb k key) eqn:E.
  - apply String.eqb_eq in E. intros [= <-]. subst k. now left.
  - intros H. right. auto.
Qed.

Lemma DESCRIPTIONS_get_inTable key d :
  DESCRIPTIONS_get key = Some (Own d) -> inTable d.
Proof.
  unfold DESCRIPTIONS_get. destruct (assoc key DESCRIPTIONS) as [d0|] eqn:A.
  - intros [= <-]. exists key. now apply assoc_In.
  - destruct (_ || _); discriminate.
Qed.

Lemma Shown_empty show ltr : Shown (mkBox "" None show ltr).
Proof.
  unfold Shown, inTable, DESCRIPTIONS.
  eexists. exists 0. split; [eexists; left; reflexivity|].
  split; [reflexivity | now left].
Qed.

Lemma OneSession_clearTyping st : OneSession st -> OneSession (clearTyping st).
Proof.
  intros [S [[I T]|(id & s & I & T & K)]]; unfold clearTyping; rewrite T.
  - split; [exact S | left; auto].
  - split; [exact S|]. left. simpl. rewrite I. simpl.
    rewrite Pos.eqb_refl. auto.
Qed.

Lemma cleared_intervals st :
  OneSession st -> intervals (clearTyping st) = [].
Proof.
  intros [S [[I T]|(id & s & I & T & K)]]; unfold clearTyping; rewrite T; simpl.
  - exact I.
  - rewrite I. simpl. now rewrite Pos.eqb_refl.
Qed.

Lemma OneSession_show dom p st :
  OneSession st -> OneSession (showDescriptionForPin dom p st).
Proof.
  intros H. unfold showDescriptionForPin.
  destruct (nth_error (pinEls dom) p) as [pin|]; [|exact H].
  destruct (DESCRIPTIONS_get (labelText pin)) as [entry|] eqn:G; [|exact H].
  split; simpl; [apply Shown_empty|].
  right. rewrite (cleared_intervals st H). simpl.
  eexists. eexists. split; [reflexivity|]. split; [reflexivity|].
  split; [reflexivity|]. simpl.
  destruct entry as [d|]; [|reflexivity].
  split; [exact (DESCRIPTIONS_get_inTable _ _ G) | reflexivity].
Qed.

Lemma OneSession_tick id st : OneSession st -> OneSession (tick id st).
Proof.
  intros H. pose proof H as [Sh [[I T]|(id0 & s & I & T & L & K)]]; unfold tick; rewrite I; simpl.
  - exact H.
  - destruct (Pos.eqb id0 id) eqn:E; [|exact H].
    apply Pos.eqb_eq in E. subst id0.
    destruct s as [dat n]. simpl in *. destruct dat as [d|]; [|exact H].
    destruct K as [Td Tx].
    destruct st as [ap ac c ti b ivs tos nt]. simpl in *. subst ivs ti.
    destruct (Js.length (text d) <=? S n) eqn:C;
      unfold OneSession, set_box, set_session, clearTyping; simpl;
      rewrite ?Pos.eqb_refl; simpl.
    + split; [|left; auto].
      exists d, (n + 1). split; [exact Td|]. split; [reflexivity|].
      right. split; [reflexivity|]. apply Nat.leb_le in C. lia.
    + split.
      * exists d, (n + 1). split; [exact Td|]. split; [reflexivity | now left].
      * right. eexists. eexists. split; [reflexivity|]. split; [reflexivity|].
        split; [reflexivity|]. simpl. split; [exact Td|].
        now rewrite Nat.add_1_r.
Qed.

Lemma OneSession_step dom st e : OneSession st -> OneSession (step dom st e).
Proof.
  intros H. destruct e as [p| |id|id| | |]; simpl.
  - unfold click. destruct (nth_error (pinEls dom) p) as [pin|] eqn:N; [|exact H].
    destruct (Nat.eqb (activePin st) p); [exact H|].
    apply OneSession_show. unfold moveCarTo. rewrite N. simpl.
    destruct (isMoving (car st)); exact H.
  - unfold transitionEnd. destruct (onEndListeners (car st)); exact H.
  - apply OneSession_tick, H.
  - unfold showTimeout. destruct (existsb _ _); [|exact H].
    destruct H as [(d & k & Td & Tx & Tl) R]. split; [exists d, k; auto|exact R].
  - exact H.
  - unfold animationFrame. destruct (pendingFrames (car st)); exact H.
  - apply OneSession_clearTyping, H.
Qed.

Lemma OneSession_boot dom classes : OneSession (boot dom classes).
Proof.
  unfold boot. apply OneSession_show.
  split; simpl; [apply Shown_empty | left; auto].
Qed.

(** The roadmap box keeps the discipline of the claim on every run of the
    module: at most one interval is live, and the box shows a prefix of one
    description of the table, followed by that description's link only
    when the text is complete. *)
Lemma roadmap_one_session dom classes evs :
  let st := run dom evs (boot dom classes) in
  List.length (intervals st) <= 1 /\
  exists d k, inTable d /\
    descText (box st) = Js.substring0 k (text d) /\
    (descLink (box st) = None \/
     (descLink (box st) = Some (link d) /\ Js.length (text d) <= k)).
Proof.
  intros st.
  assert (H : OneSession st).
  { subst st. generalize (boot dom classes) (OneSession_boot dom classes).
    induction evs as [|e evs IH]; intros s Hs; simpl; [exact Hs|].
    apply IH, OneSession_step, Hs. }
  destruct H as [Sh [[I _]|(id & s & I & _)]]; rewrite I; simpl; split; auto.
Qed.

End RoadmapClaims.

(* --------------------------------------------------------------------- *)
(** ** Skills panel *)
(* --------------------------------------------------------------------- *)

Section SkillsClaims.
Import Skills.

(** *** The staged reveal *)

Lemma reveals_animateSkills st : reveals (animateSkills st) = S (reveals st).
Proof. reflexivity. Qed.

Lemma reveals_fold entries st :
  reveals (fold_left (revealEntry false) entries st)
  = reveals st + List.length (filter (fun e : bool => e) entries).
Proof.
  revert st. induction entries as [|e es IH]; intros st; simpl; [lia|].
  rewrite IH. destruct e; simpl; lia.
Qed.

(** C9, the claim as stated fails: motion allowed, three skills.  The first
    intersecting report runs the staged reveal and its six timeouts bring
    everything on screen; the next intersecting report runs animateSkills a
    second time: all items hidden again, both brackets closed, the three
    stage timeouts queued anew. *)
Lemma second_intersection_replays_reveal :
  let s1 := run false demoDescs
                [Reveal [true]; Fire 1; Fire 2; Fire 3; Fire 4; Fire 5; Fire 6]
                (boot 3) in
  let s2 := step false demoDescs s1 (Reveal [true]) in
  reveals s1 = 1 /\ map show (items s1) = [true; true; true] /\
  leftOpen s1 = true /\ rightOpen s1 = true /\ timers s1 = [] /\
  reveals s2 = 2 /\ map show (items s2) = [false; false; false] /\
  leftOpen s2 = false /\ rightOpen s2 = false /\
  map snd (timers s2) = [(100, OpenLeft); (400, OpenRight); (1000, Stagger)].
Proof. repeat split; vm_compute; reflexivity. Qed.

(** C9 as amended.  The reveal is not single-shot.  With motion allowed,
    every observer entry that reports the section intersecting runs
    animateSkills, whatever was revealed before: all items lose their
    classes, both brackets close, the detail box is emptied and the three
    stage timeouts (100, 400, 1000 ms) are queued; over one callback the
    number of runs grows by the number of intersecting entries.  An entry
    that reports the section out of view does nothing. *)
Theorem reveal_runs_on_every_intersection
  (descs : list (option string)) (st : State) :
  (let s' := step false descs st (Reveal [true]) in
   s' = animateSkills st /\
   reveals s' = S (reveals st) /\
   (forall it, In it (items s') -> it = mkItem false false false) /\
   List.length (items s') = List.length (items st) /\
   leftOpen s' = false /\ rightOpen s' = false /\ boxText s' = ""%string /\
   map snd (timers s')
     = map snd (timers st) ++ [(100, OpenLeft); (400, OpenRight); (1000, Stagger)]) /\
  (forall entries,
     reveals (step false descs st (Reveal entries))
     = reveals st + List.length (filter (fun e : bool => e) entries)) /\
  step false descs st (Reveal [false]) = st.
Proof.
  split; [|split].
  - simpl. split; [reflexivity|]. split; [reflexivity|]. split.
    + intros it Hin. apply in_map_iff in Hin. destruct Hin as (x & <- & _). reflexivity.
    + split; [apply length_map|]. repeat split.
      rewrite !map_app. simpl. rewrite <- !app_assoc. reflexivity.
  - intros entries. simpl. apply reveals_fold.
  - reflexivity.
Qed.

Lemma reveal_runs_on_every_intersection_witness :
  let s := run false demoDescs [Reveal [true]; Fire 1; Fire 2; Fire 3; Fire 4]
               (boot 3) in
  map show (items s) = [true; false; false] /\
  reveals (step false demoDescs s (Reveal [true; false; true])) = 3 /\
  hd (mkItem true true true) (items (step false demoDescs s (Reveal [true])))
  = mkItem false false false.
Proof.
  split; [reflexivity|].
  destruct (reveal_runs_on_every_intersection demoDescs
              (run false demoDescs [Reveal [true]; Fire 1; Fire 2; Fire 3; Fire 4] (boot 3)))
    as ((_ & _ & H & _) & R & _).
  split; [exact (R [true; false; true])|].
  apply H. simpl. auto.
Defined.

(** *** Typing the detail text *)

(** C6 (code defect).  Both boxes cancel and empty before a new reveal
    starts, and the roadmap box always shows a prefix of one description
    (lemma [roadmap_one_session]); the skills box keeps at most one typing
    timeout (lemma [skills_one_typing_timeout]) and shows a prefix of one
    description as long as animateSkills does not run (lemma
    [skills_box_shows_prefix]).  But animateSkills also empties the skills
    box, and it does so without cancelling the typing timeout.  Skill 0 (HTML) is clicked: "H" is shown and timeout 1 is
    pending; the section is reported intersecting: the box is emptied,
    timeout 1 stays; it fires and the session goes on where it was.  The
    box shows "T", then "TML": not a prefix of any description. *)
Theorem reveal_breaks_typed_prefix :
  let s1 := run false demoDescs [Click 0] (boot 3) in
  let s2 := step false demoDescs s1 (Reveal [true]) in
  let s3 := step false demoDescs s2 (Fire 1) in
  let s4 := run false demoDescs [Fire 5; Fire 6; Fire 7] s3 in
  boxText s1 = "H"%string /\
  typing s1 = [(1%positive, (40, TypeChar "HTML" 1))] /\
  boxText s2 = ""%string /\
  typing s2 = [(1%positive, (40, TypeChar "HTML" 1))] /\
  boxText s3 = "T"%string /\
  boxText s4 = "TML"%string /\ typing s4 = [] /\
  forall d, In (Some d) demoDescs ->
    ~ Js.prefix (boxText s3) d /\ ~ Js.prefix (boxText s4) d.
Proof.
  repeat (split; [vm_compute; reflexivity|]).
  intros d Hd.
  split; destruct Hd as [[= <-]|[[= <-]|[[=]|[]]]]; intros [k E];
    destruct k as [|[|[|[|[|k]]]]]; vm_compute in E; discriminate E.
Qed.

(** *** At most one typing timeout *)

Lemma typing_filter_id id l :
  filter isTyping (filter (fun r : positive * (nat * Timer) => negb (Pos.eqb (fst r) id)) l)
  = filter (fun r => negb (Pos.eqb (fst r) id)) (filter isTyping l).
Proof.
  induction l as [|r l IH]; simpl; [reflexivity|].
  destruct (negb (Pos.eqb (fst r) id)) eqn:E, (isTyping r) eqn:T; simpl;
    rewrite ?E, ?T, IH; reflexivity.
Qed.

(** Dropping timeouts keeps the invariant. *)
Lemma OneTyping_drop (g : positive * (nat * Timer) -> bool) st st' :
  typing st' = filter g (typing st) -> typingTimeout st' = typingTimeout st ->
  OneTyping st -> OneTyping st'.
Proof.
  intros E T [N|(id & ms & d & i & N & K)]; unfold OneTyping; rewrite E, N, T; simpl.
  - now left.
  - destruct (g _); [right; eauto 6 | now left].
Qed.

Lemma OneTyping_same st st' :
  typing st' = typing st -> typingTimeout st' = typingTimeout st ->
  OneTyping st -> OneTyping st'.
Proof.
  intros E T H. apply (OneTyping_drop (fun _ => true) st st'); auto.
  rewrite E. clear. induction (typing st) as [|r l IH]; simpl; congruence.
Qed.

Lemma typing_cleared st : OneTyping st -> typing (clearTypingTimeout st) = [].
Proof.
  intros [N|(id & ms & d & i & N & K)]; unfold clearTypingTimeout.
  - destruct (typingTimeout st); [|exact N].
    unfold typing in *; simpl. now rewrite typing_filter_id, N.
  - rewrite K. unfold typing in *; simpl. rewrite typing_filter_id, N. simpl.
    now rewrite Pos.eqb_refl.
Qed.

Lemma OneTyping_typeChar desc i st :
  typing st = [] -> OneTyping (typeChar desc i st).
Proof.
  intros N. unfold typeChar. destruct (i <? Js.length desc); [|now left].
  right. exists (nextTimer st), 40, desc, (S i).
  unfold typing in *; simpl. rewrite filter_app, N. auto.
Qed.

Lemma OneTyping_animateSkills st : OneTyping st -> OneTyping (animateSkills st).
Proof.
  apply OneTyping_same; [|reflexivity].
  unfold typing; simpl. rewrite !filter_app. simpl. now rewrite !app_nil_r.
Qed.

Lemma stagger_typing k n st :
  typing (stagger k n st) = typing st /\
  typingTimeout (stagger k n st) = typingTimeout st /\
  boxText (stagger k n st) = boxText st.
Proof.
  revert k st. induction n as [|n IH]; intros k st; [simpl; auto|].
  change (stagger k (S n) st)
    with (stagger (S k) n (snd (setTimeout (ShowItem k) (k * 200) st))).
  destruct (IH (S k) (snd (setTimeout (ShowItem k) (k * 200) st))) as (-> & -> & ->).
  unfold typing; simpl. rewrite filter_app. simpl. now rewrite app_nil_r.
Qed.

Lemma OneTyping_fire id st : OneTyping st -> OneTyping (fire id st).
Proof.
  intros H. unfold fire.
  destruct (find _ (timers st)) as [[id' [ms cb]]|] eqn:F; [|exact H].
  apply find_some in F. destruct F as [Hin Heq]. simpl in Heq.
  apply Pos.eqb_eq in Heq. subst id'.
  set (st0 := mkState _ _ _ _ _ _ _ _).
  assert (T0 : typing st0 = filter (fun r => negb (Pos.eqb (fst r) id)) (typing st)).
  { unfold typing, st0; simpl. apply typing_filter_id. }
  assert (H0 : OneTyping st0).
  { apply (OneTyping_drop _ st st0 T0); [reflexivity | exact H]. }
  destruct cb; simpl.
  - apply (OneTyping_same st0); auto.
  - apply (OneTyping_same st0); auto.
  - destruct (stagger_typing 0 (List.length (items st0)) st0) as (E1 & E2 & _).
    apply (OneTyping_same st0); auto.
  - apply (OneTyping_same st0); auto.
  - apply OneTyping_typeChar. rewrite T0.
    assert (Hty : In (id, (ms, TypeChar desc i)) (typing st)).
    { unfold typing. apply filter_In. split; [exact Hin | reflexivity]. }
    destruct H as [N|(id1 & ms1 & d1 & i1 & N & K)]; rewrite N in *; [destruct Hty|].
    destruct Hty as [[= -> _ _ _]|[]]. simpl. now rewrite Pos.eqb_refl.
Qed.

Lemma OneTyping_click descs k st : OneTyping st -> OneTyping (click descs k st).
Proof.
  intros H. unfold click. destruct (nth_error (items st) k) as [it|]; [|exact H].
  set (st1 := set_items _ st).
  assert (H1 : OneTyping st1) by (apply (OneTyping_same st); auto).
  pose proof (typing_cleared st1 H1) as C.
  destruct (negb (center it)).
  - apply OneTyping_typeChar.
    unfold typing in *. simpl. exact C.
  - left. unfold typing in *. simpl. exact C.
Qed.

Lemma OneTyping_step rm descs st e : OneTyping st -> OneTyping (step rm descs st e).
Proof.
  intros H. destruct e as [entries|k|id|]; simpl.
  - revert st H. induction entries as [|e es IH]; intros st H; simpl; [exact H|].
    apply IH. unfold revealEntry. destruct e; [|exact H].
    destruct (negb rm); [apply OneTyping_animateSkills, H|].
    apply (OneTyping_same st); auto.
  - apply OneTyping_click, H.
  - apply OneTyping_fire, H.
  - left. apply typing_cleared, H.
Qed.

(** The skills box keeps the first half of the claim on every run of the
    module: at most one typing timeout is pending, and it is the one
    [typingTimeout] names. *)
Lemma skills_one_typing_timeout rm descs n evs :
  let st := run rm descs evs (boot n) in
  List.length (typing st) <= 1 /\
  (forall r, In r (typing st) -> typingTimeout st = Some (fst r)).
Proof.
  intros st.
  assert (H : OneTyping st).
  { subst st. assert (B : OneTyping (boot n)) by now left.
    revert B. generalize (boot n).
    induction evs as [|e evs IH]; intros s Hs; simpl; [exact Hs|].
    apply IH, OneTyping_step, Hs. }
  destruct H as [N|(id & ms & d & i & N & K)]; rewrite N; simpl.
  - split; [lia | intros r []].
  - split; [lia | intros r [<-|[]]; exact K].
Qed.

(** *** What the box shows when animateSkills stays out of the way *)

Lemma nth_known (descs : list (option string)) k d :
  nth k descs None = Some d -> In (Some d) descs.
Proof.
  revert k. induction descs as [|x l IH]; intros [|k]; simpl; try discriminate.
  - intros ->. now left.
  - intros H. right. eauto.
Qed.

Lemma TypedPrefix_drop descs (g : positive * (nat * Timer) -> bool) st st' :
  typing st' = filter g (typing st) -> typingTimeout st' = typingTimeout st ->
  boxText st' = boxText st ->
  TypedPrefix descs st -> TypedPrefix descs st'.
Proof.
  intros E T B [[N P]|(id & ms & d & i & N & K & Kd & P)];
    unfold TypedPrefix; rewrite E, N, T, B; simpl.
  - left. auto.
  - destruct (g _); [right; exists id, ms, d, i; auto | left; eauto].
Qed.

Lemma TypedPrefix_same descs st st' :
  typing st' = typing st -> typingTimeout st' = typingTimeout st ->
  boxText st' = boxText st ->
  TypedPrefix descs st -> TypedPrefix descs st'.
Proof.
  intros E T B H. apply (TypedPrefix_drop descs (fun _ => true) st st'); auto.
  rewrite E. clear. induction (typing st) as [|r l IH]; simpl; congruence.
Qed.

Lemma TypedPrefix_typeChar descs d i st :
  typing st = [] -> known descs d -> boxText st = Js.substring0 i d ->
  TypedPrefix descs (typeChar d i st).
Proof.
  intros N K B. unfold typeChar. destruct (i <? Js.length d) eqn:C.
  - right. exists (nextTimer st), 40, d, (S i).
    unfold typing in *; simpl. rewrite filter_app, N, B.
    apply Nat.ltb_lt in C. rewrite (substring0_S d i C). auto.
  - left. split; [exact N|]. eauto.
Qed.

Lemma TypedPrefix_OneTyping descs st : TypedPrefix descs st -> OneTyping st.
Proof.
  intros [[N _]|(id & ms & d & i & N & K & _)]; [now left|].
  right. eauto 6.
Qed.

Lemma TypedPrefix_step rm descs st e :
  quiet rm e = true -> TypedPrefix descs st -> TypedPrefix descs (step rm descs st e).
Proof.
  intros Q H. destruct e as [entries|k|id|]; simpl in *.
  - revert st H. induction entries as [|e es IH]; intros st H; simpl; [exact H|].
    assert (Q' : rm || forallb negb es = true).
    { destruct rm; [reflexivity|]. simpl in *. apply andb_true_iff in Q. apply Q. }
    apply (IH Q'). unfold revealEntry. destruct e; [|exact H].
    destruct rm; simpl in *; [|discriminate].
    apply (TypedPrefix_same descs st); auto.
  - unfold click. destruct (nth_error (items st) k) as [it|]; [|exact H].
    set (st1 := set_items _ st).
    assert (H1 : OneTyping st1).
    { apply (OneTyping_same st); auto. apply (TypedPrefix_OneTyping descs), H. }
    pose proof (typing_cleared st1 H1) as C.
    destruct (negb (center it)).
    + apply TypedPrefix_typeChar.
      * unfold typing in *. simpl. exact C.
      * destruct (nth k descs None) as [d|] eqn:D; [|now left].
        right. now apply (nth_known descs k).
      * reflexivity.
    + left. split; [unfold typing in *; simpl; exact C|].
      exists ""%string, 0. split; [now left | reflexivity].
  - unfold fire.
    destruct (find _ (timers st)) as [[id' [ms cb]]|] eqn:F; [|exact H].
    apply find_some in F. destruct F as [Hin Heq]. simpl in Heq.
    apply Pos.eqb_eq in Heq. subst id'.
    set (st0 := mkState _ _ _ _ _ _ _ _).
    assert (T0 : typing st0 = filter (fun r => negb (Pos.eqb (fst r) id)) (typing st)).
    { unfold typing, st0; simpl. apply typing_filter_id. }
    assert (H0 : TypedPrefix descs st0).
    { apply (TypedPrefix_drop descs _ st st0 T0); [reflexivity | reflexivity | exact H]. }
    destruct cb; simpl.
    + apply (TypedPrefix_same descs st0); auto.
    + apply (TypedPrefix_same descs st0); auto.
    + destruct (stagger_typing 0 (List.length (items st0)) st0) as (E1 & E2 & E3).
      apply (TypedPrefix_same descs st0); auto.
    + apply (TypedPrefix_same descs st0); auto.
    + assert (Hty : In (id, (ms, TypeChar desc i)) (typing st)).
      { unfold typing. apply filter_In. split; [exact Hin | reflexivity]. }
      destruct H as [[N _]|(id1 & ms1 & d1 & i1 & N & K & Kd & P)];
        rewrite N in *; [destruct Hty|].
      destruct Hty as [[= -> -> -> ->]|[]].
      apply TypedPrefix_typeChar; [|exact Kd | exact P].
      rewrite T0. simpl. now rewrite Pos.eqb_refl.
  - left. split; [apply typing_cleared, (TypedPrefix_OneTyping descs), H|].
    destruct H as [[_ P]|(id & ms & d & i & _ & _ & Kd & P)].
    + unfold clearTypingTimeout. destruct (typingTimeout st); exact P.
    + exists d, i. split; [exact Kd|].
      unfold clearTypingTimeout. destruct (typingTimeout st); exact P.
Qed.

(** As long as no observer entry runs animateSkills (reduced motion, or no
    intersecting report), the skills box does show a prefix of one
    description at every moment. *)
Lemma skills_box_shows_prefix rm descs n evs :
  forallb (quiet rm) evs = true ->
  exists d, known descs d /\ Js.prefix (boxText (run rm descs evs (boot n))) d.
Proof.
  intros Q.
  assert (H : TypedPrefix descs (run rm descs evs (boot n))).
  { assert (B : TypedPrefix descs (boot n)).
    { left. split; [reflexivity|]. exists ""%string, 0. split; [now left | reflexivity]. }
    revert B. generalize (boot n). revert Q.
    induction evs as [|e evs IH]; intros Q s Hs; simpl; [exact Hs|].
    simpl in Q. apply andb_true_iff in Q. destruct Q as [Q1 Q2].
    apply (IH Q2), TypedPrefix_step; assumption. }
  destruct H as [[_ (d & k & Kd & P)]|(id & ms & d & i & _ & _ & Kd & P)];
    exists d; (split; [exact Kd|]); eexists; exact P.
Qed.

End SkillsClaims.

(* --------------------------------------------------------------------- *)
(** ** Contact form *)
(* --------------------------------------------------------------------- *)

Section ContactClaims.
Import Contact.

Lemma awaiting_after_submit form st :
  existsb (Pos.eqb (nextId st)) (awaiting (submit form st)) = true.
Proof.
  simpl. rewrite existsb_app. simpl. rewrite Pos.eqb_refl.
  now rewrite orb_true_r.
Qed.

(** C7.  One submit, from any state of the form: the handler prevents the
    default, shows the sending status and makes one fetch of the form's
    action with the current fields.  When that fetch settles:
    - response ok: success status, fields back to their defaults, and a
      timeout is queued that empties the status when it fires;
    - response not ok: the failure status, fields as they were, no timeout;
    - rejection: the network-error status (a text of its own), fields as
      they were;
    and in every case the page has made exactly one more fetch than before
    the submit. *)
Theorem submit_outcomes (form : Form) (st : State) :
  let s1 := submit form st in
  let id := nextId st in
  (prevented s1 = S (prevented st) /\
   status s1 = SENDING /\
   sent s1 = sent st ++ [mkRequest (action form) (method form) (fields st)
                                   "application/json"]) /\
  (let s2 := settle id (Responded true) s1 in
   status s2 = SUCCESS /\
   fields s2 = defaults st /\
   clearTimers s2 = clearTimers st ++ [nextId s1] /\
   status (clearStatus (nextId s1) s2) = ""%string /\
   List.length (sent s2) = S (List.length (sent st))) /\
  (let s2 := settle id (Responded false) s1 in
   status s2 = FAILURE /\
   fields s2 = fields st /\
   clearTimers s2 = clearTimers st /\
   List.length (sent s2) = S (List.length (sent st))) /\
  (let s2 := settle id Rejected s1 in
   status s2 = NETWORK_ERROR /\
   fields s2 = fields st /\
   clearTimers s2 = clearTimers st /\
   List.length (sent s2) = S (List.length (sent st))) /\
  NETWORK_ERROR <> FAILURE /\ NETWORK_ERROR <> SUCCESS /\ FAILURE <> SUCCESS.
Proof.
  intros s1 id.
  assert (L : List.length (sent s1) = S (List.length (sent st))).
  { subst s1. simpl. rewrite length_app. simpl. lia. }
  split; [repeat split|].
  unfold settle. subst s1 id. rewrite awaiting_after_submit.
  split; [|split; [|split]].
  - cbn -[existsb]. repeat split; try exact L.
    unfold clearStatus. cbn -[existsb Pos.eqb].
    rewrite existsb_app. simpl. rewrite Pos.eqb_refl.
    now rewrite orb_true_r.
  - cbn. repeat split; exact L.
  - cbn. repeat split; exact L.
  - repeat split; discriminate.
Qed.

(** The fields are read when the handler starts and reset only on success:
    what the user types while the request is in flight survives a failure. *)
Lemma failure_keeps_later_input form st values o :
  o <> Responded true ->
  fields (settle (nextId st) o (input values (submit form st))) = values.
Proof.
  intros N. unfold settle.
  change (awaiting (input values (submit form st))) with (awaiting (submit form st)).
  rewrite awaiting_after_submit.
  destruct o as [[|]|]; [congruence | reflexivity | reflexivity].
Qed.

End ContactClaims.

(* --------------------------------------------------------------------- *)
(** ** Particle and wheel layers *)
(* --------------------------------------------------------------------- *)

Section LayerClaims.
Import Layers.
Local Open Scope Q_scope.

Lemma times_all {A : Type} (P : A -> Prop) (make : Rand A) (rnd : nat -> Q) :
  (forall n, P (fst (make rnd n))) ->
  forall k n a, In a (fst (times k make rnd n)) -> P a.
Proof.
  intros Hmake k. induction k as [|k IH]; intros n a; simpl.
  - intros [].
  - unfold bind, ret. specialize (Hmake n).
    destruct (make rnd n) as [a0 n1]. specialize (IH n1).
    destruct (times k make rnd n1) as [rest n2]. simpl in *.
    intros [<-|Hin]; auto.
Qed.

Lemma times_length {A : Type} (make : Rand A) (rnd : nat -> Q) k n :
  List.length (fst (times k make rnd n)) = k.
Proof.
  revert n. induction k as [|k IH]; intros n; simpl; [reflexivity|].
  unfold bind, ret. destruct (make rnd n) as [a0 n1]. specialize (IH n1).
  destruct (times k make rnd n1) as [rest n2]. simpl in *. now rewrite IH.
Qed.

(** [Math.random() * w] lies in [0, w) when [w] is positive. *)
Lemma scaled r w : 0 <= r /\ r < 1 -> 0 < w -> 0 <= r * w /\ r * w < w.
Proof. intros [H0 H1] Hw. split; nra. Qed.

Lemma Qmax_100 x : 100 <= Qmax 100 x /\ (100 <= x + 100 -> Qmax 100 x <= x + 100).
Proof.
  unfold Qmax. destruct (Qle_bool 100 x) eqn:E.
  - apply Qle_bool_iff in E. split; lra.
  - split; [lra|]. intros; lra.
Qed.

Lemma Dust_reset_inside c rnd n :
  unit_interval rnd -> 0 < width c -> 0 < height c ->
  let d := fst (Dust_reset c rnd n) in
  inside (dust_x d) (dust_y d) (width c) (height c).
Proof.
  intros U W H. simpl. unfold inside.
  destruct (scaled _ _ (U n) W), (scaled _ _ (U (S n)) H). auto.
Qed.

Lemma CarParticle_reset_inside c rnd n :
  unit_interval rnd -> 0 < width c -> 0 < height c ->
  let k := fst (CarParticle_reset c rnd n) in
  inside (car_x k) (car_y k) (width c) (height c).
Proof.
  intros U W H. simpl. unfold inside.
  destruct (scaled _ _ (U n) W), (scaled _ _ (U (S n)) H). auto.
Qed.

Lemma newWheel_inside w h rnd n :
  unit_interval rnd ->
  let o := fst (newWheel w h rnd n) in
  inside (wheel_x o) (wheel_y o) (Qmax 100 (w - 100)) (Qmax 100 (h - 100)).
Proof.
  intros U. simpl. unfold inside.
  destruct (Qmax_100 (w - 100)) as [Lw _], (Qmax_100 (h - 100)) as [Lh _].
  assert (Pw : 0 < Qmax 100 (w - 100)) by lra.
  assert (Ph : 0 < Qmax 100 (h - 100)) by lra.
  destruct (scaled _ _ (U n) Pw), (scaled _ _ (U (S n)) Ph). auto.
Qed.

(** C8, the claim as stated fails for the wheel layer: in a section 50
    pixels wide, with Math.random returning 0.9, initWheels puts the first
    wheel at x = 90, outside [0, 50). *)
Lemma narrow_section_wheel_outside :
  let rnd := fun _ : nat => 9#10 in
  let o := hd (mkWheel 0 0 0 0 0 0 0) (fst (initWheels false 50 300 rnd 0%nat)) in
  unit_interval rnd /\
  wheel_x o == 90 /\
  ~ inside (wheel_x o) (wheel_y o) 50 300.
Proof.
  split; [|split].
  - intros n. split; [discriminate | reflexivity].
  - reflexivity.
  - intros (_ & H & _). vm_compute in H. discriminate.
Qed.

(** C8 as amended.  With Math.random in [0, 1):
    - contact particles: after the resize listener has run [setSize(); init()],
      if the new canvas has positive width and height, every dust particle
      and every car has 0 <= x < width and 0 <= y < height;
    - wheels: after initWheels on a section of size [w] by [h], every wheel
      has 0 <= x < max(100, w - 100) and 0 <= y < max(100, h - 100), which
      is inside the section when [w] and [h] are at least 100. *)
Theorem reinit_positions (lowPerf : bool) (rnd : nat -> Q) (n : nat) :
  unit_interval rnd ->
  (forall v : Viewport,
     let p := fst (onResize lowPerf v rnd n) in
     canvas p = setSize v /\
     List.length (dust p) = numDust lowPerf /\
     List.length (cars p) = numCars lowPerf /\
     (0 < width (canvas p) -> 0 < height (canvas p) ->
      (forall d, In d (dust p) ->
         inside (dust_x d) (dust_y d) (width (canvas p)) (height (canvas p))) /\
      (forall k, In k (cars p) ->
         inside (car_x k) (car_y k) (width (canvas p)) (height (canvas p))))) /\
  (forall w h : Q,
     let l := fst (initWheels lowPerf w h rnd n) in
     List.length l = wheelCount lowPerf /\
     forall o, In o l ->
       inside (wheel_x o) (wheel_y o) (Qmax 100 (w - 100)) (Qmax 100 (h - 100)) /\
       (100 <= w -> 100 <= h -> inside (wheel_x o) (wheel_y o) w h)).
Proof.
  intros U. split.
  - intros v. unfold onResize, init, bind, ret. simpl.
    pose proof (times_length (Dust_reset (setSize v)) rnd (numDust lowPerf) n) as Ld.
    pose proof (times_all
                  (fun d => 0 < width (setSize v) -> 0 < height (setSize v) ->
                            inside (dust_x d) (dust_y d)
                                   (width (setSize v)) (height (setSize v)))
                  (Dust_reset (setSize v)) rnd
                  (fun m W H => Dust_reset_inside (setSize v) rnd m U W H)
                  (numDust lowPerf) n) as Pd.
    destruct (times (numDust lowPerf) (Dust_reset (setSize v)) rnd n) as [ds n1].
    pose proof (times_length (CarParticle_reset (setSize v)) rnd (numCars lowPerf) n1) as Lc.
    pose proof (times_all
                  (fun k => 0 < width (setSize v) -> 0 < height (setSize v) ->
                            inside (car_x k) (car_y k)
                                   (width (setSize v)) (height (setSize v)))
                  (CarParticle_reset (setSize v)) rnd
                  (fun m W H => CarParticle_reset_inside (setSize v) rnd m U W H)
                  (numCars lowPerf) n1) as Pc.
    destruct (times (numCars lowPerf) (CarParticle_reset (setSize v)) rnd n1) as [cs n2].
    simpl in *. split; [reflexivity|]. split; [exact Ld|]. split; [exact Lc|].
    intros W H. split; intros x Hx; [apply Pd | apply Pc]; assumption.
  - intros w h l. subst l. unfold initWheels. split; [apply times_length|].
    intros o Hin.
    assert (I : inside (wheel_x o) (wheel_y o) (Qmax 100 (w - 100)) (Qmax 100 (h - 100))).
    { revert Hin. apply (times_all (fun o => inside (wheel_x o) (wheel_y o) _ _)).
      intros m. apply newWheel_inside, U. }
    split; [exact I|]. intros Hw Hh.
    destruct I as (X0 & X1 & Y0 & Y1).
    destruct (Qmax_100 (w - 100)) as [_ Bw], (Qmax_100 (h - 100)) as [_ Bh].
    unfold inside. repeat split; try assumption.
    + assert (Qmax 100 (w - 100) <= w - 100 + 100) by (apply Bw; lra). lra.
    + assert (Qmax 100 (h - 100) <= h - 100 + 100) by (apply Bh; lra). lra.
Qed.

Lemma reinit_positions_witness :
  let rnd := fun _ : nat => 1#2 in
  let o := hd (mkWheel 0 0 0 0 0 0 0) (fst (initWheels false 800 600 rnd 0%nat)) in
  unit_interval rnd /\ inside (wheel_x o) (wheel_y o) 800 600.
Proof.
  assert (U : unit_interval (fun _ : nat => 1#2)).
  { intros n. split; [discriminate | reflexivity]. }
  split; [exact U|].
  destruct (reinit_positions false (fun _ : nat => 1#2) 0%nat U) as [_ H].
  destruct (H 800 600) as [_ H'].
  apply H'; [simpl; auto | discriminate | discriminate].
Defined.

End LayerClaims.

(* --------------------------------------------------------------------- *)
(** ** Animation-frame loops: reduced motion and the registry *)
(* --------------------------------------------------------------------- *)

Section PageMore.
Import Page PageInv.

Local Arguments pendingQ : simpl never.

Lemma pendingQ_dequeue_nil cb id q :
  pendingQ cb q = [] -> pendingQ cb (dequeue id q) = [].
Proof.
  intros H. unfold dequeue.
  now rewrite (pendingQ_ids (fun x => negb (Pos.eqb x id))), H.
Qed.

Lemma pendingQ_stop_nil cb stack q :
  pendingQ cb q = [] -> pendingQ cb (stopRafs_loop stack q) = [].
Proof.
  intros H. rewrite stopRafs_loop_filter.
  now rewrite (pendingQ_ids (fun x => negb (existsb (Pos.eqb x) stack))), H.
Qed.

Lemma pendingQ_snoc_nil cb cb' id q :
  cb' <> cb -> pendingQ cb q = [] -> pendingQ cb (q ++ [(id, cb')]) = [].
Proof.
  intros N H. rewrite pendingQ_app, H. unfold pendingQ. simpl.
  destruct cb, cb'; simpl; congruence.
Qed.

Ltac unpainted :=
  unfold Unpainted, pending in *; simpl in *;
  repeat match goal with
         | H : _ /\ _ |- _ => destruct H
         end;
  repeat split;
  try assumption; try reflexivity;
  try (apply pendingQ_dequeue_nil; assumption);
  try (apply pendingQ_stop_nil; assumption);
  try (apply pendingQ_snoc_nil; [discriminate | assumption]);
  try (apply pendingQ_snoc_nil; [discriminate|]; apply pendingQ_dequeue_nil; assumption).

Lemma Unpainted_sparkleEntry lp st e :
  Unpainted st -> Unpainted (sparkleEntry true lp st e).
Proof.
  intros H. unfold sparkleEntry. rewrite andb_false_r. simpl.
  destruct (sparkleRafId (sparkle st)) as [id|]; [|unpainted].
  destruct e; simpl; unpainted.
Qed.

Lemma Unpainted_cancelWheels st : Unpainted st -> Unpainted (cancelWheels st).
Proof.
  intros H. unfold cancelWheels.
  destruct (wheelsRafId (projects st)); unpainted.
Qed.

Lemma Unpainted_animateWheels st : Unpainted st -> Unpainted (animateWheels st).
Proof. intros H. unfold animateWheels. unpainted. Qed.

Lemma Unpainted_fold (f : State -> bool -> State) :
  (forall st e, Unpainted st -> Unpainted (f st e)) ->
  forall entries st, Unpainted st -> Unpainted (fold_left f entries st).
Proof.
  intros Hf entries. induction entries as [|e es IH]; intros st H; simpl; auto.
Qed.

Lemma Unpainted_step lp st e :
  Unpainted st -> Unpainted (step true lp st e).
Proof.
  intros H. destruct e as [es| |es| |es| | |id| |]; simpl.
  - apply Unpainted_fold; [|exact H]. intros. now apply Unpainted_sparkleEntry.
  - unpainted.
  - apply Unpainted_fold; [|exact H]. intros s e' Hs.
    unfold particlesEntry. rewrite andb_false_r. unpainted.
  - unpainted.
  - apply Unpainted_fold; [|exact H]. intros s e' Hs.
    unfold wheelsEntry. rewrite andb_false_r. now apply Unpainted_cancelWheels.
  - unfold wheelsResize. apply Unpainted_animateWheels.
    assert (C : Unpainted (cancelWheels st)) by now apply Unpainted_cancelWheels.
    revert C. generalize (cancelWheels st). intros s C. unpainted.
  - unfold initCarPosition. unpainted.
  - unfold frame. destruct (pendingCallback id st) as [cb|] eqn:F; [|exact H].
    destruct cb; simpl.
    + apply pendingCallback_In in F. destruct H as (P & _). rewrite P in F. destruct F.
    + apply pendingCallback_In in F. destruct H as (_ & P & _). rewrite P in F. destruct F.
    + apply Unpainted_animateWheels. unpainted.
    + unpainted.
  - unpainted.
  - unpainted.
Qed.

(** Reduced motion keeps both canvases blank for the life of the page: no
    sparkle or particle frame is ever requested, no drawing body ever runs
    and both bitmaps stay empty, whatever the observers, the resize
    listeners and the frames do.  The wheels are another matter: their
    resize listener starts the loop without asking for the preference. *)
Theorem reduced_motion_keeps_canvases_blank (lp : bool) (evs : list Event) :
  let s := run true lp evs (boot true lp) in
  pending DrawSparkles s = [] /\ pending ParticlesLoop s = [] /\
  sparkleBodies (sparkle s) = 0 /\ particleBodies (particles s) = 0 /\
  sparkleCanvas (sparkle s) = 0 /\ particlesCanvas (particles s) = 0 /\
  pending AnimateWheels (step true lp s WheelsResize) <> [].
Proof.
  intros s.
  assert (H : Unpainted s).
  { subst s. assert (B : Unpainted (boot true lp)).
    { unfold boot, loop. rewrite orb_true_r. repeat split. }
    revert B. generalize (boot true lp).
    induction evs as [|e evs IH]; intros st Hs; simpl; [exact Hs|].
    apply IH, Unpainted_step, Hs. }
  destruct H as (A & B & C & D & E & F). repeat split; auto.
  simpl. unfold wheelsResize, animateWheels, pending. simpl.
  rewrite pendingQ_app. unfold pendingQ at 2. simpl.
  intros N. apply app_eq_nil in N. destruct N as [_ N]. discriminate N.
Qed.

(** *** The registry between teardowns *)

Lemma Distinct_effect st st' : effect st st' -> Distinct st -> Distinct st'.
Proof.
  induction 1 as [st st' N Q R|id st st' N Q R|cb st st' N Q R|st st' N Q R
                 |st st' N Q R|a b c _ IH1 _ IH2];
    intros HD; [.. | now apply IH2, IH1]; destruct HD as [D1 D2];
    unfold Distinct; rewrite N, R; split; auto.
  - apply NoDup_app; [exact D1 | repeat constructor; intros [] |].
    intros x Hx [<-|[]]. specialize (D2 _ Hx). lia.
  - intros x Hx. apply in_app_iff in Hx.
    destruct Hx as [Hx|[<-|[]]]; [specialize (D2 _ Hx)|]; lia.
  - intros x Hx. specialize (D2 _ Hx). lia.
  - constructor.
  - intros x [].
Qed.

(** The registry never holds a handle twice, so teardown cancels each
    registered handle exactly once. *)
Theorem registry_holds_each_handle_once (rm lp : bool) (evs : list Event) :
  NoDup (_rafIds (run rm lp evs (boot rm lp))).
Proof.
  assert (B : Distinct (boot rm lp)).
  { apply (Distinct_effect (setSize (resizeCanvas (initCarPosition blank))));
      [apply effect_loop|].
    split; simpl; [constructor | intros x []]. }
  apply (Distinct_effect _ _ (effect_run rm lp evs (boot rm lp)) B).
Qed.

Ltac counted :=
  unfold Counted, bodies in *; simpl in *; rewrite ?length_app; simpl; lia.

Lemma Counted_drawSparkles rm lp st : Counted st -> Counted (drawSparkles rm lp st).
Proof. intros H. unfold drawSparkles. destruct (negb _ || rm); counted. Qed.

Lemma Counted_loop rm lp st : Counted st -> Counted (loop rm lp st).
Proof. intros H. unfold loop. destruct (negb _ || rm); counted. Qed.

Lemma Counted_animateWheels st : Counted st -> Counted (animateWheels st).
Proof. intros H. unfold animateWheels. counted. Qed.

Lemma Counted_cancelWheels st : Counted st -> Counted (cancelWheels st).
Proof. intros H. unfold cancelWheels. destruct (wheelsRafId (projects st)); counted. Qed.

Lemma Counted_sparkleEntry rm lp st e : Counted st -> Counted (sparkleEntry rm lp st e).
Proof.
  intros H. unfold sparkleEntry.
  match goal with
  | |- Counted (match sparkleRafId (sparkle ?s2) with _ => _ end) =>
      assert (C : Counted s2); [|generalize dependent s2]
  end.
  { destruct (_ && _); [apply Counted_drawSparkles|]; counted. }
  intros s2 C. destruct (sparkleRafId (sparkle s2)); [|exact C].
  destruct (negb (sparkleActive (sparkle s2))); [|exact C]. counted.
Qed.

Lemma Counted_fold (f : State -> bool -> State) :
  (forall st e, Counted st -> Counted (f st e)) ->
  forall entries st, Counted st -> Counted (fold_left f entries st).
Proof.
  intros Hf entries. induction entries as [|e es IH]; intros st H; simpl; auto.
Qed.

Lemma Counted_step rm lp st e :
  isTeardown e = false -> Counted st -> Counted (step rm lp st e).
Proof.
  intros T H. destruct e as [es| |es| |es| | |id| |]; simpl; try discriminate T.
  - apply Counted_fold; [|exact H]. intros. now apply Counted_sparkleEntry.
  - counted.
  - apply Counted_fold; [|exact H]. intros s e' Hs. unfold particlesEntry.
    destruct (e' && negb rm); [apply Counted_loop|]; counted.
  - counted.
  - apply Counted_fold; [|exact H]. intros s e' Hs. unfold wheelsEntry.
    destruct (e' && negb rm); [apply Counted_animateWheels; counted|].
    now apply Counted_cancelWheels.
  - unfold wheelsResize. apply Counted_animateWheels.
    assert (C : Counted (cancelWheels st)) by now apply Counted_cancelWheels.
    revert C. generalize (cancelWheels st). intros s C. counted.
  - unfold initCarPosition. counted.
  - unfold frame. destruct (pendingCallback id st) as [cb|]; [|exact H].
    destruct cb; simpl.
    + apply Counted_drawSparkles. counted.
    + apply Counted_loop. counted.
    + apply Counted_animateWheels. counted.
    + counted.
Qed.

(** Nothing but teardown ever takes a handle out of the registry: as long
    as the page has seen neither pagehide nor beforeunload, [_rafIds] holds
    one handle for every frame any of the three loops has drawn, fired and
    cancelled ones included. *)
Theorem registry_grows_with_every_frame (rm lp : bool) (evs : list Event) :
  forallb (fun e => negb (isTeardown e)) evs = true ->
  let s := run rm lp evs (boot rm lp) in
  List.length (_rafIds s)
  = sparkleBodies (sparkle s) + particleBodies (particles s)
    + wheelBodies (projects s).
Proof.
  intros T s. change (Counted s). subst s.
  assert (B : Counted (boot rm lp)).
  { unfold boot. apply Counted_loop. reflexivity. }
  revert B T. generalize (boot rm lp).
  induction evs as [|e evs IH]; intros st Hs T; simpl; [exact Hs|].
  simpl in T. apply andb_true_iff in T. destruct T as [T1 T2].
  apply IH; [|exact T2]. apply Counted_step; [|exact Hs].
  now apply negb_true_iff.
Qed.

Lemma registry_grows_with_every_frame_witness :
  List.length (_rafIds (run false false [Frame 2; Frame 3; SparkleIntersect [true]]
                            (boot false false))) = 4.
Proof.
  exact (registry_grows_with_every_frame false false
           [Frame 2; Frame 3; SparkleIntersect [true]] eq_refl).
Defined.

End PageMore.

(* --------------------------------------------------------------------- *)
(** ** Roadmap: the car, the guard, the active class, a whole reveal *)
(* --------------------------------------------------------------------- *)

Section RoadmapMore.
Import Roadmap RoadmapInv.

Lemma round_mono (a b : Q) : (a <= b)%Q -> (round a <= round b)%Z.
Proof. intros H. unfold round. apply Qfloor_resp_le. lra. Qed.

Lemma Qmax_0_bounds (t m : Q) :
  (0 <= m)%Q -> (0 <= Qmax 0 (Qmin t m) /\ Qmax 0 (Qmin t m) <= m)%Q.
Proof.
  intros Hm. unfold Qmax, Qmin.
  destruct (Qle_bool t m) eqn:E1.
  - apply Qle_bool_iff in E1.
    destruct (Qle_bool 0 t) eqn:E2; [apply Qle_bool_iff in E2|]; split; lra.
  - destruct (Qle_bool 0 m) eqn:E2; [apply Qle_bool_iff in E2|]; split; lra.
Qed.

Lemma Qmax_0_nonneg (x : Q) : (0 <= Qmax 0 x)%Q.
Proof.
  unfold Qmax. destruct (Qle_bool 0 x) eqn:E; [apply Qle_bool_iff in E|]; lra.
Qed.

(** moveCarTo clamps: whatever the boxes of the pin, the road and the car,
    a move that starts puts the car at a pixel offset between 0 and the
    rounded free length of the track, max(0, clientWidth - carWidth), and
    takes the guard. *)
Theorem car_stays_on_track (dom : Dom) (p : nat) (pin : Pin) (st : State) :
  nth_error (pinEls dom) p = Some pin ->
  isMoving (car st) = false ->
  exists x : Z,
    translateX (car (moveCarTo dom p st)) = Some x /\
    (0 <= x <= round (Qmax 0 (roadClientWidth dom - carWidth dom)))%Z /\
    isMoving (car (moveCarTo dom p st)) = true /\
    transition (car (moveCarTo dom p st)) = eased.
Proof.
  intros N M. unfold moveCarTo. rewrite N, M. simpl.
  eexists. split; [reflexivity|].
  destruct (Qmax_0_bounds (centerOfPin dom pin - carWidth dom / 2)
              (Qmax 0 (roadClientWidth dom - carWidth dom))
              (Qmax_0_nonneg _)) as [L U].
  split; [|auto]. split.
  - change 0%Z with (round 0). now apply round_mono.
  - now apply round_mono.
Qed.

Lemma car_stays_on_track_witness :
  translateX (car (moveCarTo demoDom 4
                     (mkState 0 demoClasses (mkCar false "" None 0 0) None
                              (mkBox "" None false false) [] [] 1%positive)))
  = Some 870%Z.
Proof.
  destruct (car_stays_on_track demoDom 4 (mkPin (Some "Contact"%string) 880 40)
              (mkState 0 demoClasses (mkCar false "" None 0 0) None
                       (mkBox "" None false false) [] [] 1%positive)
              eq_refl eq_refl) as (x & E & _).
  reflexivity.
Defined.



(** *** The guard *)

Lemma car_clearTyping st : car (clearTyping st) = car st.
Proof. unfold clearTyping. destruct (typingInterval st); reflexivity. Qed.

Lemma car_tick id st : car (tick id st) = car st.
Proof.
  unfold tick. destruct (find _ (intervals st)) as [[k s]|]; [|reflexivity].
  destruct (data s) as [d|]; [|reflexivity].
  destruct (Js.length (text d) <=? S (i s)); simpl; [|reflexivity].
  now rewrite car_clearTyping.
Qed.

Lemma car_click_moving dom p st :
  isMoving (car st) = true -> car (click dom p st) = car st.
Proof.
  intros M. unfold click.
  destruct (nth_error (pinEls dom) p) as [pin|] eqn:N; [|reflexivity].
  destruct (Nat.eqb (activePin st) p); [reflexivity|].
  match goal with
  | |- car (showDescriptionForPin dom p ?s) = _ =>
      destruct (car_showDescriptionForPin dom p s) as (-> & _)
  end.
  unfold moveCarTo. rewrite N. simpl. now rewrite M.
Qed.

(** The guard is released by the transitionend event and by nothing else:
    while the car is marked moving and no transitionend arrives, it stays
    marked moving whatever happens (a dropped event leaves it stuck for
    good); and clicks, ticks, timeouts and pagehide in that time leave the
    car's style, guard and listener exactly as they are. *)
Theorem guard_waits_for_transitionend (dom : Dom) (evs : list Event) (st : State) :
  isMoving (car st) = true ->
  (forallb (fun e => negb (isTransitionEnd e)) evs = true ->
     isMoving (car (run dom evs st)) = true) /\
  (forallb (fun e => negb (touchesCar e)) evs = true ->
     car (run dom evs st) = car st).
Proof.
  revert st. induction evs as [|e evs IH]; intros st M; [simpl; auto|].
  simpl. split; intros F; apply andb_true_iff in F; destruct F as [F1 F2].
  - assert (M' : isMoving (car (step dom st e)) = true).
    { destruct e; simpl in *; try discriminate F1.
      - now rewrite car_click_moving.
      - now rewrite car_tick.
      - unfold showTimeout. destruct (existsb _ _); exact M.
      - exact M.
      - unfold animationFrame. destruct (pendingFrames (car st)); exact M.
      - now rewrite car_clearTyping. }
    apply (IH _ M'), F2.
  - assert (C : car (step dom st e) = car st).
    { destruct e; simpl in *; try discriminate F1.
      - now apply car_click_moving.
      - apply car_tick.
      - unfold showTimeout. destruct (existsb _ _); reflexivity.
      - apply car_clearTyping. }
    assert (M' : isMoving (car (step dom st e)) = true) by now rewrite C.
    destruct (IH _ M') as [_ H]. now rewrite (H F2).
Qed.

Lemma guard_waits_for_transitionend_witness :
  isMoving (car (run demoDom [Click 3; Tick 4; Resize; Click 0]
                     (click demoDom 1 (boot demoDom demoClasses)))) = true.
Proof.
  destruct (guard_waits_for_transitionend demoDom [Click 3; Tick 4; Resize; Click 0]
              (click demoDom 1 (boot demoDom demoClasses)) eq_refl) as [H _].
  exact (H eq_refl).
Defined.

Lemma Guarded_step dom st e : Guarded st -> Guarded (step dom st e).
Proof.
  unfold Guarded. intros G. destruct e as [p| |id|id| | |]; simpl.
  - unfold click. destruct (nth_error (pinEls dom) p) as [pin|] eqn:N; [|exact G].
    destruct (Nat.eqb (activePin st) p); [exact G|].
    match goal with
    | |- context [car (showDescriptionForPin dom p ?s)] =>
        destruct (car_showDescriptionForPin dom p s) as (-> & _)
    end.
    unfold moveCarTo. rewrite N. simpl.
    destruct (isMoving (car st)) eqn:M; simpl; [now rewrite M|].
    now rewrite G.
  - unfold transitionEnd.
    destruct (onEndListeners (car st)) eqn:L; [rewrite L; exact G | reflexivity].
  - now rewrite car_tick.
  - unfold showTimeout. destruct (existsb _ _); exact G.
  - exact G.
  - unfold animationFrame. destruct (pendingFrames (car st)); exact G.
  - now rewrite car_clearTyping.
Qed.

(** On every run of the module the guard and the listener go together:
    the car is marked moving exactly when one transitionend listener is
    registered on it, and never are two registered. *)
Theorem guard_has_one_listener (dom : Dom) (classes : list bool) (evs : list Event) :
  let s := run dom evs (boot dom classes) in
  onEndListeners (car s) = if isMoving (car s) then 1 else 0.
Proof.
  intros s. change (Guarded s). subst s.
  assert (B : Guarded (boot dom classes)).
  { unfold Guarded, boot.
    destruct (car_showDescriptionForPin dom 0 (initCarPosition dom (blank classes)))
      as (-> & _). reflexivity. }
  revert B. generalize (boot dom classes).
  induction evs as [|e evs IH]; intros st G; simpl; [exact G|].
  apply IH, Guarded_step, G.
Qed.

(** *** The active class *)

Lemma length_setNth k v l : List.length (setNth k v l) = List.length l.
Proof.
  revert k. induction l as [|x l IH]; intros [|k]; simpl; auto.
Qed.

Lemma nth_setNth k v l j :
  k < List.length l ->
  nth j (setNth k v l) false = if Nat.eqb j k then v else nth j l false.
Proof.
  revert k j. induction l as [|x l IH]; intros k j H; simpl in H; [lia|].
  destruct k as [|k], j as [|j]; simpl; try reflexivity.
  apply IH. lia.
Qed.

Lemma active_showDescriptionForPin dom p st :
  activePin (showDescriptionForPin dom p st) = activePin st /\
  activeClass (showDescriptionForPin dom p st) = activeClass st.
Proof. destruct (car_showDescriptionForPin dom p st) as (_ & A & B). auto. Qed.

Lemma active_clearTyping st :
  activePin (clearTyping st) = activePin st /\
  activeClass (clearTyping st) = activeClass st.
Proof. unfold clearTyping. destruct (typingInterval st); auto. Qed.

Lemma active_tick id st :
  activePin (tick id st) = activePin st /\ activeClass (tick id st) = activeClass st.
Proof.
  unfold tick. destruct (find _ (intervals st)) as [[k s]|]; [|auto].
  destruct (data s) as [d|]; [|auto].
  destruct (Js.length (text d) <=? S (i s)); simpl; [|auto].
  match goal with
  | |- activePin (clearTyping ?x) = _ /\ _ =>
      destruct (active_clearTyping x) as [-> ->]
  end. auto.
Qed.

Lemma OneActive_step dom st e :
  OneActive (List.length (pinEls dom)) st ->
  OneActive (List.length (pinEls dom)) (step dom st e).
Proof.
  intros (A & L & H). destruct e as [p| |id|id| | |]; simpl.
  - unfold click. destruct (nth_error (pinEls dom) p) as [pin|] eqn:N;
      [|repeat split; auto].
    assert (P : p < List.length (pinEls dom)).
    { apply nth_error_Some. rewrite N. discriminate. }
    destruct (Nat.eqb (activePin st) p) eqn:E; [repeat split; auto|].
    unfold OneActive.
    match goal with
    | |- context [activePin (showDescriptionForPin dom p ?s)] =>
        destruct (active_showDescriptionForPin dom p s) as [-> ->]
    end.
    unfold moveCarTo. rewrite N. simpl.
    assert (G : activePin
                  (if isMoving (car st)
                   then mkState p (setNth p true (setNth (activePin st) false (activeClass st)))
                                (car st) (typingInterval st) (box st) (intervals st)
                                (timeouts st) (nextTimer st)
                   else set_car (mkCar true eased
                                   (Some (round (Qmax 0 (Qmin (centerOfPin dom pin - carWidth dom / 2)
                                                   (Qmax 0 (roadClientWidth dom - carWidth dom))))))
                                   (S (onEndListeners (car st))) (pendingFrames (car st)))
                          (mkState p (setNth p true (setNth (activePin st) false (activeClass st)))
                                   (car st) (typingInterval st) (box st) (intervals st)
                                   (timeouts st) (nextTimer st))) = p
                /\ activeClass
                  (if isMoving (car st)
                   then mkState p (setNth p true (setNth (activePin st) false (activeClass st)))
                                (car st) (typingInterval st) (box st) (intervals st)
                                (timeouts st) (nextTimer st)
                   else set_car (mkCar true eased
                                   (Some (round (Qmax 0 (Qmin (centerOfPin dom pin - carWidth dom / 2)
                                                   (Qmax 0 (roadClientWidth dom - carWidth dom))))))
                                   (S (onEndListeners (car st))) (pendingFrames (car st)))
                          (mkState p (setNth p true (setNth (activePin st) false (activeClass st)))
                                   (car st) (typingInterval st) (box st) (intervals st)
                                   (timeouts st) (nextTimer st)))
                  = setNth p true (setNth (activePin st) false (activeClass st))).
    { destruct (isMoving (car st)); auto. }
    destruct G as [-> ->].
    split; [exact P|]. split; [now rewrite !length_setNth|].
    intros j J. rewrite nth_setNth by (rewrite length_setNth; lia).
    destruct (Nat.eqb j p) eqn:Ej; [reflexivity|].
    rewrite nth_setNth by lia.
    destruct (Nat.eqb j (activePin st)) eqn:Ea; [reflexivity|].
    rewrite (H j J). exact Ea.
  - unfold transitionEnd. destruct (onEndListeners (car st)); repeat split; auto.
  - unfold OneActive. destruct (active_tick id st) as [-> ->]. auto.
  - unfold showTimeout. destruct (existsb _ _); repeat split; auto.
  - repeat split; auto.
  - unfold animationFrame. destruct (pendingFrames (car st)); repeat split; auto.
  - unfold OneActive. destruct (active_clearTyping st) as [-> ->]. auto.
Qed.

(** If the markup marks the first pin active and no other, then on every
    run of the module class active sits on exactly one pin, the one the
    module holds as [activePin], and that pin is one of the page's pins. *)
Theorem active_class_marks_active_pin
  (dom : Dom) (classes : list bool) (evs : list Event) :
  0 < List.length (pinEls dom) ->
  List.length classes = List.length (pinEls dom) ->
  (forall j, j < List.length (pinEls dom) -> nth j classes false = Nat.eqb j 0) ->
  let s := run dom evs (boot dom classes) in
  activePin s < List.length (pinEls dom) /\
  forall j, j < List.length (pinEls dom) ->
    nth j (activeClass s) false = Nat.eqb j (activePin s).
Proof.
  intros P L H s.
  assert (O : OneActive (List.length (pinEls dom)) s).
  { subst s.
    assert (B : OneActive (List.length (pinEls dom)) (boot dom classes)).
    { unfold OneActive, boot.
      destruct (active_showDescriptionForPin dom 0 (initCarPosition dom (blank classes)))
        as [-> ->]. simpl. auto. }
    revert B. generalize (boot dom classes).
    induction evs as [|e evs IH]; intros st O; simpl; [exact O|].
    apply IH, OneActive_step, O. }
  destruct O as (A & _ & B). auto.
Qed.

Lemma active_class_marks_active_pin_witness :
  activeClass (run demoDom [Click 3; Click 3; Click 1] (boot demoDom demoClasses))
  = [false; true; false; false; false].
Proof.
  assert (H : forall j, j < 5 -> nth j demoClasses false = Nat.eqb j 0).
  { intros [|[|[|[|[|j]]]]] J; try reflexivity. simpl in J. lia. }
  destruct (active_class_marks_active_pin demoDom demoClasses
              [Click 3; Click 3; Click 1] (Nat.lt_0_succ 4) eq_refl H) as [_ K].
  reflexivity.
Defined.

(** *** A whole reveal *)

Local Arguments Js.substring0 : simpl never.
Local Arguments Js.length : simpl never.

Lemma table_texts_nonempty d : inTable d -> 0 < Js.length (text d).
Proof.
  intros [key H]. unfold DESCRIPTIONS in H. simpl in H.
  destruct H as [E|[E|[E|[E|[E|[]]]]]]; inversion E; subst; vm_compute; lia.
Qed.

(** Selecting a waypoint with an entry, from any state the module can be
    in, and letting its interval run once per character: whatever was in
    the box or was being typed before, the box then reads the whole
    description, a space and the link text, the link is the entry's, and
    no interval is left. *)
Theorem selecting_types_text_then_link
  (dom : Dom) (classes : list bool) (evs : list Event)
  (p : nat) (pin : Pin) (d : Description) :
  let st := run dom evs (boot dom classes) in
  nth_error (pinEls dom) p = Some pin ->
  DESCRIPTIONS_get (labelText pin) = Some (Own d) ->
  activePin st <> p ->
  let fin := ticks (Js.length (text d)) (click dom p st) in
  textContent (box fin) = (text d ++ " " ++ linkText (link d))%string /\
  descLink (box fin) = Some (link d) /\
  intervals fin = [] /\ typingInterval fin = None.
Proof.
  intros st.
  assert (O : OneSession st).
  { subst st. generalize (boot dom classes) (OneSession_boot dom classes).
    induction evs as [|e evs IH]; intros s Hs; simpl; [exact Hs|].
    apply IH, OneSession_step, Hs. }
  intros N G A fin.
  pose proof (table_texts_nonempty d (DESCRIPTIONS_get_inTable _ _ G)) as Len.
  destruct (Js.length (text d)) as [|n] eqn:E; [lia|].
  set (s0 := moveCarTo dom p
               (mkState p (setNth p true (setNth (activePin st) false (activeClass st)))
                        (car st) (typingInterval st) (box st) (intervals st)
                        (timeouts st) (nextTimer st))).
  assert (O0 : OneSession s0).
  { subst s0. unfold moveCarTo. rewrite N. simpl.
    destruct (isMoving (car st)); exact O. }
  assert (K : click dom p st = showDescriptionForPin dom p s0).
  { unfold click. rewrite N. apply Nat.eqb_neq in A. now rewrite A. }
  assert (S1 : exists id,
             intervals (click dom p st) = [(id, mkSession (Own d) 0)] /\
             typingInterval (click dom p st) = Some id).
  { rewrite K. unfold showDescriptionForPin. rewrite N, G. simpl.
    rewrite (cleared_intervals s0 O0). simpl. eauto. }
  destruct S1 as (id & I & T).
  assert (L : 0 + S n = Js.length (text d)) by (simpl; now rewrite E).
  destruct (session_completes n (click dom p st) id d 0 I T L) as (B & V & W).
  subst fin. rewrite B. unfold textContent. simpl. auto.
Qed.

Lemma selecting_types_text_then_link_witness :
  let fin := ticks 61 (click demoDom 1 (boot demoDom demoClasses)) in
  Js.length (descText (box fin)) = 61 /\ intervals fin = [] /\
  typingInterval fin = None.
Proof.
  split; [reflexivity|].
  destruct (selecting_types_text_then_link demoDom demoClasses [] 1
              (mkPin (Some "Skills"%string) 280 40)
              (snd (nth 1 DESCRIPTIONS (""%string, mkDescription "" (mkLink "" ""))))
              eq_refl eq_refl) as (_ & _ & H); [discriminate|].
  exact H.
Defined.

End RoadmapMore.

(* --------------------------------------------------------------------- *)
(** ** Skills: selecting, typing to the end, reduced motion *)
(* --------------------------------------------------------------------- *)

Section SkillsMore.
Import Skills SkillsRun.

(** *** Selecting a skill *)

Lemma centered_spec k (l : list Item) :
  forall j o,
  nth_error (centered k (map (fun x => mkItem (show x) false false) l)) j = Some o ->
  k < List.length l ->
  center o = Nat.eqb j k /\ fade o = negb (Nat.eqb j k).
Proof.
  revert k. induction l as [|x l IH]; intros k j o H K; simpl in K; [lia|].
  destruct k as [|k]; simpl in H.
  - destruct j as [|j]; simpl in H.
    + inversion H. auto.
    + rewrite map_map in H. simpl in H.
      apply nth_error_In, in_map_iff in H. destruct H as (y & <- & _). auto.
  - destruct j as [|j]; simpl in H.
    + inversion H. auto.
    + apply (IH k j o H). lia.
Qed.

Lemma show_centered k (l : list Item) :
  map show (centered k l) = map show l.
Proof.
  revert k. induction l as [|x l IH]; intros [|k]; simpl; try reflexivity.
  - f_equal. rewrite map_map. reflexivity.
  - f_equal. apply IH.
Qed.

Lemma items_typeChar d i st : items (typeChar d i st) = items st.
Proof. unfold typeChar. destruct (i <? Js.length d); reflexivity. Qed.

Lemma items_clearTypingTimeout st : items (clearTypingTimeout st) = items st.
Proof. unfold clearTypingTimeout. destruct (typingTimeout st); reflexivity. Qed.

(** Selecting a skill that is not centred centres it and fades every other
    one, leaving [show] alone; selecting it again takes both classes off
    every skill and empties the detail box. *)
Theorem click_centres_then_releases
  (descs : list (option string)) (k : nat) (it : Item) (st : State) :
  nth_error (items st) k = Some it -> center it = false ->
  let s1 := click descs k st in
  let s2 := click descs k s1 in
  (forall j o, nth_error (items s1) j = Some o ->
     center o = Nat.eqb j k /\ fade o = negb (Nat.eqb j k)) /\
  map show (items s1) = map show (items st) /\
  (forall o, In o (items s2) -> center o = false /\ fade o = false) /\
  map show (items s2) = map show (items st) /\
  boxText s2 = ""%string.
Proof.
  intros N C s1 s2.
  assert (K : k < List.length (items st)).
  { apply nth_error_Some. rewrite N. discriminate. }
  assert (I1 : items s1
               = centered k (map (fun x => mkItem (show x) false false) (items st))).
  { subst s1. unfold click. rewrite N, C. simpl.
    rewrite items_typeChar. simpl. now rewrite items_clearTypingTimeout. }
  assert (S1 : map show (items s1) = map show (items st)).
  { rewrite I1, show_centered, map_map. reflexivity. }
  assert (A : forall j o, nth_error (items s1) j = Some o ->
                center o = Nat.eqb j k /\ fade o = negb (Nat.eqb j k)).
  { intros j o H. rewrite I1 in H. now apply (centered_spec k (items st) j o H). }
  split; [exact A|]. split; [exact S1|].
  destruct (nth_error (items s1) k) as [it1|] eqn:N1.
  - destruct (A k it1 N1) as [C1 _]. rewrite Nat.eqb_refl in C1.
    assert (I2 : items s2 = map (fun x => mkItem (show x) false false) (items s1)
                 /\ boxText s2 = ""%string).
    { subst s2. unfold click. rewrite N1, C1. simpl.
      now rewrite items_clearTypingTimeout. }
    destruct I2 as [I2 B2]. rewrite I2. split; [|split; [|exact B2]].
    + intros o H. apply in_map_iff in H. destruct H as (x & <- & _). auto.
    + rewrite map_map. simpl. rewrite <- S1. reflexivity.
  - exfalso. apply nth_error_None in N1.
    assert (List.length (items s1) = List.length (items st)).
    { rewrite <- (length_map show (items s1)), S1. apply length_map. }
    lia.
Qed.

Lemma click_centres_then_releases_witness :
  map center (items (click demoDescs 1 (boot 3))) = [false; true; false] /\
  map fade (items (click demoDescs 1 (boot 3))) = [true; false; true] /\
  map center (items (click demoDescs 1 (click demoDescs 1 (boot 3))))
  = [false; false; false].
Proof.
  destruct (click_centres_then_releases demoDescs 1 (mkItem false false false) (boot 3)
              eq_refl eq_refl) as (_ & _ & _ & _ & H).
  repeat split.
Defined.

(** *** Reduced motion *)

Lemma showAll_twice st : showAll (showAll st) = showAll st.
Proof.
  unfold showAll, set_brackets, set_items. simpl. rewrite map_map. reflexivity.
Qed.

Lemma reveal_reduced entries st :
  fold_left (revealEntry true) entries st
  = if existsb (fun e : bool => e) entries then showAll st else st.
Proof.
  revert st. induction entries as [|e es IH]; intros st; [reflexivity|].
  simpl. rewrite IH. destruct e; simpl; [|reflexivity].
  destruct (existsb _ es); [apply showAll_twice | reflexivity].
Qed.

(** Under reduced motion the reveal can fire on every visibility change
    without harm: it queues no timeout, does not touch the detail box or a
    typing session, never runs animateSkills, and once a report has said
    "intersecting" every skill is shown and both brackets are open;
    reporting again changes nothing. *)
Theorem reduced_motion_reveal_repeats_harmlessly
  (descs : list (option string)) (entries : list bool) (st : State) :
  let s' := step true descs st (Reveal entries) in
  timers s' = timers st /\ typingTimeout s' = typingTimeout st /\
  boxText s' = boxText st /\ reveals s' = reveals st /\
  map center (items s') = map center (items st) /\
  (existsb (fun e : bool => e) entries = true ->
     (forall o, In o (items s') -> show o = true) /\
     leftOpen s' = true /\ rightOpen s' = true /\
     step true descs s' (Reveal entries) = s').
Proof.
  intros s'. subst s'. simpl. rewrite !reveal_reduced.
  destruct (existsb (fun e : bool => e) entries).
  - simpl. do 4 (split; [reflexivity|]).
    split; [rewrite map_map; reflexivity|]. intros _.
    split; [|split; [reflexivity|split; [reflexivity | apply showAll_twice]]].
    intros o Ho. apply in_map_iff in Ho. destruct Ho as (x & <- & _). reflexivity.
  - do 5 (split; [reflexivity|]). discriminate.
Qed.

Lemma reduced_motion_reveal_repeats_harmlessly_witness :
  map show (items (step true demoDescs (click demoDescs 0 (boot 3)) (Reveal [false; true])))
  = [true; true; true] /\
  boxText (step true demoDescs (click demoDescs 0 (boot 3)) (Reveal [false; true]))
  = "H"%string.
Proof.
  destruct (reduced_motion_reveal_repeats_harmlessly demoDescs [false; true]
              (click demoDescs 0 (boot 3))) as (_ & _ & B & _ & _ & H).
  destruct (H eq_refl) as (_ & _ & _ & _).
  split; [reflexivity | exact B].
Defined.

(** *** A typing session run to its end *)

Local Arguments Js.substring0 : simpl never.
Local Arguments Js.length : simpl never.
Local Arguments Js.charAt : simpl never.

Lemma Extends_refl st : Extends st st.
Proof. split; [lia | auto]. Qed.

Lemma Extends_trans a b c : Extends a b -> Extends b c -> Extends a c.
Proof.
  intros [N1 T1] [N2 T2]. split; [lia|].
  intros r H. destruct (T2 r H) as [H'|H']; [|right; lia].
  destruct (T1 r H') as [H''|H'']; [now left | right; lia].
Qed.

Lemma Extends_setTimeout cb ms st : Extends st (snd (setTimeout cb ms st)).
Proof.
  split; simpl; [lia|]. intros r H. apply in_app_iff in H.
  destruct H as [H|[<-|[]]]; [now left | right; simpl; lia].
Qed.

Lemma Extends_same st st' :
  nextTimer st' = nextTimer st -> (forall r, In r (timers st') -> In r (timers st)) ->
  Extends st st'.
Proof. intros N T. split; [lia | auto]. Qed.

Lemma Extends_typeChar d i st : Extends st (typeChar d i st).
Proof.
  unfold typeChar. destruct (i <? Js.length d); [|apply Extends_refl].
  split; simpl; [lia|]. intros r H. apply in_app_iff in H.
  destruct H as [H|[<-|[]]]; [now left | right; simpl; lia].
Qed.

Lemma Extends_animateSkills st : Extends st (animateSkills st).
Proof.
  split; simpl; [lia|]. intros r H.
  repeat (apply in_app_iff in H; destruct H as [H|H]); auto;
    destruct H as [<-|[]]; right; simpl; lia.
Qed.

Lemma Extends_stagger k n st : Extends st (stagger k n st).
Proof.
  revert k st. induction n as [|n IH]; intros k st; [apply Extends_refl|].
  change (stagger k (S n) st)
    with (stagger (S k) n (snd (setTimeout (ShowItem k) (k * 200) st))).
  eapply Extends_trans; [apply Extends_setTimeout | apply IH].
Qed.

Lemma Extends_clearTypingTimeout st : Extends st (clearTypingTimeout st).
Proof.
  unfold clearTypingTimeout. destruct (typingTimeout st); [|apply Extends_refl].
  apply Extends_same; [reflexivity|]. simpl. intros r H.
  apply filter_In in H. apply H.
Qed.

Lemma Extends_step rm descs st e : Extends st (step rm descs st e).
Proof.
  destruct e as [entries|k|id|]; simpl.
  - revert st. induction entries as [|e es IH]; intros st; [apply Extends_refl|].
    simpl. eapply Extends_trans; [|apply IH].
    unfold revealEntry. destruct e; [|apply Extends_refl].
    destruct (negb rm); [apply Extends_animateSkills|].
    now apply Extends_same.
  - unfold click. destruct (nth_error (items st) k) as [it|]; [|apply Extends_refl].
    assert (E : Extends st
                  (set_boxText ""
                     (clearTypingTimeout
                        (set_items (map (fun o => mkItem (show o) false false) (items st)) st)))).
    { apply (Extends_trans _ (set_items (map (fun o => mkItem (show o) false false) (items st)) st));
        [now apply Extends_same|].
      eapply Extends_trans; [apply Extends_clearTypingTimeout|]. now apply Extends_same. }
    destruct (negb (center it)); [|exact E].
    eapply Extends_trans; [exact E|].
    eapply Extends_trans; [|apply Extends_typeChar]. now apply Extends_same.
  - unfold fire. destruct (find _ (timers st)) as [[id' [ms cb]]|]; [|apply Extends_refl].
    eapply Extends_trans.
    + apply (Extends_same st (mkState (items st) (leftOpen st) (rightOpen st) (boxText st)
                                (typingTimeout st)
                                (filter (fun r => negb (Pos.eqb (fst r) id)) (timers st))
                                (nextTimer st) (reveals st))); [reflexivity|].
      simpl. intros r H. apply filter_In in H. apply H.
    + destruct cb; simpl.
      * now apply Extends_same.
      * now apply Extends_same.
      * apply Extends_stagger.
      * now apply Extends_same.
      * apply Extends_typeChar.
  - apply Extends_clearTypingTimeout.
Qed.

Lemma Fresh_Extends st st' : Extends st st' -> Fresh st -> Fresh st'.
Proof.
  intros [N T] F r H. destruct (T r H) as [H'|H']; [specialize (F r H')|]; lia.
Qed.

Lemma Fresh_run rm descs n evs : Fresh (run rm descs evs (boot n)).
Proof.
  assert (B : Fresh (boot n)) by (intros r []).
  revert B. generalize (boot n).
  induction evs as [|e evs IH]; intros st F; simpl; [exact F|].
  apply IH. exact (Fresh_Extends _ _ (Extends_step rm descs st e) F).
Qed.

Lemma OneTyping_run rm descs n evs : OneTyping (run rm descs evs (boot n)).
Proof.
  assert (B : OneTyping (boot n)) by now left.
  revert B. generalize (boot n).
  induction evs as [|e evs IH]; intros st F; simpl; [exact F|].
  apply IH, OneTyping_step, F.
Qed.

Lemma find_last_fresh id (x : nat * Timer) (old : list (positive * (nat * Timer))) :
  (forall r, In r old -> (fst r < id)%positive) ->
  find (fun r => Pos.eqb (fst r) id) (old ++ [(id, x)]) = Some (id, x) /\
  filter (fun r => negb (Pos.eqb (fst r) id)) (old ++ [(id, x)]) = old.
Proof.
  induction old as [|r old IH]; intros F; simpl.
  - rewrite Pos.eqb_refl. auto.
  - assert (E : Pos.eqb (fst r) id = false).
    { apply Pos.eqb_neq. specialize (F r (or_introl eq_refl)). lia. }
    rewrite E. simpl. destruct IH as [I1 I2]; [intros; apply F; now right|].
    rewrite I1, I2. auto.
Qed.

(** The session types on from character [i]: one timeout for each
    character still missing, and a last one that finds nothing to do. *)
Lemma typeOut_finishes d m : forall i st old id,
  i + m = Js.length d ->
  timers st = old ++ [(id, (40, TypeChar d i))] ->
  (forall r, In r old -> (fst r < id)%positive) ->
  nextTimer st = Pos.succ id -> typingTimeout st = Some id ->
  boxText st = Js.substring0 i d ->
  boxText (typeOut (S m) st) = d /\ timers (typeOut (S m) st) = old.
Proof.
  induction m as [|m IH]; intros i st old id L T F N K B;
    destruct st as [its lo ro bt tt tm nt rv]; simpl in T, N, K, B; subst tm nt tt bt;
    destruct (find_last_fresh id (40, TypeChar d i) old F) as [Ef Er].
  - simpl. unfold fire. simpl timers. rewrite Ef, Er. simpl.
    unfold typeChar. assert (C : (i <? Js.length d) = false) by (apply Nat.ltb_ge; lia).
    rewrite C. simpl. split; [apply substring0_all; lia | reflexivity].
  - change (typeOut (S (S m)) ?s)
      with (match typingTimeout s with Some k => typeOut (S m) (fire k s) | None => s end).
    cbn [typingTimeout]. unfold fire. simpl timers. rewrite Ef, Er.
    cbn [runTimer]. unfold typeChar.
    assert (C : (i <? Js.length d) = true) by (apply Nat.ltb_lt; lia).
    rewrite C. cbn -[typeOut].
    rewrite (substring0_S d i) by lia.
    match goal with
    | |- boxText (typeOut _ ?s) = _ /\ _ =>
        apply (IH (S i) s old (Pos.succ id)); simpl; auto; try lia
    end.
    intros r H. specialize (F r H). lia.
Qed.

(** Selecting a skill that is not centred, from any state the module can be
    in, and letting its typing timeouts fire, one per character: the detail
    box then reads the skill's whole [data-desc] and no typing timeout is
    left; what was in the box or was being typed before is gone. *)
Theorem typing_reaches_whole_description
  (rm : bool) (descs : list (option string)) (n : nat) (evs : list Event)
  (k : nat) (it : Item) (d : string) :
  let st := run rm descs evs (boot n) in
  nth_error (items st) k = Some it -> center it = false ->
  nth k descs None = Some d ->
  let fin := typeOut (Js.length d) (click descs k st) in
  boxText fin = d /\ typing fin = [].
Proof.
  intros st.
  pose proof (Fresh_run rm descs n evs) as F.
  pose proof (OneTyping_run rm descs n evs) as O.
  fold st in F, O. clearbody st.
  intros N C D fin. subst fin.
  set (s0 := set_boxText ""
               (clearTypingTimeout
                  (set_items (map (fun o => mkItem (show o) false false) (items st)) st))).
  assert (T0 : typing s0 = []).
  { subst s0. unfold typing. simpl.
    apply (typing_cleared (set_items _ st)).
    apply (OneTyping_same st); auto. }
  assert (F0 : Fresh s0).
  { apply (Fresh_Extends st); [|exact F]. subst s0.
    apply (Extends_trans _ (set_items (map (fun o => mkItem (show o) false false) (items st)) st));
      [now apply Extends_same|].
    eapply Extends_trans; [apply Extends_clearTypingTimeout|]. now apply Extends_same. }
  assert (K : click descs k st
              = typeChar d 0 (set_items (centered k (items s0)) s0)).
  { unfold click. rewrite N, C, D. reflexivity. }
  rewrite K. clear K.
  set (s1 := set_items (centered k (items s0)) s0).
  assert (B1 : boxText s1 = Js.substring0 0 d) by reflexivity.
  assert (T1 : timers s1 = timers s0) by reflexivity.
  assert (N1 : nextTimer s1 = nextTimer s0) by reflexivity.
  clearbody s1. unfold typeChar.
  destruct (Js.length d) as [|len] eqn:E.
  - simpl. split.
    + rewrite B1. apply substring0_all. lia.
    + unfold typing. rewrite T1. exact T0.
  - change (0 <? S len) with true. cbv iota.
    match goal with
    | |- boxText (typeOut _ ?s) = _ /\ _ =>
        destruct (typeOut_finishes d len 1 s (timers s0) (nextTimer s0)) as [B T]
    end.
    + lia.
    + simpl. now rewrite T1, N1.
    + intros r H. apply (F0 r H).
    + simpl. now rewrite N1.
    + simpl. now rewrite N1.
    + simpl. rewrite B1. rewrite (substring0_S d 0) by lia. reflexivity.
    + rewrite B. split; [reflexivity|]. unfold typing. rewrite T. exact T0.
Qed.

Lemma typing_reaches_whole_description_witness :
  let fin := typeOut 3 (click demoDescs 1
                          (run false demoDescs [Click 0; Reveal [true]] (boot 3))) in
  boxText fin = "CSS"%string /\ typing fin = [].
Proof.
  exact (typing_reaches_whole_description false demoDescs 3 [Click 0; Reveal [true]] 1
           (mkItem false false false) "CSS"%string eq_refl eq_refl eq_refl).
Defined.

End SkillsMore.

(* --------------------------------------------------------------------- *)
(** ** debounce and throttle *)
(* --------------------------------------------------------------------- *)

Section TimingFacts.
Import Timing.
Local Open Scope Q_scope.

Variable A : Type.

Lemma calls_cons (wait : Q) (c : Q * A) (cs : list (Q * A)) (d : Debounced A) :
  calls wait (c :: cs) d = calls wait cs (debounced wait (fst c) (snd c) d).
Proof. reflexivity. Qed.

Lemma last_cons (x d : Q * A) (l : list (Q * A)) :
  List.last (x :: l) d = List.last l x.
Proof.
  revert x d. induction l as [|y l IH]; intros x d; [reflexivity|].
  change (List.last (x :: y :: l) d) with (List.last (y :: l) d).
  now rewrite (IH y d), (IH y x).
Qed.

Lemma calls_in_burst (wait : Q) (cs : list (Q * A)) :
  forall (t : Q) (a : A) (l : list (Q * A)),
  burst wait t cs ->
  calls wait cs (mkDebounced (Some (t + wait, a)) l)
  = mkDebounced (Some (fst (List.last cs (t, a)) + wait, snd (List.last cs (t, a)))) l.
Proof.
  induction cs as [|[t' a'] cs IH]; intros t a l B; [reflexivity|].
  destruct B as [[B1 B2] B3]. simpl in B1, B2, B3.
  rewrite calls_cons, (last_cons (t', a') (t, a) cs).
  assert (E : debounced wait t' a' (mkDebounced (Some (t + wait, a)) l)
              = mkDebounced (Some (t' + wait, a')) l).
  { unfold debounced, elapse. simpl.
    destruct (Qle_bool (t + wait) t') eqn:C; [|reflexivity].
    apply Qle_bool_iff in C. lra. }
  simpl fst. simpl snd. rewrite E. apply (IH t' a' l B3).
Qed.

(** debounce: calls that follow one another by less than [wait] merge into
    one.  However many there are, [fn] has not run before [wait] has
    passed since the last of them, and once it has passed [fn] has run
    exactly once, with the arguments of the last call. *)
Theorem debounce_merges_burst
  (wait t0 : Q) (a0 : A) (cs : list (Q * A)) (u : Q) :
  burst wait t0 cs ->
  let final := List.last cs (t0, a0) in
  let d := calls wait ((t0, a0) :: cs) idle in
  (u < fst final + wait -> invoked (elapse u d) = []) /\
  (fst final + wait <= u ->
     invoked (elapse u d) = [(fst final + wait, snd final)] /\
     pendingCall (elapse u d) = None).
Proof.
  intros B final d.
  assert (D : d = mkDebounced (Some (fst final + wait, snd final)) []).
  { subst d final. rewrite calls_cons.
    change (debounced wait (fst (t0, a0)) (snd (t0, a0)) idle)
      with (mkDebounced (Some (t0 + wait, a0)) []).
    now apply calls_in_burst. }
  rewrite D. unfold elapse. simpl. split; intros H.
  - destruct (Qle_bool (fst final + wait) u) eqn:C; [|reflexivity].
    apply Qle_bool_iff in C. lra.
  - apply Qle_bool_iff in H. rewrite H. auto.
Qed.

Lemma spaced_snoc (limit t : Q) (l : list (Q * A)) (c : Q * A) :
  spaced limit t l -> limit <= fst c - lastTime t l -> spaced limit t (l ++ [c]).
Proof.
  revert t. induction l as [|x l IH]; intros t S L; simpl in *.
  - auto.
  - destruct S as [S1 S2]. split; [exact S1|]. apply IH; assumption.
Qed.

Lemma lastTime_snoc (t : Q) (l : list (Q * A)) (c : Q * A) :
  lastTime t (l ++ [c]) = fst c.
Proof. unfold lastTime. now rewrite fold_left_app. Qed.

Lemma throttled_spaced (limit : Q) (cs : list (Q * A)) :
  forall th : Throttled A,
  spaced limit 0 (passed th) -> lastPass th = lastTime 0 (passed th) ->
  spaced limit 0 (passed (throttledCalls limit cs th)) /\
  lastPass (throttledCalls limit cs th)
  = lastTime 0 (passed (throttledCalls limit cs th)).
Proof.
  induction cs as [|[t a] cs IH]; intros th S L; [auto|].
  change (throttledCalls limit ((t, a) :: cs) th)
    with (throttledCalls limit cs (throttled limit t a th)).
  apply IH; unfold throttled; simpl;
    destruct (Qle_bool limit (t - lastPass th)) eqn:C; simpl; auto.
  - apply Qle_bool_iff in C. apply spaced_snoc; [exact S|].
    simpl. rewrite <- L. exact C.
  - now rewrite lastTime_snoc.
Qed.

End TimingFacts.

Section TimingClaims.
Import Timing.
Local Open Scope Q_scope.

(** throttle: whatever the times of the calls, two calls that get through
    one after the other are at least [limit] apart, and the first one comes
    at least [limit] after time zero ([last] starts at 0, so calls in the
    first [limit] milliseconds of the page are dropped). *)
Theorem throttle_spaces_calls (A : Type) (limit : Q) (cs : list (Q * A)) :
  spaced limit 0 (passed (throttledCalls limit cs fresh)).
Proof.
  apply (throttled_spaced A limit cs fresh); [exact I | reflexivity].
Qed.

Lemma debounce_merges_burst_witness :
  burst 100 0 [(40, 2%nat); (120, 3%nat)] /\
  invoked (elapse 300 (calls 100 [(0, 1%nat); (40, 2%nat); (120, 3%nat)] idle))
  = [(120 + 100, 3%nat)].
Proof.
  assert (B : burst 100 0 [(40, 2%nat); (120, 3%nat)]).
  { simpl. repeat split; discriminate. }
  split; [exact B|].
  destruct (debounce_merges_burst nat 100 0 1%nat [(40, 2%nat); (120, 3%nat)] 300 B)
    as [_ H].
  apply H. discriminate.
Defined.

End TimingClaims.

(* --------------------------------------------------------------------- *)
(** ** Project sliders *)
(* --------------------------------------------------------------------- *)

Section SliderFacts.
Import Sliders.

Lemma length_setAt k v l : List.length (setAt k v l) = List.length l.
Proof.
  revert k. induction l as [|x l IH]; intros [|k]; simpl; auto.
Qed.

Lemma nth_setAt k v l p :
  k < List.length l ->
  nth p (setAt k v l) false = if Nat.eqb p k then v else nth p l false.
Proof.
  revert k p. induction l as [|x l IH]; intros [|k] [|p] H; simpl in *;
    try lia; auto.
  apply IH. lia.
Qed.

Lemma nth_onlyAt m n p : p < n -> nth p (onlyAt m n) false = Nat.eqb m p.
Proof.
  intros H. unfold onlyAt.
  rewrite (nth_indep _ false (Nat.eqb m 0)) by now rewrite length_map, length_seq.
  now rewrite map_nth, seq_nth.
Qed.

Lemma ticks_S k s : ticks (S k) s = tick (ticks k s).
Proof. reflexivity. Qed.

(** What [k] turns of the interval have done to a slider of [n] images:
    every image the counter has left is off, the one it is at is on. *)
Lemma ticks_state (classes : list bool) (k : nat) :
  1 < List.length classes ->
  let n := List.length classes in
  let s := ticks k (init classes) in
  List.length (imgs s) = n /\ i s = k mod n /\ live s = true /\
  (forall p, p < n -> p <> k mod n -> p < k -> nth p (imgs s) false = false) /\
  (1 <= k -> nth (k mod n) (imgs s) false = true).
Proof.
  intros L n. induction k as [|k IH]; intros s.
  - subst s. unfold ticks, init. simpl.
    assert (E : (1 <? List.length classes) = true) by now apply Nat.ltb_lt.
    rewrite E, Nat.Div0.mod_0_l.
    repeat split; auto; intros; lia.
  - subst s. rewrite ticks_S. simpl in IH.
    destruct IH as (Hl & Hi & Hv & Hoff & Hon).
    set (s := ticks k (init classes)) in *.
    assert (Hn : n <> 0) by (unfold n; lia).
    assert (Ek : (k mod n + 1) mod n = S k mod n).
    { rewrite Nat.Div0.add_mod_idemp_l. f_equal. lia. }
    assert (Bk : k mod n < n) by now apply Nat.mod_upper_bound.
    assert (Bs : S k mod n < n) by now apply Nat.mod_upper_bound.
    assert (Ne : S k mod n <> k mod n).
    { intros E. destruct (Nat.eq_dec (S (k mod n)) n) as [En|En].
      - rewrite <- Ek, Nat.add_1_r, En, Nat.Div0.mod_same in E. lia.
      - rewrite <- Ek, Nat.add_1_r, Nat.mod_small in E by lia. lia. }
    unfold tick. rewrite Hv, Hi, Hl, Ek. simpl.
    split; [now rewrite !length_setAt|].
    split; [reflexivity|]. split; [reflexivity|].
    split.
    + intros p Hp Np Lp.
      rewrite nth_setAt by now rewrite length_setAt, Hl.
      destruct (Nat.eqb_spec p (S k mod n)) as [->|_]; [contradiction|].
      rewrite nth_setAt by now rewrite Hl.
      destruct (Nat.eqb_spec p (k mod n)) as [_|Nk]; [reflexivity|].
      apply Hoff; auto.
      destruct (Nat.eq_dec p k) as [->|]; [|lia].
      rewrite Nat.mod_small in Nk by lia. contradiction.
    + intros _. rewrite nth_setAt by now rewrite length_setAt, Hl.
      now rewrite Nat.eqb_refl.
Qed.

(** A slider of [n] images, two or more, whatever classes its markup gave
    them: once the interval has run [n - 1] times or more, exactly one image
    is active, the one the counter is at, and the counter is the number of
    turns modulo [n]. *)
Theorem slider_settles_on_one_image (classes : list bool) (k : nat) :
  1 < List.length classes -> List.length classes - 1 <= k ->
  let n := List.length classes in
  let s := ticks k (init classes) in
  i s = k mod n /\ imgs s = onlyAt (k mod n) n.
Proof.
  intros L K n s.
  destruct (ticks_state classes k L) as (Hl & Hi & _ & Hoff & Hon).
  fold n in Hl, Hi, Hoff, Hon. fold s in Hl, Hi, Hoff, Hon.
  split; [exact Hi|].
  apply (nth_ext _ _ false false).
  - unfold onlyAt. now rewrite length_map, length_seq.
  - intros p Hp. rewrite Hl in Hp. rewrite nth_onlyAt by exact Hp.
    destruct (Nat.eqb_spec (k mod n) p) as [<-|Np].
    + apply Hon. unfold n in *. lia.
    + apply Hoff; auto.
      destruct (Nat.eq_dec p k) as [->|]; [|unfold n in *; lia].
      rewrite Nat.mod_small in Np by lia. contradiction.
Qed.

Lemma slider_settles_on_one_image_witness :
  imgs (ticks 2 (init [false; true; true])) = [false; false; true].
Proof.
  exact (proj2 (slider_settles_on_one_image [false; true; true] 2
                  ltac:(simpl; lia) ltac:(simpl; lia))).
Defined.

End SliderFacts.

(* --------------------------------------------------------------------- *)
(** ** Up arrows *)
(* --------------------------------------------------------------------- *)

Section UpArrowFacts.
Import UpArrows.

Lemma addArrow_hasArrow w s : hasArrow (addArrow w s) = true.
Proof.
  unfold addArrow. destruct (hasArrow s) eqn:E; [exact E|].
  unfold hasArrow. simpl. rewrite length_app. simpl.
  rewrite Nat.add_1_r. simpl. apply orb_true_r.
Qed.

Lemma addArrow_twice w s : addArrow w (addArrow w s) = addArrow w s.
Proof.
  unfold addArrow at 1. now rewrite addArrow_hasArrow.
Qed.

(** initUpArrows can run again without adding anything: a second run
    leaves the page as the first one made it. *)
Theorem up_arrows_added_once (p : Page) :
  initUpArrows (initUpArrows p) = initUpArrows p.
Proof.
  unfold initUpArrows.
  destruct (Nat.eqb (List.length (sections p)) 0 || negb (hasHero p)
            || negb (hasRoadmap p)) eqn:G.
  - now rewrite G.
  - simpl. rewrite length_map, G. f_equal.
    rewrite map_map. apply map_ext. intros s. apply addArrow_twice.
Qed.

(** On a page with a hero and a roadmap, after initUpArrows every section
    has an arrow; a section that had one comes out as it went in, and a
    section that had none got one and kept its inline position if it had
    set one. *)
Theorem every_section_has_an_arrow (p : Page) :
  hasHero p = true -> hasRoadmap p = true ->
  let p' := initUpArrows p in
  Forall (fun s => hasArrow s = true) (sections p') /\
  forall j s, nth_error (sections p) j = Some s ->
    exists s', nth_error (sections p') j = Some s' /\
      (hasArrow s = true -> s' = s) /\
      (hasArrow s = false ->
         List.length (injected s') = 1 /\ ownArrows s' = 0 /\
         (position s <> ""%string -> position s' = position s) /\
         (position s = ""%string -> position s' = "relative"%string)).
Proof.
  intros H R p'. subst p'. unfold initUpArrows. rewrite H, R. simpl.
  rewrite orb_false_r.
  destruct (Nat.eqb (List.length (sections p)) 0) eqn:G; simpl.
  - apply Nat.eqb_eq, length_zero_iff_nil in G. rewrite G.
    split; [constructor|]. intros [|j] s; discriminate.
  - split.
    + apply Forall_forall. intros s Hin. apply in_map_iff in Hin.
      destruct Hin as (s0 & <- & _). apply addArrow_hasArrow.
    + intros j s N. exists (addArrow (innerWidth p) s). split.
      * now rewrite nth_error_map, N.
      * unfold addArrow. split; intros A; rewrite A; [reflexivity|].
        unfold hasArrow in A. apply orb_false_elim in A. destruct A as [A1 A2].
        apply negb_false_iff, Nat.eqb_eq in A1.
        apply negb_false_iff, Nat.eqb_eq in A2.
        destruct (injected s); [|discriminate]. simpl.
        split; [reflexivity|]. split; [exact A1|].
        unfold orElse. split; intros P.
        -- apply String.eqb_neq in P. now rewrite P.
        -- now rewrite P.
Qed.

Lemma every_section_has_an_arrow_witness :
  Forall (fun s => hasArrow s = true)
    (sections (initUpArrows
       (mkPage [mkSection false "" 0 []; mkSection true "" 1 []] true true 1024%Q))).
Proof.
  exact (proj1 (every_section_has_an_arrow
                  (mkPage [mkSection false "" 0 []; mkSection true "" 1 []]
                          true true 1024%Q) eq_refl eq_refl)).
Defined.

End UpArrowFacts.

(* --------------------------------------------------------------------- *)
(** ** Hero arrow *)
(* --------------------------------------------------------------------- *)

Section HeroArrowFacts.
Import HeroArrow.

Lemma restores_restore st : restores (restore st) = tl (restores st).
Proof.
  unfold restore.
  destruct (restores st) as [|[h b] rest] eqn:E; simpl; [now rewrite E | reflexivity].
Qed.

Lemma restores_restoreAll n st : restores (restoreAll n st) = skipn n (restores st).
Proof.
  induction n as [|n IH]; [reflexivity|].
  change (restoreAll (S n) st) with (restore (restoreAll n st)).
  rewrite restores_restore, IH.
  generalize (restores st). clear. induction n as [|n IH]; intros [|x l]; simpl; auto.
Qed.

Lemma clicks_state n dom st :
  htmlOverflow (clicks (S n) dom st) = ""%string /\
  bodyOverflow (clicks (S n) dom st) = ""%string /\
  restores (clicks (S n) dom st)
  = restores st ++ (htmlOverflow st, bodyOverflow st) :: repeat (""%string, ""%string) n.
Proof.
  induction n as [|n IH].
  - simpl. auto.
  - change (clicks (S (S n)) dom st) with (click dom (clicks (S n) dom st)).
    destruct IH as (H & B & R). unfold click.
    cbn [htmlOverflow bodyOverflow restores]. rewrite H, B, R.
    split; [reflexivity|]. split; [reflexivity|].
    rewrite <- app_assoc. simpl. f_equal. f_equal.
    symmetry. apply repeat_cons.
Qed.

(** One click of the hero arrow with no restore pending: the inline
    overflow of html and body is cleared, one scroll is made, and when the
    timeout fires both are what they were before the click. *)
Theorem arrow_click_restores_overflow (dom : Dom) (st : State) :
  restores st = [] ->
  let during := click dom st in
  let after := restore during in
  htmlOverflow during = ""%string /\ bodyOverflow during = ""%string /\
  List.length (scrolls during) = S (List.length (scrolls st)) /\
  htmlOverflow after = htmlOverflow st /\ bodyOverflow after = bodyOverflow st /\
  restores after = [].
Proof.
  intros R. simpl. unfold restore. simpl. rewrite R. simpl.
  rewrite length_app. simpl. repeat split; lia.
Qed.

Lemma arrow_click_restores_overflow_witness :
  htmlOverflow (restore (click (mkDom true true) (mkState "hidden" "hidden" [] [])))
  = "hidden"%string.
Proof.
  exact (proj1 (proj2 (proj2 (proj2
           (arrow_click_restores_overflow (mkDom true true)
              (mkState "hidden" "hidden" [] []) eq_refl))))).
Defined.

(** Two or more clicks before the first timeout fires: every click after
    the first saves the cleared values, so once all timeouts have fired the
    inline overflow of html and body is empty, whatever it was before. *)
Theorem repeated_clicks_lose_overflow (dom : Dom) (st : State) (n : nat) :
  restores st = [] ->
  let after := restoreAll (S (S n)) (clicks (S (S n)) dom st) in
  htmlOverflow after = ""%string /\ bodyOverflow after = ""%string /\
  restores after = [].
Proof.
  intros R after. subst after.
  destruct (clicks_state (S n) dom st) as (_ & _ & C). rewrite R in C.
  change ([] ++ ?l) with l in C.
  remember (clicks (S (S n)) dom st) as s eqn:Es. clear Es.
  change (restoreAll (S (S n)) s) with (restore (restoreAll (S n) s)).
  pose proof (restores_restoreAll (S n) s) as Q. rewrite C in Q.
  change (skipn (S n) (?x :: ?l)) with (skipn n l) in Q.
  assert (E : skipn n (repeat (""%string, ""%string) (S n)) = [(""%string, ""%string)]).
  { clear. induction n as [|n IH]; [reflexivity|]. exact IH. }
  rewrite E in Q. unfold restore. rewrite Q. simpl. auto.
Qed.

Lemma repeated_clicks_lose_overflow_witness :
  htmlOverflow (restoreAll 2 (clicks 2 (mkDom true true)
                                (mkState "hidden" "hidden" [] [])))
  = ""%string.
Proof.
  exact (proj1 (repeated_clicks_lose_overflow (mkDom true true)
                  (mkState "hidden" "hidden" [] []) 0 eq_refl)).
Defined.

End HeroArrowFacts.

(* --------------------------------------------------------------------- *)
(** ** Hero captions: timeouts *)
(* --------------------------------------------------------------------- *)

Section HeroTimerFacts.
Import Hero HeroTimers.
Local Open Scope Q_scope.

Lemma starts_app st l :
  List.length (filter (Call_eqb CallPlaySequence) (calls st ++ l))
  = (starts st + List.length (filter (Call_eqb CallPlaySequence) l))%nat.
Proof. unfold starts. now rewrite filter_app, length_app. Qed.

Lemma sample_timeouts st c :
  exists l, timeouts (sample st c) = timeouts st ++ l /\
            (List.length l + 4 * starts st = 4 * starts (sample st c))%nat.
Proof.
  unfold sample, checkTime.
  destruct (tooClose c st); [exists []; rewrite app_nil_r; split; reflexivity|].
  destruct (inWindow c && negb (playing (set_lastTimeChecked c st))).
  - eexists. split.
    + unfold playSequence. simpl. rewrite <- app_assoc. reflexivity.
    + unfold starts, playSequence. simpl.
      rewrite !filter_app, !length_app. simpl. lia.
  - destruct (Qle_bool CAR_LEAVE c || Qltb c CAR_ARRIVAL).
    + exists []. rewrite app_nil_r. split; [reflexivity|].
      unfold starts. simpl. rewrite filter_app, length_app. simpl. lia.
    + exists []. rewrite app_nil_r. split; [reflexivity | reflexivity].
Qed.

(** No sample of the playback time cancels a timeout of animateText: the
    pending timeouts only grow, by four for every playSequence. *)
Theorem samples_never_cancel_timeouts (samples : list Q) (st : State) :
  exists l, timeouts (runSamples samples st) = timeouts st ++ l /\
            (List.length l + 4 * starts st = 4 * starts (runSamples samples st))%nat.
Proof.
  revert st. induction samples as [|c cs IH]; intros st.
  - exists []. rewrite app_nil_r. split; [reflexivity | simpl; lia].
  - destruct (sample_timeouts st c) as (l1 & T1 & N1).
    destruct (IH (sample st c)) as (l2 & T2 & N2).
    exists (l1 ++ l2). change (runSamples (c :: cs) st) with (runSamples cs (sample st c)).
    rewrite T2, T1, <- app_assoc. split; [reflexivity|].
    rewrite length_app. lia.
Qed.

(** The playback time leaves the car's window while a timeout of
    animateText is still pending: the captions are hidden and [playing] is
    false, the timeout stays, and when it fires it sets its caption's
    animation although nothing is playing. *)
Theorem caption_timeouts_outlive_reset (st : State) (c : Q) (k : nat) (t : Timeout) :
  nth_error (timeouts st) k = Some t ->
  inWindow c = false -> tooClose c st = false ->
  let left := sample st c in
  let late := fire k left in
  timeouts left = timeouts st /\ textsHidden left /\ playing left = false /\
  playing late = false /\
  styleOf (target t) late = mkStyle "0" (effect t).
Proof.
  intros N W C left late.
  assert (L : left = resetTexts (set_playing false (set_lastTimeChecked c st))).
  { subst left. unfold sample, checkTime. rewrite C, W. simpl.
    unfold inWindow in W.
    destruct (Qle_bool CAR_LEAVE c) eqn:A; [reflexivity|].
    destruct (Qle_bool CAR_ARRIVAL c) eqn:B; simpl in *.
    - unfold Qltb in W. rewrite A in W. discriminate.
    - unfold Qltb. now rewrite B. }
  subst late. rewrite L. unfold fire. simpl. rewrite N.
  split; [reflexivity|]. split; [split; reflexivity|]. split; [reflexivity|].
  destruct (target t); split; reflexivity.
Qed.

Lemma caption_timeouts_outlive_reset_witness :
  let st := fire 0 (sample initial 3) in
  let late := fire 0 (sample st 7) in
  playing late = false /\
  gotStuck late = mkStyle "0" (Anim "fadeOutText" (1#2)).
Proof.
  destruct (caption_timeouts_outlive_reset (fire 0 (sample initial 3)) 7 0
              (mkTimeout ((0 + (1#2) + 1) * 1000) gotStuckEl (Anim "fadeOutText" (1#2)))
              eq_refl eq_refl eq_refl) as (_ & _ & _ & P & S).
  split; [exact P | exact S].
Defined.

End HeroTimerFacts.

(* --------------------------------------------------------------------- *)
(** ** Contact form: runs of events *)
(* --------------------------------------------------------------------- *)

Section ContactMore.
Import Contact ContactRun.

Lemma step_counts form st e :
  List.length (sent (step form st e))
  = List.length (sent st) + (if isSubmit e then 1 else 0) /\
  prevented (step form st e) = prevented st + (if isSubmit e then 1 else 0).
Proof.
  destruct e as [|id o|id|values]; simpl.
  - rewrite length_app. simpl. lia.
  - unfold settle. destruct (existsb _ _); [|lia].
    destruct o as [[|]|]; simpl; lia.
  - unfold clearStatus. destruct (existsb _ _); simpl; lia.
  - lia.
Qed.

(** Whatever happens to the form, in whatever order, submits, settled or
    stale fetches, status timeouts, edits: the page has made one fetch, and
    prevented one default, for each submit event and no other. *)
Theorem one_fetch_per_submit (form : Form) (evs : list Event) (st : State) :
  List.length (sent (run form evs st))
  = List.length (sent st) + List.length (filter isSubmit evs) /\
  prevented (run form evs st)
  = prevented st + List.length (filter isSubmit evs).
Proof.
  revert st. induction evs as [|e evs IH]; intros st; [simpl; lia|].
  change (run form (e :: evs) st) with (run form evs (step form st e)).
  destruct (IH (step form st e)) as [I1 I2].
  destruct (step_counts form st e) as [S1 S2].
  rewrite I1, I2, S1, S2. simpl. destruct (isSubmit e); simpl; lia.
Qed.

(** A second submit within three seconds of a success: the timeout of the
    first one is still pending, and when it fires it empties the status
    while the second fetch is still awaited. *)
Theorem stale_timeout_erases_sending (form : Form) (st : State) :
  let s1 := submit form st in
  let s2 := settle (nextId st) (Responded true) s1 in
  let s3 := submit form s2 in
  let s4 := clearStatus (nextId s1) s3 in
  status s3 = SENDING /\
  status s4 = ""%string /\
  In (nextId s2) (awaiting s4).
Proof.
  intros s1 s2 s3 s4.
  assert (E2 : s2 = mkState SUCCESS (defaults st) (defaults st) (S (prevented st))
                      (sent s1)
                      (filter (fun h => negb (Pos.eqb h (nextId st))) (awaiting s1))
                      (clearTimers st ++ [nextId s1]) (Pos.succ (nextId s1))).
  { subst s2. unfold settle. subst s1. rewrite awaiting_after_submit. reflexivity. }
  split; [reflexivity|].
  assert (X : existsb (Pos.eqb (nextId s1)) (clearTimers s3) = true).
  { subst s3. rewrite E2. simpl. rewrite existsb_app. simpl.
    rewrite Pos.eqb_refl. now rewrite orb_true_r. }
  subst s4. unfold clearStatus. rewrite X. simpl.
  split; [reflexivity|].
  apply in_or_app. right. left. reflexivity.
Qed.

End ContactMore.

(* --------------------------------------------------------------------- *)
(** ** The glow *)
(* --------------------------------------------------------------------- *)

Section GlowFacts.
Import Glow.
Local Open Scope Q_scope.

Lemma round_near (x : Q) :
  x - (1#2) < inject_Z (Roadmap.round x) /\ inject_Z (Roadmap.round x) <= x + (1#2).
Proof.
  unfold Roadmap.round.
  pose proof (Qfloor_le (x + (1#2))) as L.
  pose proof (Qlt_floor (x + (1#2))) as U.
  rewrite inject_Z_plus in U. change (inject_Z 1) with 1 in U.
  split; lra.
Qed.

(** The mousemove listener puts the glow's centre within half a pixel of
    the pointer, in the section's coordinates, on both axes. *)
Theorem glow_centred_on_pointer (clientX clientY rectLeft rectTop w h : Q) :
  let g := follow clientX clientY rectLeft rectTop w h in
  Qabs (inject_Z (fst g) + w / 2 - (clientX - rectLeft)) <= 1#2 /\
  Qabs (inject_Z (snd g) + h / 2 - (clientY - rectTop)) <= 1#2.
Proof.
  intros g. subst g. unfold follow. cbn [fst snd].
  destruct (round_near (clientX - rectLeft - w / 2)) as [X1 X2].
  destruct (round_near (clientY - rectTop - h / 2)) as [Y1 Y2].
  split; apply Qabs_Qle_condition; split; lra.
Qed.

End GlowFacts.

(* --------------------------------------------------------------------- *)
(** ** Sparkles, dust and wheels in motion *)
(* --------------------------------------------------------------------- *)

Section MotionFacts.
Import Layers Sparkles.
Local Open Scope Q_scope.

Lemma Qle_bool_lt (a b : Q) : Qle_bool a b = false -> b < a.
Proof.
  intros H. apply Qnot_le_lt. intros L. apply Qle_bool_iff in L. congruence.
Qed.







Lemma bounce (lim x s : Q) :
  -79 <= lim -> bouncing lim x s ->
  let x' := x + s in
  let s1 := if Qle_bool x' (-80) then s * -1 else s in
  let s2 := if Qle_bool lim x' then s1 * -1 else s1 in
  bouncing lim x' s2.
Proof.
  intros L (S0 & S1 & B). simpl. unfold bouncing.
  destruct (Qle_bool (x + s) (-80)) eqn:A; destruct (Qle_bool lim (x + s)) eqn:C;
    try apply Qle_bool_iff in A; try apply Qle_bool_iff in C;
    try apply Qle_bool_lt in A; try apply Qle_bool_lt in C;
    destruct B as [B|[B|B]]; try lra;
    (split; [lra|]; split; [lra|]).
  all: try (left; lra).
  all: try (right; left; lra).
  all: try (right; right; lra).
Qed.

Lemma moveWheel_bouncing w h o :
  100 <= w -> 100 <= h ->
  bouncing (w - 20) (wheel_x o) (wheel_speedX o) /\
  bouncing (h - 20) (wheel_y o) (wheel_speedY o) ->
  let o' := moveWheel w h o in
  bouncing (w - 20) (wheel_x o') (wheel_speedX o') /\
  bouncing (h - 20) (wheel_y o') (wheel_speedY o').
Proof.
  intros W H [X Y]. split.
  - apply (bounce (w - 20) (wheel_x o) (wheel_speedX o)); [lra | exact X].
  - apply (bounce (h - 20) (wheel_y o) (wheel_speedY o)); [lra | exact Y].
Qed.

Lemma newWheel_bouncing w h rnd n :
  unit_interval rnd -> 120 <= w -> 120 <= h ->
  let o := fst (newWheel w h rnd n) in
  bouncing (w - 20) (wheel_x o) (wheel_speedX o) /\
  bouncing (h - 20) (wheel_y o) (wheel_speedY o).
Proof.
  intros U W H o.
  destruct (newWheel_inside w h rnd n U) as (X0 & X1 & Y0 & Y1).
  fold o in X0, X1, Y0, Y1.
  destruct (Qmax_100 (w - 100)) as [_ Bw], (Qmax_100 (h - 100)) as [_ Bh].
  assert (Qmax 100 (w - 100) <= w - 100 + 100) by (apply Bw; lra).
  assert (Qmax 100 (h - 100) <= h - 100 + 100) by (apply Bh; lra).
  assert (Mw : Qmax 100 (w - 100) <= w - 20).
  { unfold Qmax. destruct (Qle_bool 100 (w - 100)); lra. }
  assert (Mh : Qmax 100 (h - 100) <= h - 20).
  { unfold Qmax. destruct (Qle_bool 100 (h - 100)); lra. }
  assert (Sx : -(17#20) < wheel_speedX o /\ wheel_speedX o < 17#20).
  { subst o. simpl. destruct (U (S (S n))). unfold sign.
    destruct (Qltb (rnd (S (S (S n)))) (1#2)); split; lra. }
  assert (Sy : -(17#20) < wheel_speedY o /\ wheel_speedY o < 17#20).
  { subst o. simpl. destruct (U (S (S (S (S n))))). unfold sign.
    destruct (Qltb (rnd (S (S (S (S (S n)))))) (1#2)); split; lra. }
  unfold bouncing. split.
  - split; [apply Sx|]. split; [apply Sx|]. left. lra.
  - split; [apply Sy|]. split; [apply Sy|]. left. lra.
Qed.





(** The wheels of a section at least 120 pixels wide and high that keeps
    its size: after any number of frames every wheel has
    -81 < x < width - 19 and -81 < y < height - 19; a wheel that crosses
    a turning line is back inside it one frame later. *)
Theorem wheels_stay_in_band
  (lowPerf : bool) (rnd : nat -> Q) (k : nat) (w h : Q) (n : nat) :
  unit_interval rnd -> 120 <= w -> 120 <= h ->
  let l := wheelFrames n w h (fst (initWheels lowPerf w h rnd k)) in
  List.length l = wheelCount lowPerf /\
  forall o, In o l ->
    -81 < wheel_x o /\ wheel_x o < w - 19 /\
    -81 < wheel_y o /\ wheel_y o < h - 19.
Proof.
  intros U W H l.
  assert (I : List.length l = wheelCount lowPerf /\
              forall o, In o l ->
                bouncing (w - 20) (wheel_x o) (wheel_speedX o) /\
                bouncing (h - 20) (wheel_y o) (wheel_speedY o)).
  { subst l. induction n as [|n IH].
    - unfold wheelFrames, initWheels. simpl. split; [apply times_length|].
      apply (times_all (fun o => bouncing (w - 20) (wheel_x o) (wheel_speedX o) /\
                                 bouncing (h - 20) (wheel_y o) (wheel_speedY o))).
      intros m. now apply newWheel_bouncing.
    - change (wheelFrames (S n) w h ?x)
        with (map (moveWheel w h) (wheelFrames n w h x)).
      destruct IH as [L B]. split; [now rewrite length_map|].
      intros o Hin. apply in_map_iff in Hin. destruct Hin as (o0 & <- & Hin).
      apply moveWheel_bouncing; [lra | lra | now apply B]. }
  destruct I as [L B]. split; [exact L|].
  intros o Hin. destruct (B o Hin) as [(X0 & X1 & X) (Y0 & Y1 & Y)].
  destruct X as [X|[X|X]], Y as [Y|[Y|Y]]; repeat split; lra.
Qed.

Lemma wheels_stay_in_band_witness :
  let rnd := fun _ : nat => 1#2 in
  unit_interval rnd /\
  List.length (wheelFrames 3 800 600 (fst (initWheels true 800 600 rnd 0%nat)))
  = 3%nat.
Proof.
  assert (U : unit_interval (fun _ : nat => 1#2)).
  { intros n. split; [discriminate | reflexivity]. }
  split; [exact U|].
  exact (proj1 (wheels_stay_in_band true (fun _ : nat => 1#2) 0%nat 800 600 3
                  U ltac:(discriminate) ltac:(discriminate))).
Defined.

End MotionFacts.

(* --------------------------------------------------------------------- *)
(** ** The sparkle loop after teardown *)
(* --------------------------------------------------------------------- *)

Section PageStall.
Import Page PageInv.

Local Arguments pendingQ : simpl never.

Lemma In_pendingQ h cb q : In h (pendingQ cb q) -> In (h, cb) q.
Proof.
  unfold pendingQ. intros H. apply in_map_iff in H.
  destruct H as ([id c] & <- & H). apply filter_In in H. destruct H as [H E].
  simpl in *. destruct c, cb; try discriminate; exact H.
Qed.

Lemma filter_none {A : Type} (g : A -> bool) (l : list A) :
  (forall a, In a l -> g a = false) -> filter g l = [].
Proof.
  induction l as [|a l IH]; intros H; simpl; [reflexivity|].
  rewrite (H a (or_introl eq_refl)). apply IH. intros; apply H; now right.
Qed.

(** stopRafs leaves no request of a loop pending. *)
Lemma stopRafs_clears cb st :
  cb <> RestoreCarTransition -> Registered st -> pending cb (stopRafs st) = [].
Proof.
  intros N [R _]. unfold pending, stopRafs. simpl.
  rewrite stopRafs_loop_filter.
  rewrite (pendingQ_ids (fun h => negb (existsb (Pos.eqb h) (rev (_rafIds st))))).
  apply filter_none. intros h H. apply In_pendingQ in H.
  apply negb_false_iff, existsb_exists. exists h. split; [|apply Pos.eqb_refl].
  apply -> in_rev. exact (R h cb H N).
Qed.

Lemma Stalled_untouched r b st st' :
  sparkle_untouched st st' -> Stalled r b st -> Stalled r b st'.
Proof.
  intros [E [g P]] (S1 & S2 & S3). unfold Stalled. rewrite E, P, S1. auto.
Qed.

Lemma Stalled_entry rm lp r b st :
  Stalled r b st -> Stalled r b (sparkleEntry rm lp st true).
Proof.
  intros (S1 & S2 & S3). unfold sparkleEntry. rewrite S2.
  destruct rm; simpl; rewrite ?S2; simpl; unfold Stalled; auto.
Qed.

Lemma Stalled_step rm lp r b st e :
  inView e = true -> Stalled r b st -> Stalled r b (step rm lp st e).
Proof.
  intros V S. destruct e as [es| |es| |es| | |id| |]; simpl.
  - simpl in V. revert st S. induction es as [|e es IH]; intros st S; simpl; [exact S|].
    simpl in V. apply andb_prop in V. destruct V as [-> V].
    apply (IH V), Stalled_entry, S.
  - destruct S as (S1 & S2 & S3). unfold Stalled; simpl. auto.
  - eapply Stalled_untouched; [|exact S].
    apply untouched_fold. intros. apply untouched_particlesEntry.
  - eapply Stalled_untouched; [|exact S]. now apply untouched_same.
  - eapply Stalled_untouched; [|exact S].
    apply untouched_fold. intros. apply untouched_wheelsEntry.
  - eapply Stalled_untouched; [|exact S]. unfold wheelsResize.
    eapply sparkle_untouched_trans; [apply untouched_cancelWheels|].
    eapply sparkle_untouched_trans; [|apply untouched_animateWheels].
    now apply untouched_same.
  - eapply Stalled_untouched; [|exact S]. apply untouched_initCarPosition.
  - unfold frame. destruct (pendingCallback id st) as [cb|] eqn:F; [|exact S].
    destruct cb; simpl.
    + apply pendingCallback_In in F. destruct S as (S1 & _).
      rewrite S1 in F. destruct F.
    + eapply Stalled_untouched; [|exact S].
      eapply sparkle_untouched_trans; [apply untouched_cancelRaf | apply untouched_loop].
    + eapply Stalled_untouched; [|exact S].
      eapply sparkle_untouched_trans; [apply untouched_cancelRaf | apply untouched_animateWheels].
    + eapply Stalled_untouched; [|exact S]. apply untouched_cancelRaf.
  - eapply Stalled_untouched; [|exact S].
    eapply sparkle_untouched_trans; [apply untouched_stopRafs|].
    now apply untouched_same.
  - eapply Stalled_untouched; [|exact S]. apply untouched_stopRafs.
Qed.

Lemma Stalled_run rm lp r b evs :
  forallb inView evs = true ->
  forall st, Stalled r b st -> Stalled r b (run rm lp evs st).
Proof.
  induction evs as [|e evs IH]; intros V st S; simpl; [exact S|].
  simpl in V. apply andb_prop in V. destruct V as [V1 V2].
  apply (IH V2), Stalled_step; assumption.
Qed.

(** Teardown while the sparkle loop is running: stopRafs cancels the
    loop's request, [sparkleRafId] keeps the cancelled handle.  From then
    on, through any events in which the observer does not report the
    section out of view, the loop has no request pending and draws no
    frame: an "intersecting" report finds the handle set and does not call
    drawSparkles.  A report "out of view" then "in view" starts the loop
    again. *)
Theorem teardown_stalls_sparkle_loop
  (rm lp : bool) (evs evs' : list Event) (e : Event) (r : positive) :
  e = PageHide \/ e = BeforeUnload ->
  let s := run rm lp evs (boot rm lp) in
  sparkleRafId (sparkle s) = Some r ->
  forallb inView evs' = true ->
  let s' := run rm lp evs' (step rm lp s e) in
  pending DrawSparkles s' = [] /\
  sparkleRafId (sparkle s') = Some r /\
  sparkleBodies (sparkle s') = sparkleBodies (sparkle s) /\
  pending DrawSparkles (step rm lp s' (SparkleIntersect [false; true]))
  = [nextHandle s'].
Proof.
  intros He s R V s'.
  assert (Rm : rm = false).
  { destruct (SparkleInv_run rm lp evs _ (SparkleInv_boot rm lp)) as (_ & _ & _ & I4).
    fold s in I4. destruct rm; [|reflexivity]. rewrite I4 in R by reflexivity.
    discriminate. }
  assert (S0 : Stalled r (sparkleBodies (sparkle s)) (step rm lp s e)).
  { pose proof (stopRafs_clears DrawSparkles s ltac:(discriminate)
                  (Registered_run rm lp evs)) as C.
    destruct He; subst e; unfold Stalled; simpl; auto. }
  pose proof (Stalled_run rm lp r _ evs' V _ S0) as (S1 & S2 & S3). fold s' in S1, S2, S3.
  split; [exact S1|]. split; [exact S2|]. split; [exact S3|].
  subst rm. simpl. unfold sparkleEntry at 2. simpl. rewrite S2. simpl.
  unfold sparkleEntry, drawSparkles. simpl.
  unfold pending in *. simpl.
  rewrite pendingQ_app, (pendingQ_dequeue_nil _ _ _ S1). reflexivity.
Qed.

Lemma teardown_stalls_sparkle_loop_witness :
  let s := run false false [SparkleIntersect [true]] (boot false false) in
  let s' := run false false [SparkleIntersect [true]; Frame 3]
                (step false false s PageHide) in
  sparkleRafId (sparkle s) = Some 3%positive /\
  pending DrawSparkles s' = [] /\ sparkleBodies (sparkle s') = 1.
Proof.
  split; [reflexivity|].
  destruct (teardown_stalls_sparkle_loop false false [SparkleIntersect [true]]
              [SparkleIntersect [true]; Frame 3] PageHide 3%positive
              (or_introl eq_refl) eq_refl eq_refl) as (P & _ & B & _).
  split; [exact P | exact B].
Defined.

End PageStall.
